(** * Blackjack table: the round engine of [App.jsx]

    A shallow embedding of the round engine of the React component
    [src/App.jsx] (deck, hand evaluation, the betting / playing / round-end
    handlers and the settlement), followed by the properties the
    specification states about it.

    Conventions of the embedding.
    - Card ranks, suits, player statuses, results, phases and the fixed
      message texts are closed sets of string literals in the source; they
      are inductive types here.
    - Card values, indices and ids are JavaScript numbers holding integers:
      they are [Z].  Chips, bets and the pot are JavaScript numbers that can
      hold fractions (a 2.5x payout): they are exact rationals [Q], compared
      with [==].  JavaScript computes them in IEEE doubles, which agree with
      the exact rationals as long as every result is representable: whole
      amounts below 2^53 are (at a table of several seats all amounts are
      whole), but at a solo table the fractions a 2.5x payout leaves can
      need one more bit after every all-in blackjack, until a product is
      rounded.  The properties of the solo payouts therefore carry the
      hypothesis [representable]; see [soloAmountsExact].  (The share of a
      pooled payout is a quotient rounded to a whole number by
      [Math.round]; at the amounts of a table the rounding of the quotient
      to a double does not move it across a half.)
    - [Array.prototype.pop] on an empty array yields [undefined]:
      [drawCard] returns an [option Card].  Reading [.value] of [undefined]
      raises a [TypeError]; the handlers therefore live in the [completion]
      monad, [Throw TypeError] standing for the uncaught exception.
    - A handler is a function of the state its closure captured; every
      [setX] call is a field update applied in program order.  A handler
      that throws keeps the updates it has queued before the exception:
      [queuedBeforeThrow] is the state it leaves.
    - The variant of the component that displays each player's chip change
      is the same engine with two more player fields, [roundStartChips] and
      [delta]; the embedding carries them. *)

From Stdlib Require Import ZArith QArith Qround Qminmax Lqa.
From stdpp Require Import base option list gmap strings pretty.

Local Open Scope Z_scope.

(** ** Cards and the deck (App.jsx 3-35) *)

Inductive Suit := Spades | Hearts | Diamonds | Clubs.

Inductive Rank :=
  | RA | R2 | R3 | R4 | R5 | R6 | R7 | R8 | R9 | R10 | RJ | RQ | RK.

#[global] Instance Suit_eq_dec : EqDecision Suit.
Proof. solve_decision. Defined.

#[global] Instance Rank_eq_dec : EqDecision Rank.
Proof. solve_decision. Defined.

Definition SUITS : list Suit := [Spades; Hearts; Diamonds; Clubs].

Definition RANKS : list Rank :=
  [RA; R2; R3; R4; R5; R6; R7; R8; R9; R10; RJ; RQ; RK].

Record Card := mkCard { suit : Suit; rank : Rank; value : Z }.

#[global] Instance Card_eq_dec : EqDecision Card.
Proof. solve_decision. Defined.

(** [Number(rank)] on the numeric rank strings.  [createDeck] applies it
    to those only; on the four other ranks (where JavaScript yields [NaN])
    the value given here is never read. *)
Definition Number (r : Rank) : Z :=
  match r with
  | R2 => 2 | R3 => 3 | R4 => 4 | R5 => 5 | R6 => 6
  | R7 => 7 | R8 => 8 | R9 => 9 | R10 => 10
  | RA | RJ | RQ | RK => 0
  end.

(** The value expression of [createDeck]:
    [rank === "A" ? 11 : ["J","Q","K"].includes(rank) ? 10 : Number(rank)]. *)
Definition rankValue (r : Rank) : Z :=
  if decide (r = RA) then 11
  else if bool_decide (r ∈ [RJ; RQ; RK]) then 10
  else Number r.

Definition createDeck : list Card :=
  s ← SUITS; r ← RANKS; [ {| suit := s; rank := r; value := rankValue r |} ].

(** [cardOf] builds the card [createDeck] holds for a suit and a rank. *)
Definition cardOf (s : Suit) (r : Rank) : Card :=
  {| suit := s; rank := r; value := rankValue r |}.

(** Exchange of two array cells, [[deck[i], deck[j]] = [deck[j], deck[i]]]. *)
Definition swapCells (i j : nat) (deck : list Card) : list Card :=
  match deck !! i, deck !! j with
  | Some a, Some b => <[ i := b ]> (<[ j := a ]> deck)
  | _, _ => deck
  end.

(** The Fisher-Yates loop of [shuffle], [i] going from [length - 1] down to
    [1].  [rand i] is the integer [Math.floor(Math.random() * (i + 1))] drawn
    at step [i], a number between [0] and [i]. *)
Fixpoint shuffleFrom (rand : nat → nat) (i : nat) (deck : list Card) : list Card :=
  match i with
  | O => deck
  | S i' => shuffleFrom rand i' (swapCells i (rand i `mod` (i + 1))%nat deck)
  end.

Definition shuffle (rand : nat → nat) (cards : list Card) : list Card :=
  shuffleFrom rand (length cards - 1)%nat cards.

(** [drawCard]: [next.pop()] returns the last cell, or [undefined] ([None])
    when the array is empty; [next] is the array without that cell. *)
Definition drawCard (deck : list Card) : option Card * list Card :=
  (last deck, removelast deck).

(** ** Hand evaluation (App.jsx 37-47) *)

(** The [while (total > 21 && aces > 0)] loop; [aces] is its own counter. *)
Fixpoint reduceAces (aces : nat) (total : Z) : Z :=
  match aces with
  | O => total
  | S aces' => if 21 <? total then reduceAces aces' (total - 10) else total
  end.

Definition calculateHand (hand : list Card) : Z :=
  let total := foldl (λ sum card, sum + value card) 0 hand in
  let aces := length (filter (λ card, rank card = RA) hand) in
  reduceAces aces total.

Definition isBlackjack (hand : list Card) : bool :=
  bool_decide (length hand = 2%nat) && (calculateHand hand =? 21).

(** ** JavaScript completions

    A call either returns a value or throws.  The only exception the engine
    can raise is the [TypeError] of reading a property of [undefined]. *)

Inductive Error := TypeError.

Inductive completion (A : Type) :=
  | Return (a : A)
  | Throw (e : Error).

Arguments Return {A} a.
Arguments Throw {A} e.

#[global] Instance completion_ret : MRet completion := λ A a, Return a.

#[global] Instance completion_bind : MBind completion := λ A B k m,
  match m with
  | Return a => k a
  | Throw e => Throw e
  end.

(** ** Players, dealer and the component state (App.jsx 9, 88-115) *)

Inductive Status := StIdle | StActive | StStand | StBust | StBlackjack.

(** [ResNone] is the empty string. *)
Inductive Result := ResNone | ResWin | ResLose | ResPush | ResBlackjack.

Inductive Phase := Betting | Playing | RoundEnd.

Inductive Screen := Lobby | Table.

(** The message texts: [MsgNone] is the empty string, [MsgPlaceBets] the
    prompt to pick chips and deal, [MsgInvalidBet] the validation text of
    [handleDeal] (every bet must be above 0 and within the chip balance),
    [MsgChooseAction] and [MsgRoundEnd] the texts of the later phases. *)
Inductive Message :=
  MsgNone | MsgPlaceBets | MsgInvalidBet | MsgChooseAction | MsgRoundEnd.

#[global] Instance Status_eq_dec : EqDecision Status.
Proof. solve_decision. Defined.

#[global] Instance Result_eq_dec : EqDecision Result.
Proof. solve_decision. Defined.

#[global] Instance Phase_eq_dec : EqDecision Phase.
Proof. solve_decision. Defined.

#[global] Instance Screen_eq_dec : EqDecision Screen.
Proof. solve_decision. Defined.

(** A player object.  [roundStartChips] and [delta] are the two fields of
    the variant of the component that displays the chip change of the round;
    [App.jsx] itself has the other seven, and no code of either reads them
    outside the settlement's [delta] computation. *)
Record Player := mkPlayer {
  id : Z;
  name : string;
  chips : Q;
  roundStartChips : Q;
  bet : Q;
  hand : list Card;
  status : Status;
  result : Result;
  delta : Q
}.

Record Dealer := mkDealer { dealerHand : list Card; hidden : bool }.

Record State := mkState {
  screen : Screen;
  phase : Phase;
  playerCount : Z;
  players : list Player;
  dealer : Dealer;
  deck : list Card;
  currentIndex : Z;
  message : Message;
  round : Z;
  pot : Q
}.

Definition STARTING_CHIPS : Q := 1000.

Definition CHIP_VALUES : list Q := [10; 25; 50; 100; 250; 500]%Q.

Definition emptyDealer : Dealer := {| dealerHand := []; hidden := true |}.

(** Object spreads [{ ...player, field: v }]. *)
Definition withChips (v : Q) (p : Player) : Player :=
  mkPlayer (id p) (name p) v (roundStartChips p) (bet p) (hand p) (status p) (result p) (delta p).
Definition withRoundStartChips (v : Q) (p : Player) : Player :=
  mkPlayer (id p) (name p) (chips p) v (bet p) (hand p) (status p) (result p) (delta p).
Definition withBet (v : Q) (p : Player) : Player :=
  mkPlayer (id p) (name p) (chips p) (roundStartChips p) v (hand p) (status p) (result p) (delta p).
Definition withHand (v : list Card) (p : Player) : Player :=
  mkPlayer (id p) (name p) (chips p) (roundStartChips p) (bet p) v (status p) (result p) (delta p).
Definition withStatus (v : Status) (p : Player) : Player :=
  mkPlayer (id p) (name p) (chips p) (roundStartChips p) (bet p) (hand p) v (result p) (delta p).
Definition withResult (v : Result) (p : Player) : Player :=
  mkPlayer (id p) (name p) (chips p) (roundStartChips p) (bet p) (hand p) (status p) v (delta p).
Definition withDelta (v : Q) (p : Player) : Player :=
  mkPlayer (id p) (name p) (chips p) (roundStartChips p) (bet p) (hand p) (status p) (result p) v.

(** The state setters [setX(v)]. *)
Definition setScreen (v : Screen) (s : State) : State :=
  mkState v (phase s) (playerCount s) (players s) (dealer s) (deck s) (currentIndex s) (message s) (round s) (pot s).
Definition setPhase (v : Phase) (s : State) : State :=
  mkState (screen s) v (playerCount s) (players s) (dealer s) (deck s) (currentIndex s) (message s) (round s) (pot s).
Definition setPlayerCount (v : Z) (s : State) : State :=
  mkState (screen s) (phase s) v (players s) (dealer s) (deck s) (currentIndex s) (message s) (round s) (pot s).
Definition setPlayers (v : list Player) (s : State) : State :=
  mkState (screen s) (phase s) (playerCount s) v (dealer s) (deck s) (currentIndex s) (message s) (round s) (pot s).
Definition setDealer (v : Dealer) (s : State) : State :=
  mkState (screen s) (phase s) (playerCount s) (players s) v (deck s) (currentIndex s) (message s) (round s) (pot s).
Definition setDeck (v : list Card) (s : State) : State :=
  mkState (screen s) (phase s) (playerCount s) (players s) (dealer s) v (currentIndex s) (message s) (round s) (pot s).
Definition setCurrentIndex (v : Z) (s : State) : State :=
  mkState (screen s) (phase s) (playerCount s) (players s) (dealer s) (deck s) v (message s) (round s) (pot s).
Definition setMessage (v : Message) (s : State) : State :=
  mkState (screen s) (phase s) (playerCount s) (players s) (dealer s) (deck s) (currentIndex s) v (round s) (pot s).
Definition setRound (v : Z) (s : State) : State :=
  mkState (screen s) (phase s) (playerCount s) (players s) (dealer s) (deck s) (currentIndex s) (message s) v (pot s).
Definition setPot (v : Q) (s : State) : State :=
  mkState (screen s) (phase s) (playerCount s) (players s) (dealer s) (deck s) (currentIndex s) (message s) (round s) v.

(** Updates queued by a handler, in program order. *)
Notation "s |> f" := (f s) (at level 45, left associativity, only parsing).

(** The state of the component's first render.  [rand] shuffles the deck. *)
Definition initialState (rand : nat → nat) : State :=
  {| screen := Lobby; phase := Betting; playerCount := 2; players := [];
     dealer := emptyDealer; deck := shuffle rand createDeck; currentIndex := 0;
     message := MsgNone; round := 1; pot := 0 |}.

Definition isMulti (s : State) : bool := 1 <? playerCount s.

(** [array[i]] for a numeric index: [undefined] outside [0 .. length - 1]. *)
Definition at_index {A} (l : list A) (i : Z) : option A :=
  if i <? 0 then None else l !! Z.to_nat i.

(** [array.map((x, idx) => idx === index ? f(x) : x)]. *)
Definition mapAt {A} (index : Z) (f : A → A) (l : list A) : list A :=
  imap (λ idx x, if Z.of_nat idx =? index then f x else x) l.

(** [nextActiveIndex]: the [for] loop from [fromIndex + 1].  A negative
    start reads [players[i]] outside the array and throws on [.status]. *)
Fixpoint scanActive (i : Z) (rest : list Player) : Z :=
  match rest with
  | [] => -1
  | p :: rest' => if decide (status p = StActive) then i else scanActive (i + 1) rest'
  end.

Definition nextActiveIndex (players : list Player) (fromIndex : Z) : completion Z :=
  if fromIndex + 1 <? 0 then Throw TypeError
  else Return (scanActive (fromIndex + 1) (drop (Z.to_nat (fromIndex + 1)) players)).

(** [buildPlayers(count, existing = [])]. *)
Definition buildPlayers (count : Z) (existing : list Player) : list Player :=
  (λ index : nat,
     {| id := Z.of_nat index + 1;
        name := "Player " +:+ pretty (Z.of_nat index + 1);
        chips := from_option chips STARTING_CHIPS (existing !! index);
        roundStartChips := from_option roundStartChips STARTING_CHIPS (existing !! index);
        bet := 0; hand := []; status := StIdle; result := ResNone; delta := 0 |})
  <$> seq 0 (Z.to_nat count).

Definition handleLobbyStart (s : State) : State :=
  s |> setPlayers (buildPlayers (playerCount s) [])
    |> setDealer emptyDealer
    |> setPhase Betting
    |> setScreen Table
    |> setRound 1
    |> setPot 0
    |> setMessage MsgPlaceBets.

(** ** Dealing (App.jsx 127-194) *)

Definition ensureDeck (rand : nat → nat) (current : list Card) : list Card :=
  if (length current <? 15)%nat then shuffle rand createDeck else current.

(** The inner [for (p ...)] loop of [dealInitial]: one card to every player
    in seat order.  An [undefined] card pushed into a hand makes the next
    totalling of that hand throw; the embedding keeps hands free of
    [undefined] and raises the [TypeError] at the draw. *)
Fixpoint dealPlayers (nextDeck : list Card) (dealtPlayers : list Player)
    : completion (list Player * list Card) :=
  match dealtPlayers with
  | [] => Return ([], nextDeck)
  | player :: rest =>
      match drawCard nextDeck with
      | (Some card, next) =>
          '(rest', deck') ← dealPlayers next rest;
          Return (withHand (hand player ++ [card]) player :: rest', deck')
      | (None, _) => Throw TypeError
      end
  end.

(** The body of the outer [for (i ...)] loop: the players' pass, then one
    card to the dealer.  When the deck is empty at the dealer's draw the
    source pushes [undefined] into the dealer's hand and goes on;
    [dealInitial] then throws in its last loop if a player's hand holds
    [undefined] too (the totalling in [isBlackjack]), and otherwise returns
    a dealer's hand that holds [undefined].  Hands are lists of cards here,
    and the [TypeError] is raised at the dealer's draw.  The two differ only
    when the deck holds exactly the [2n + 1] cards that serve [n] players
    twice and the dealer once: [ensureDeck] leaving fifteen cards at least,
    that needs seven seats, and the table has four at most.  The properties
    of [dealInitial] say nothing of that case. *)
Definition dealPass (st : list Card * list Player * Dealer)
    : completion (list Card * list Player * Dealer) :=
  let '(nextDeck, dealtPlayers, nextDealer) := st in
  '(dealtPlayers', deck1) ← dealPlayers nextDeck dealtPlayers;
  match drawCard deck1 with
  | (Some card, next) =>
      Return (next, dealtPlayers',
              {| dealerHand := dealerHand nextDealer ++ [card]; hidden := hidden nextDealer |})
  | (None, _) => Throw TypeError
  end.

Definition dealInitial (rand : nat → nat) (preparedDeck : list Card)
    (preparedPlayers : list Player) : completion (list Card * list Player * Dealer) :=
  let nextDeck := ensureDeck rand preparedDeck in
  let dealtPlayers :=
    (λ player, player |> withHand [] |> withStatus StActive |> withResult ResNone)
      <$> preparedPlayers in
  let nextDealer := {| dealerHand := []; hidden := true |} in
  st1 ← dealPass (nextDeck, dealtPlayers, nextDealer);
  '(nextDeck, dealtPlayers, nextDealer) ← dealPass st1;
  let dealtPlayers : list Player :=
    (λ player, if isBlackjack (hand player) then withStatus StBlackjack player else player)
      <$> (dealtPlayers : list Player) in
  Return (nextDeck, dealtPlayers, nextDealer).

(** ** Settlement (App.jsx 242-322) *)

Definition resolveResult (player : Player) (dealerTotal : Z)
    (dealerBlackjack dealerBust : bool) : Result :=
  let playerTotal := calculateHand (hand player) in
  if decide (status player = StBust) then ResLose
  else if isBlackjack (hand player) && dealerBlackjack then ResPush
  else if dealerBlackjack then ResLose
  else if isBlackjack (hand player) then ResBlackjack
  else if dealerBust then ResWin
  else if dealerTotal <? playerTotal then ResWin
  else if playerTotal <? dealerTotal then ResLose
  else ResPush.

(** The dealer's [while (dealerTotal < 17)] loop.  Every iteration pops one
    card, so the number of cards left in the deck bounds the iterations:
    [n] is that number, and at [n = 0] the deck is empty, the popped card is
    [undefined] and totalling the hand throws. *)
Fixpoint dealerLoop (n : nat) (dealerHand : list Card) (nextDeck : list Card)
    : completion (list Card * list Card) :=
  if calculateHand dealerHand <? 17 then
    match n with
    | O => Throw TypeError
    | S n' =>
        match drawCard nextDeck with
        | (Some card, next) => dealerLoop n' (dealerHand ++ [card]) next
        | (None, _) => Throw TypeError
        end
    end
  else Return (dealerHand, nextDeck).

Definition dealerDraws (dealerHand : list Card) (currentDeck : list Card)
    : completion (list Card * list Card) :=
  dealerLoop (length currentDeck) dealerHand currentDeck.

(** [Math.round]: the nearest integer, halves going up. *)
Definition Math_round (x : Q) : Q := inject_Z (Qfloor (x + (1 # 2))).

Definition Qgt_bool (a b : Q) : bool := negb (Qle_bool a b).

Definition isPush (player : Player) : bool := bool_decide (result player = ResPush).

Definition isWinner (player : Player) : bool :=
  bool_decide (result player = ResWin) || bool_decide (result player = ResBlackjack).

(** [player.bet * (player.result === "blackjack" ? 1.5 : 1)]. *)
Definition weightOf (player : Player) : Q :=
  (bet player * (if decide (result player = ResBlackjack) then 3 # 2 else 1))%Q.

(** The pooled branch ([if (isMulti)]): the pot left to distribute, the sum
    of the winners' weights, the payout map, and the players paid. *)
Definition pooledPotPool (nextPot : Q) (resolvedPlayers : list Player) : Q :=
  foldl (λ potPool player, potPool - bet player)%Q nextPot
        (List.filter isPush resolvedPlayers).

Definition pooledTotalWeight (resolvedPlayers : list Player) : Q :=
  foldl (λ sum player, sum + weightOf player)%Q 0%Q
        (List.filter isWinner resolvedPlayers).

Definition pooledPayoutMap (potPool totalWeight : Q) (resolvedPlayers : list Player)
    : gmap Z Q :=
  foldl (λ (payoutMap : gmap Z Q) player,
           let weight := weightOf player in
           let payout :=
             if Qgt_bool totalWeight 0 then (potPool * weight / totalWeight)%Q else 0%Q in
           <[ id player := Math_round payout ]> payoutMap)
        ∅ (List.filter isWinner resolvedPlayers).

Definition pooledFinalPlayers (payoutMap : gmap Z Q) (resolvedPlayers : list Player)
    : list Player :=
  (λ player,
     let refund := if decide (result player = ResPush) then bet player else 0%Q in
     let payout := default 0%Q (payoutMap !! id player) in
     let finalChips := (chips player + refund + payout)%Q in
     player |> withChips finalChips
            |> withDelta (finalChips - roundStartChips player)%Q)
  <$> resolvedPlayers.

(** The independent branch ([else]).  The products and the sum are those
    of exact rationals; the source's are doubles, equal to them wherever the
    exact result is [representable] (see the conventions above). *)
Definition soloPayout (player : Player) : Q :=
  let payout := 0%Q in
  let payout := if decide (result player = ResPush) then bet player else payout in
  let payout := if decide (result player = ResWin) then (bet player * 2)%Q else payout in
  let payout := if decide (result player = ResBlackjack) then (bet player * (5 # 2))%Q else payout in
  payout.

Definition soloFinalPlayers (resolvedPlayers : list Player) : list Player :=
  (λ player,
     let finalChips := (chips player + soloPayout player)%Q in
     player |> withChips finalChips
            |> withDelta (finalChips - roundStartChips player)%Q)
  <$> resolvedPlayers.

(** [handleDealerTurn(currentPlayers, currentDealer, currentDeck, nextPot)],
    its updates applied to the state [s] the calling handler has built so
    far; [isMulti] is read from [s] (no handler of the table changes
    [playerCount]). *)
Definition handleDealerTurn (s : State) (currentPlayers : list Player)
    (currentDealer : Dealer) (currentDeck : list Card) (nextPot : Q)
    : completion State :=
  '(finalHand, nextDeck) ← dealerDraws (dealerHand currentDealer) currentDeck;
  let nextDealer := {| dealerHand := finalHand; hidden := false |} in
  let dealerTotal := calculateHand finalHand in
  let dealerBlackjack := isBlackjack finalHand in
  let dealerBust := 21 <? dealerTotal in
  let resolvedPlayers : list Player :=
    (λ player, withResult (resolveResult player dealerTotal dealerBlackjack dealerBust) player)
      <$> currentPlayers in
  let s' :=
    if isMulti s then
      let potPool := pooledPotPool nextPot resolvedPlayers in
      let totalWeight := pooledTotalWeight resolvedPlayers in
      let payoutMap := pooledPayoutMap potPool totalWeight resolvedPlayers in
      let finalPlayers := pooledFinalPlayers payoutMap resolvedPlayers in
      s |> setPot (if Qgt_bool totalWeight 0 then 0%Q else potPool)
        |> setPlayers finalPlayers
    else
      s |> setPlayers (soloFinalPlayers resolvedPlayers) in
  Return (s' |> setDealer nextDealer
             |> setDeck nextDeck
             |> setPhase RoundEnd
             |> setMessage MsgRoundEnd).

(** ** The handlers of the table (App.jsx 159-240, 324-358) *)

Definition invalidBet (player : Player) : bool :=
  Qle_bool (bet player) 0 || Qgt_bool (bet player) (chips player).

(** The [reservedPlayers] of [handleDeal]: every bet taken from the chips. *)
Definition reservePlayers (players : list Player) : list Player :=
  (λ player,
     player |> withChips (chips player - bet player)%Q
            |> withRoundStartChips (chips player)
            |> withDelta 0%Q
            |> withResult ResNone
            |> withHand []
            |> withStatus StActive)
  <$> players.

Definition handleDeal (rand : nat → nat) (s : State) : completion State :=
  let invalid := existsb invalidBet (players s) in
  if invalid then Return (s |> setMessage MsgInvalidBet)
  else
    let potIncrease := foldl (λ sum player, sum + bet player)%Q 0%Q (players s) in
    let reservedPlayers := reservePlayers (players s) in
    '(nextDeck, dealtPlayers, nextDealer) ← dealInitial rand (deck s) reservedPlayers;
    let s1 := s |> setDeck nextDeck
                |> setPlayers dealtPlayers
                |> setDealer nextDealer
                |> setPhase Playing
                |> setMessage MsgChooseAction in
    let s2 := if isMulti s then s1 |> setPot (pot s1 + potIncrease)%Q else s1 in
    nextIndex ← nextActiveIndex dealtPlayers (-1);
    if nextIndex =? -1 then
      let nextPot := if isMulti s then (pot s + potIncrease)%Q else pot s in
      handleDealerTurn s2 dealtPlayers nextDealer nextDeck nextPot
    else Return (s2 |> setCurrentIndex nextIndex).

(** [advanceTurn], its updates applied to the state [s] built so far;
    [currentIndex] is read from [s] (the callers do not set it before). *)
Definition advanceTurn (s : State) (nextPlayers : list Player) (nextDealer : Dealer)
    (nextDeck : list Card) (nextPot : Q) : completion State :=
  nextIndex ← nextActiveIndex nextPlayers (currentIndex s);
  if nextIndex =? -1 then handleDealerTurn s nextPlayers nextDealer nextDeck nextPot
  else Return (s |> setCurrentIndex nextIndex).

Definition handleHit (s : State) : completion State :=
  match at_index (players s) (currentIndex s) with
  | None => Return s
  | Some player =>
      if negb (bool_decide (status player = StActive)) then Return s
      else
        match drawCard (deck s) with
        | (None, _) => Throw TypeError
        | (Some card, next) =>
            let updatedHand := hand player ++ [card] in
            let total := calculateHand updatedHand in
            let updatedPlayers := mapAt (currentIndex s) (withHand updatedHand) (players s) in
            let updatedPlayers :=
              if 21 <? total then
                alter (withStatus StBust) (Z.to_nat (currentIndex s)) updatedPlayers
              else if total =? 21 then
                alter (withStatus StStand) (Z.to_nat (currentIndex s)) updatedPlayers
              else updatedPlayers in
            let s1 := s |> setDeck next |> setPlayers updatedPlayers in
            if negb (bool_decide (status <$> at_index updatedPlayers (currentIndex s)
                                  = Some StActive))
            then advanceTurn s1 updatedPlayers (dealer s) next (pot s)
            else Return s1
        end
  end.

Definition handleStand (s : State) : completion State :=
  let updatedPlayers := mapAt (currentIndex s) (withStatus StStand) (players s) in
  advanceTurn (s |> setPlayers updatedPlayers) updatedPlayers (dealer s) (deck s) (pot s).

Definition handleNextRound (s : State) : State :=
  s |> setPlayers ((λ player,
                      player |> withBet 0%Q |> withHand [] |> withStatus StIdle
                             |> withResult ResNone |> withDelta 0%Q)
                   <$> players s)
    |> setDealer emptyDealer
    |> setPhase Betting
    |> setRound (round s + 1)
    |> setMessage MsgPlaceBets.

Definition handleBetAdd (index : Z) (amount : Q) (s : State) : State :=
  s |> setPlayers
         (mapAt index (λ player, withBet (Qmin (chips player) (bet player + amount)) player)
                (players s)).

Definition handleBetClear (index : Z) (s : State) : State :=
  s |> setPlayers (mapAt index (withBet 0%Q) (players s)).

Definition handleBetAllIn (index : Z) (s : State) : State :=
  s |> setPlayers (mapAt index (λ player, withBet (chips player) player) (players s)).

(** ** The controls of the rendered table (App.jsx 376-503)

    The component calls a handler only from the [onClick] of a control, and
    renders each control under a condition on [screen] and [phase]. *)

Inductive Event :=
  | SelectCount (count : Z)
  | OpenTable
  | AddChip (index : nat) (value : Q)
  | ClearBet (index : nat)
  | AllIn (index : nat)
  | Deal
  | Hit
  | Stand
  | NextRound.

Definition onScreen (sc : Screen) (s : State) : bool := bool_decide (screen s = sc).

Definition inPhase (ph : Phase) (s : State) : bool := bool_decide (phase s = ph).

(** Whether the control of an event is rendered in state [s]. *)
Definition offered (s : State) (e : Event) : bool :=
  match e with
  | SelectCount count => onScreen Lobby s && bool_decide (count ∈ [1; 2; 3; 4])
  | OpenTable => onScreen Lobby s
  | AddChip index value =>
      onScreen Table s && inPhase Betting s
      && bool_decide (index < length (players s))%nat
      && existsb (Qeq_bool value) CHIP_VALUES
  | ClearBet index | AllIn index =>
      onScreen Table s && inPhase Betting s
      && bool_decide (index < length (players s))%nat
  | Deal => onScreen Table s && inPhase Betting s
  | Hit | Stand => onScreen Table s && inPhase Playing s
  | NextRound => onScreen Table s && inPhase RoundEnd s
  end.

Definition handler (rand : nat → nat) (e : Event) (s : State) : completion State :=
  match e with
  | SelectCount count => Return (setPlayerCount count s)
  | OpenTable => Return (handleLobbyStart s)
  | AddChip index value => Return (handleBetAdd (Z.of_nat index) value s)
  | ClearBet index => Return (handleBetClear (Z.of_nat index) s)
  | AllIn index => Return (handleBetAllIn (Z.of_nat index) s)
  | Deal => handleDeal rand s
  | Hit => handleHit s
  | Stand => handleStand s
  | NextRound => Return (handleNextRound s)
  end.

(** A click on a control that is not rendered cannot happen: the state stays.
    [Return s'] is a handler that ran to its end, [s'] holding all its
    updates; [Throw] is a handler left by an uncaught exception.  The
    updates such a handler has queued before the exception are applied all
    the same: [queuedBeforeThrow] is the state the component then holds. *)
Definition click (rand : nat → nat) (e : Event) (s : State) : completion State :=
  if offered s e then handler rand e s else Return s.

(** The state left by a click whose handler throws: the [setX] calls made
    before the exception.

    - [handleDeal] throws either in [dealInitial], before any update
      (App.jsx 177), or in the dealer turn, after [setDeck], [setPlayers],
      [setDealer], [setPhase], [setMessage] and [setPot] (App.jsx 179-192;
      [handleDealerTurn] throws in its loop, before its own updates).
    - [handleHit] throws either at the totalling of the hand that holds the
      [undefined] card, before any update (App.jsx 213-215), or in
      [advanceTurn], after [setDeck] and [setPlayers] (App.jsx 226-230).
    - [handleStand] throws in [advanceTurn], after [setPlayers]
      (App.jsx 238-239).
    - No other handler throws. *)
Definition queuedBeforeThrow (rand : nat → nat) (e : Event) (s : State) : State :=
  match e with
  | Deal =>
      let potIncrease := foldl (λ sum player, sum + bet player)%Q 0%Q (players s) in
      let reservedPlayers := reservePlayers (players s) in
      match dealInitial rand (deck s) reservedPlayers with
      | Throw _ => s
      | Return (nextDeck, dealtPlayers, nextDealer) =>
          let s1 := s |> setDeck nextDeck
                      |> setPlayers dealtPlayers
                      |> setDealer nextDealer
                      |> setPhase Playing
                      |> setMessage MsgChooseAction in
          if isMulti s then s1 |> setPot (pot s1 + potIncrease)%Q else s1
      end
  | Hit =>
      match at_index (players s) (currentIndex s) with
      | None => s
      | Some player =>
          match drawCard (deck s) with
          | (None, _) => s
          | (Some card, next) =>
              let updatedHand := hand player ++ [card] in
              let total := calculateHand updatedHand in
              let updatedPlayers :=
                mapAt (currentIndex s) (withHand updatedHand) (players s) in
              let updatedPlayers :=
                if 21 <? total then
                  alter (withStatus StBust) (Z.to_nat (currentIndex s)) updatedPlayers
                else if total =? 21 then
                  alter (withStatus StStand) (Z.to_nat (currentIndex s)) updatedPlayers
                else updatedPlayers in
              s |> setDeck next |> setPlayers updatedPlayers
          end
      end
  | Stand =>
      s |> setPlayers (mapAt (currentIndex s) (withStatus StStand) (players s))
  | _ => s
  end.

(** The states the component can be in: the first render, then clicks,
    whether their handler returns or throws. *)
Inductive reachable : State → Prop :=
  | reachable_init rand : reachable (initialState rand)
  | reachable_click rand e s s' :
      reachable s → click rand e s = Return s' → reachable s'
  | reachable_throw rand e s err :
      reachable s → click rand e s = Throw err →
      reachable (queuedBeforeThrow rand e s).

(** The dealer's cards as rendered (App.jsx 417-421): the card at index 0
    shows a question mark ([None]) while [hidden] is set. *)
Definition shownDealerCards (d : Dealer) : list (option Card) :=
  imap (λ index card, if hidden d && bool_decide (index = 0%nat) then None else Some card)
       (dealerHand d).

(** ** Definitions that follow the specification's words *)

(** Nominal card values: Ace 11, faces 10, numeric ranks at face value. *)
Definition nominalValue (r : Rank) : Z :=
  match r with
  | RA => 11
  | RJ | RQ | RK => 10
  | R2 => 2 | R3 => 3 | R4 => 4 | R5 => 5 | R6 => 6
  | R7 => 7 | R8 => 8 | R9 => 9 | R10 => 10
  end.

(** The soft-ace rule in closed form: a total above 21 needs
    [ceil ((total - 21) / 10)] reductions, and at most [aces] are available. *)
Definition reductionsNeeded (total : Z) : Z := Z.max 0 ((total - 12) / 10).

Definition softTotal (total aces : Z) : Z :=
  total - 10 * Z.min aces (reductionsNeeded total).

Definition sumValues (hand : list Card) : Z := foldr (λ card sum, value card + sum) 0 hand.

Definition countAces (hand : list Card) : Z :=
  Z.of_nat (length (filter (λ card, rank card = RA) hand)).

(** The precedence order of the settlement, as a decision list over the
    facts it names. *)
Definition classify (playerBust playerNatural dealerNatural dealerBust : bool)
    (playerTotal dealerTotal : Z) : Result :=
  match playerBust, playerNatural, dealerNatural, dealerBust with
  | true, _, _, _ => ResLose
  | false, true, true, _ => ResPush
  | false, false, true, _ => ResLose
  | false, true, false, _ => ResBlackjack
  | false, false, false, true => ResWin
  | false, false, false, false =>
      match playerTotal ?= dealerTotal with
      | Gt => ResWin
      | Lt => ResLose
      | Eq => ResPush
      end
  end.

(** Payout multipliers of the independent mode. *)
Definition payoutMultiplier (r : Result) : Q :=
  match r with
  | ResPush => 1
  | ResWin => 2
  | ResBlackjack => 5 # 2
  | ResLose | ResNone => 0
  end.

(** The betting invariant: every bet lies between 0 and the chip balance. *)
Definition betWithinChips (player : Player) : Prop :=
  (0 <= bet player)%Q ∧ (bet player <= chips player)%Q.

Definition betsWithinChips (s : State) : Prop :=
  Forall betWithinChips (players s).

(** Sequences of bet adjustments. *)
Inductive betAdjustments : State → State → Prop :=
  | adjust_none s : betAdjustments s s
  | adjust_add s s' index amount :
      betAdjustments s s' → (0 <= amount)%Q →
      betAdjustments s (handleBetAdd index amount s')
  | adjust_clear s s' index :
      betAdjustments s s' → betAdjustments s (handleBetClear index s')
  | adjust_allin s s' index :
      betAdjustments s s' → betAdjustments s (handleBetAllIn index s').

(** The players of a settlement once every result is filled in, and the
    state [handleDealerTurn] leaves when the dealer ends on [finalHand] with
    [nextDeck] left. *)
Definition resolvePlayers (finalHand : list Card) (currentPlayers : list Player)
    : list Player :=
  (λ player,
     withResult (resolveResult player (calculateHand finalHand) (isBlackjack finalHand)
                               (21 <? calculateHand finalHand)) player)
  <$> currentPlayers.

Definition settledState (s : State) (currentPlayers : list Player)
    (finalHand nextDeck : list Card) (nextPot : Q) : State :=
  let resolvedPlayers := resolvePlayers finalHand currentPlayers in
  let potPool := pooledPotPool nextPot resolvedPlayers in
  let totalWeight := pooledTotalWeight resolvedPlayers in
  {| screen := screen s; phase := RoundEnd; playerCount := playerCount s;
     players :=
       if isMulti s
       then pooledFinalPlayers (pooledPayoutMap potPool totalWeight resolvedPlayers)
                               resolvedPlayers
       else soloFinalPlayers resolvedPlayers;
     dealer := {| dealerHand := finalHand; hidden := false |};
     deck := nextDeck; currentIndex := currentIndex s; message := MsgRoundEnd;
     round := round s;
     pot := if isMulti s
            then (if Qgt_bool totalWeight 0 then 0%Q else potPool)
            else pot s |}.

(** Sums over a list of players. *)
Definition sumQ (f : Player → Q) (l : list Player) : Q :=
  foldr (λ player sum, f player + sum)%Q 0%Q l.

(** ** Rounds played through the controls *)

(** A sequence of clicks that all return, each with the random source its
    handler may use; it is [Throw] as soon as one of the handlers throws
    (the table that click leaves is [queuedBeforeThrow]). *)
Fixpoint clicks (es : list ((nat → nat) * Event)) (s : State) : completion State :=
  match es with
  | [] => Return s
  | (rand, e) :: es' => s' ← click rand e s; clicks es' s'
  end.

(** A random source under which [shuffle] changes nothing. *)
Definition keepOrder : nat → nat := λ i, i.

(** A random source that brings the Ace of clubs to the top of the deck. *)
Definition aceOnTop : nat → nat := λ i, if (i =? 51)%nat then 39%nat else i.

(** A random source that leaves K, Q, J, 8, 9 of clubs and the 8 of diamonds
    as the six top cards, the King on top. *)
Definition eightsUp : nat → nat :=
  λ i, if (i =? 48)%nat then 46%nat else if (i =? 46)%nat then 33%nat else i.

(** The state a sequence of clicks that all return leads to from the first
    render.  (Where one of them throws the definition falls back on the
    first render; every table named below comes from clicks that return.) *)
Definition stateAfter (rand : nat → nat) (es : list ((nat → nat) * Event)) : State :=
  match clicks es (initialState rand) with
  | Return s => s
  | Throw _ => initialState rand
  end.

(** A table of two after the deal, with bets of 100 and 200: seat one holds
    K and 8, seat two Q and 9, the dealer J and 8. *)
Definition tableOfTwoDealt : State :=
  stateAfter eightsUp
    [(keepOrder, OpenTable); (keepOrder, AddChip 0 100%Q); (keepOrder, AddChip 1 100%Q);
     (keepOrder, AddChip 1 100%Q); (eightsUp, Deal)].

(** A solo table in the betting phase with a bet of 100 placed. *)
Definition soloTableBet : State :=
  stateAfter keepOrder
    [(keepOrder, SelectCount 1); (keepOrder, OpenTable); (keepOrder, AddChip 0 100%Q)].

(** The same table after the deal from the ordered deck: the player holds
    K and J, the dealer Q and 10. *)
Definition soloTableDealt : State :=
  stateAfter keepOrder
    [(keepOrder, SelectCount 1); (keepOrder, OpenTable); (keepOrder, AddChip 0 100%Q);
     (keepOrder, Deal)].

(** And after the player stood: the round has ended on a push. *)
Definition soloTableEnded : State :=
  stateAfter keepOrder
    [(keepOrder, SelectCount 1); (keepOrder, OpenTable); (keepOrder, AddChip 0 100%Q);
     (keepOrder, Deal); (keepOrder, Stand)].

(** The hands of a round-robin deal: seat [i] receives the [i]-th card of
    the first pass and the [i]-th card of the second pass, and is marked
    [blackjack] when the two make a natural. *)
Definition dealtSeat (player : Player) (first second : Card) : Player :=
  let cards := [first; second] in
  mkPlayer (id player) (name player) (chips player) (roundStartChips player) (bet player)
           cards (if isBlackjack cards then StBlackjack else StActive) ResNone
           (delta player).

Definition dealtSeats (preparedPlayers : list Player) (first second : list Card)
    : list Player :=
  zip_with (λ player cards, dealtSeat player cards.1 cards.2)
           preparedPlayers (zip first second).

(** The pot and the state [handleDeal] has built when it looks for the
    first player to act. *)
Definition potAfterDeal (s : State) : Q :=
  if isMulti s
  then (pot s + foldl (λ sum player, sum + bet player) 0 (players s))%Q
  else pot s.

Definition dealtState (s : State) (dealtPlayers : list Player) (nextDealer : Dealer)
    (nextDeck : list Card) : State :=
  {| screen := screen s; phase := Playing; playerCount := playerCount s;
     players := dealtPlayers; dealer := nextDealer; deck := nextDeck;
     currentIndex := currentIndex s; message := MsgChooseAction; round := round s;
     pot := potAfterDeal s |}.

(** A bet is acceptable when it is above 0 and within the chips. *)
Definition acceptableBet (player : Player) : Prop :=
  (0 < bet player)%Q ∧ (bet player <= chips player)%Q.

(** The status a hit leaves on a hand of the given total, and the player
    after the hit. *)
Definition statusAfterHit (total : Z) : Status :=
  if 21 <? total then StBust else if total =? 21 then StStand else StActive.

Definition playerAfterHit (player : Player) (card : Card) : Player :=
  player |> withHand (hand player ++ [card])
         |> withStatus (statusAfterHit (calculateHand (hand player ++ [card]))).

(** The invariant of the turn pointer: while the phase is [Playing] the
    acting index holds an active player and no player before it is active;
    in the other phases no player is active. *)
Definition noneActive (l : list Player) : Prop :=
  Forall (λ player, status player ≠ StActive) l.

Definition turnInvariant (s : State) : Prop :=
  match phase s with
  | Playing =>
      (∃ player, at_index (players s) (currentIndex s) = Some player
                 ∧ status player = StActive)
      ∧ noneActive (take (Z.to_nat (currentIndex s)) (players s))
  | Betting | RoundEnd => noneActive (players s)
  end.

(** Four rounds at a table of four seats, dealt from the ordered deck with
    bets of 10: all stand; two hits at seat one, then stands; one hit at seat
    one, then stands; and five hits, after which the deck is empty while seat
    two is still to act. *)
Definition placeBetsAndDeal : list ((nat → nat) * Event) :=
  [(keepOrder, AddChip 0 10%Q); (keepOrder, AddChip 1 10%Q);
   (keepOrder, AddChip 2 10%Q); (keepOrder, AddChip 3 10%Q); (keepOrder, Deal)].

Definition exhaustingClicks : list ((nat → nat) * Event) :=
  [(keepOrder, SelectCount 4); (keepOrder, OpenTable)]
  ++ placeBetsAndDeal
  ++ [(keepOrder, Stand); (keepOrder, Stand); (keepOrder, Stand); (keepOrder, Stand);
      (keepOrder, NextRound)]
  ++ placeBetsAndDeal
  ++ [(keepOrder, Hit); (keepOrder, Hit); (keepOrder, Stand); (keepOrder, Stand);
      (keepOrder, Stand); (keepOrder, Stand); (keepOrder, NextRound)]
  ++ placeBetsAndDeal
  ++ [(keepOrder, Hit); (keepOrder, Stand); (keepOrder, Stand); (keepOrder, Stand);
      (keepOrder, Stand); (keepOrder, NextRound)]
  ++ placeBetsAndDeal
  ++ [(keepOrder, Hit); (keepOrder, Hit); (keepOrder, Hit); (keepOrder, Hit);
      (keepOrder, Hit)].

Definition fourSeatsDeckEmpty : State := stateAfter keepOrder exhaustingClicks.

(** ** Further notions used by the properties of the whole table *)

(** A ten-valued rank: 10, J, Q or K. *)
Definition tenValued (r : Rank) : bool :=
  match r with
  | R10 | RJ | RQ | RK => true
  | _ => false
  end.

(** All the cards of a table: the players' hands, the dealer's hand and the
    deck. *)
Definition tableCards (s : State) : list Card :=
  concat (hand <$> players s) ++ dealerHand (dealer s) ++ deck s.

(** The invariant of the money on the table: the pot and every balance and
    bet are 0 or more; while bets are placed every bet is within its
    player's chips; while the round is played every bet is above 0 and, at a
    table of several seats, the pot holds at least the bets of the round.
    The lobby is only seen in the betting phase. *)
Definition moneyInvariant (s : State) : Prop :=
  (0 <= pot s)%Q
  ∧ Forall (λ player, 0 <= chips player ∧ 0 <= bet player)%Q (players s)
  ∧ (screen s = Lobby → phase s = Betting)
  ∧ match phase s with
    | Betting => Forall (λ player, bet player <= chips player)%Q (players s)
    | Playing =>
        Forall (λ player, 0 < bet player)%Q (players s)
        ∧ (isMulti s = true → sumQ bet (players s) <= pot s)%Q
    | RoundEnd => True
    end.

(** A status that agrees with its hand: two cards at least, [blackjack]
    exactly on a natural, [bust] above 21, [stand] up to 21, [active] below
    21. *)
Definition handStatus (player : Player) : Prop :=
  (2 <= length (hand player))%nat
  ∧ (isBlackjack (hand player) = true → status player = StBlackjack)
  ∧ match status player with
    | StIdle => False
    | StActive => calculateHand (hand player) < 21
    | StStand => calculateHand (hand player) <= 21
    | StBust => 21 < calculateHand (hand player)
    | StBlackjack => isBlackjack (hand player) = true
    end.

(** The result [resolveResult] gives a player against the dealer's hand. *)
Definition resultAgainst (dealerCards : list Card) (player : Player) : Result :=
  resolveResult player (calculateHand dealerCards) (isBlackjack dealerCards)
                (21 <? calculateHand dealerCards).

(** The invariant of the round: between rounds nothing is dealt; while the
    round is played the dealer holds two cards, the first hidden, and no
    result is set; after it the dealer shows a hand of 17 or more and every
    result is the one [resolveResult] gives for the hands on the table. *)
Definition roundInvariant (s : State) : Prop :=
  match phase s with
  | Betting =>
      dealer s = emptyDealer
      ∧ Forall (λ player, hand player = [] ∧ status player = StIdle
                          ∧ result player = ResNone) (players s)
  | Playing =>
      hidden (dealer s) = true
      ∧ length (dealerHand (dealer s)) = 2%nat
      ∧ Forall (λ player, handStatus player ∧ result player = ResNone) (players s)
  | RoundEnd =>
      hidden (dealer s) = false
      ∧ (2 <= length (dealerHand (dealer s)))%nat
      ∧ 17 <= calculateHand (dealerHand (dealer s))
      ∧ Forall (λ player, handStatus player
                          ∧ result player = resultAgainst (dealerHand (dealer s)) player)
               (players s)
  end.

(** The money on a table: the chips of its players and the pot; and the
    number of its players whose result is a win or a blackjack. *)
Definition tableMoney (s : State) : Q := (sumQ chips (players s) + pot s)%Q.

Definition winnersOf (s : State) : nat := length (List.filter isWinner (players s)).

(** A step from [s] to [s'] conserves the money of the table: the money
    changes by at most half a chip for every winner of [s'], and not at all
    unless the step ends the round. *)
Definition conservesMoney (s s' : State) : Prop :=
  (- (inject_Z (Z.of_nat (winnersOf s')) * (1 # 2))
   <= tableMoney s' - tableMoney s
   <= inject_Z (Z.of_nat (winnersOf s')) * (1 # 2))%Q
  ∧ (¬ (phase s ≠ RoundEnd ∧ phase s' = RoundEnd) →
     (tableMoney s' == tableMoney s)%Q).

(** The highlighted seat of the rendered table (App.jsx 431):
    [index === currentIndex && phase === "playing" && player.status === "active"]. *)
Definition isCurrent (s : State) (index : nat) (player : Player) : bool :=
  bool_decide (Z.of_nat index = currentIndex s)
  && bool_decide (phase s = Playing)
  && bool_decide (status player = StActive).

(** The invariant of the seats: one to four of them; none in the lobby; at
    the table as many players as seats, numbered from 1 in seat order. *)
Definition seatsInvariant (s : State) : Prop :=
  1 <= playerCount s <= 4
  ∧ 1 <= round s
  ∧ match screen s with
    | Lobby => players s = [] ∧ round s = 1
    | Table =>
        id <$> players s
        = (λ index : nat, Z.of_nat index + 1) <$> seq 0 (Z.to_nat (playerCount s))
    end.

(** A table of two where seat one went all in, hit on 20 and lost
    everything, and the next round has been opened. *)
Definition tableWithBrokePlayer : State :=
  stateAfter keepOrder
    [(keepOrder, OpenTable); (keepOrder, AllIn 0); (keepOrder, AddChip 1 10%Q);
     (keepOrder, Deal); (keepOrder, Hit); (keepOrder, Stand); (keepOrder, NextRound)].

(** The invariant of the accounts: [delta] is 0 until the round ends;
    while the round is played the chips are those of the round's start less
    the bet; after the round [delta] is the change of the chips since the
    round's start, which at a solo table is the bet times the multiplier
    less one, and at a table of several seats is the loss of the bet for a
    loser and nothing for a push. *)
Definition settledAccount (multi : bool) (player : Player) : Prop :=
  (delta player == chips player - roundStartChips player)%Q
  ∧ if multi
    then (result player = ResLose → delta player == - bet player)%Q
         ∧ (result player = ResPush → delta player == 0)%Q
    else (delta player == bet player * (payoutMultiplier (result player) - 1))%Q.

Definition accountInvariant (s : State) : Prop :=
  match phase s with
  | Betting => Forall (λ player, delta player == 0)%Q (players s)
  | Playing =>
      Forall (λ player, (chips player == roundStartChips player - bet player)%Q
                        ∧ (delta player == 0)%Q) (players s)
  | RoundEnd => Forall (settledAccount (isMulti s)) (players s)
  end.

(** A random source that deals, at a table of two, K and 9 to seat one, an
    Ace and a 10 to seat two, and J and 8 to the dealer. *)
Definition naturalAtSeatTwo : nat → nat :=
  λ i, if (i =? 50)%nat then 39%nat else if (i =? 48)%nat then 47%nat else i.

(** The table of two after bets of 100 each, the deal from that deck and
    the stand of seat one: seat one wins with 19 against 18, seat two holds
    a blackjack. *)
Definition winnerBesideNatural : State :=
  stateAfter naturalAtSeatTwo
    [(keepOrder, OpenTable); (keepOrder, AddChip 0 100%Q); (keepOrder, AddChip 1 100%Q);
     (naturalAtSeatTwo, Deal); (keepOrder, Stand)].

(** A deck deep enough for the click of a control: a deal needs a deck it
    replaces (fewer than 15 cards) or one of 25 cards; a hit needs 16
    cards, a stand 15. *)
Definition deepDeck (s : State) (e : Event) : Prop :=
  match e with
  | Deal => (length (deck s) < 15 ∨ 25 <= length (deck s))%nat
  | Hit => (16 <= length (deck s))%nat
  | Stand => (15 <= length (deck s))%nat
  | _ => True
  end.

(** The invariant of the totals: no player's hand totals more than 30, and
    the dealer's no more than 26. *)
Definition totalsInvariant (s : State) : Prop :=
  Forall (λ player, calculateHand (hand player) <= 30) (players s)
  ∧ calculateHand (dealerHand (dealer s)) <= 26.

(** Whole amounts: a JavaScript number holding an integer. *)
Definition whole (x : Q) : Prop := ∃ n : Z, (x == inject_Z n)%Q.

(** The invariant of the whole chips: in the lobby no player is seated and
    the pot is empty; at a table of several seats the pot and every
    player's chips and bet are whole amounts. *)
Definition wholeInvariant (s : State) : Prop :=
  (screen s = Lobby → players s = [] ∧ pot s = 0%Q)
  ∧ (isMulti s = true →
     whole (pot s)
     ∧ Forall (λ player, whole (chips player) ∧ whole (bet player)) (players s)).

(** A solo table after a bet of 25 and a deal that gives the player a
    blackjack. *)
Definition soloNaturalOnOddBet : State :=
  stateAfter aceOnTop
    [(keepOrder, SelectCount 1); (keepOrder, OpenTable); (keepOrder, AddChip 0 25%Q);
     (aceOnTop, Deal)].

(** ** Tables left by a handler that throws

    The clicks that throw, with the state each leaves: a deal throws while
    dealing (nothing is updated) or in the dealer's turn that follows a deal
    of naturals (the dealt table stays); a hit throws on an empty deck
    (nothing is updated) or in the dealer's turn that follows its bust or
    its 21 (the hit stays); a stand throws in the dealer's turn (the stand
    stays). *)
Inductive leftByThrow (rand : nat → nat) (s : State) : Event → State → Prop :=
  | deal_throws_dealing :
      screen s = Table → phase s = Betting →
      dealInitial rand (deck s) (reservePlayers (players s)) = Throw TypeError →
      leftByThrow rand s Deal s
  | deal_throws_in_dealer_turn nextDeck dealtPlayers nextDealer :
      screen s = Table → phase s = Betting →
      existsb invalidBet (players s) = false →
      dealInitial rand (deck s) (reservePlayers (players s))
      = Return (nextDeck, dealtPlayers, nextDealer) →
      noneActive dealtPlayers →
      dealerDraws (dealerHand nextDealer) nextDeck = Throw TypeError →
      leftByThrow rand s Deal (dealtState s dealtPlayers nextDealer nextDeck)
  | hit_throws_drawing player :
      screen s = Table → phase s = Playing →
      at_index (players s) (currentIndex s) = Some player →
      status player = StActive →
      deck s = [] →
      leftByThrow rand s Hit s
  | hit_throws_in_dealer_turn player card next :
      screen s = Table → phase s = Playing →
      at_index (players s) (currentIndex s) = Some player →
      status player = StActive →
      deck s = next ++ [card] →
      21 <= calculateHand (hand player ++ [card]) →
      (∀ (k : nat) (q : Player),
         currentIndex s < Z.of_nat k → players s !! k = Some q → status q ≠ StActive) →
      dealerDraws (dealerHand (dealer s)) next = Throw TypeError →
      leftByThrow rand s Hit
        (setPlayers (<[Z.to_nat (currentIndex s) := playerAfterHit player card]> (players s))
                    (setDeck next s))
  | stand_throws_in_dealer_turn :
      screen s = Table → phase s = Playing →
      (∀ (k : nat) (q : Player),
         currentIndex s < Z.of_nat k → players s !! k = Some q → status q ≠ StActive) →
      dealerDraws (dealerHand (dealer s)) (deck s) = Throw TypeError →
      leftByThrow rand s Stand
        (setPlayers (mapAt (currentIndex s) (withStatus StStand) (players s)) s).

(** A stalled table: the phase is [Playing] and no player is active.  The
    dealer's turn that should have ended the round has thrown. *)
Definition stalled (s : State) : Prop :=
  phase s = Playing ∧ noneActive (players s).

(** The invariant of the table: the acting index is never negative, and
    either the turn pointer and the round are sound, or the table is
    stalled: the dealer cannot draw to 17 from the deck, still holds two
    cards, the first hidden, no result is set, and every player holds two
    cards at least under a status that agrees with the hand or [stand]. *)
Definition stalledSeat (player : Player) : Prop :=
  result player = ResNone
  ∧ (handStatus player
     ∨ ((2 <= length (hand player))%nat ∧ status player = StStand)).

Definition tableInvariant (s : State) : Prop :=
  0 <= currentIndex s
  ∧ ((turnInvariant s ∧ roundInvariant s)
     ∨ (stalled s
        ∧ screen s = Table
        ∧ dealerDraws (dealerHand (dealer s)) (deck s) = Throw TypeError
        ∧ hidden (dealer s) = true
        ∧ length (dealerHand (dealer s)) = 2%nat
        ∧ Forall stalledSeat (players s))).

(** ** Amounts that JavaScript numbers hold exactly

    A JavaScript number is an IEEE 754 double: a rational [m * 2^e] with
    [|m| < 2^53] and [-1074 <= e <= 971].  An arithmetic operation returns
    the double nearest to its exact result, hence the exact result itself
    when that is representable. *)
Definition representable (x : Q) : Prop :=
  ∃ m e : Z, Z.abs m < 2 ^ 53 ∧ -1074 <= e <= 971 ∧ (x == inject_Z m * 2 ^ e)%Q.

(** The amounts the independent settlement computes for a player whose
    result is [r]: the payout [bet * multiplier], the balance
    [chips + payout] and the change [chips + payout - roundStartChips]. *)
Definition soloAmountsExact (player : Player) (r : Result) : Prop :=
  representable (bet player * payoutMultiplier r)
  ∧ representable (chips player + bet player * payoutMultiplier r)
  ∧ representable (chips player + bet player * payoutMultiplier r
                   - roundStartChips player).

(** The amounts of a round at a solo table, read from the player after the
    round: the balance after the bet, [roundStartChips - bet], and the
    amounts the settlement computes from it. *)
Definition soloRoundExact (player : Player) : Prop :=
  representable (roundStartChips player - bet player)
  ∧ soloAmountsExact (withChips (roundStartChips player - bet player)%Q player)
                     (result player).

(** Three rounds at a table of four seats, dealt from the ordered deck with
    bets of 10: six hits end the first round, five hits and a stand the
    second; after seven hits of the third round the last seat holds 20 and
    is still to act, the dealer holds 12 and the deck two cards. *)
Definition bustingClicks : list ((nat → nat) * Event) :=
  [(keepOrder, SelectCount 4); (keepOrder, OpenTable)]
  ++ placeBetsAndDeal
  ++ [(keepOrder, Hit); (keepOrder, Hit); (keepOrder, Hit); (keepOrder, Hit);
      (keepOrder, Hit); (keepOrder, Hit); (keepOrder, NextRound)]
  ++ placeBetsAndDeal
  ++ [(keepOrder, Hit); (keepOrder, Hit); (keepOrder, Hit); (keepOrder, Hit);
      (keepOrder, Hit); (keepOrder, Stand); (keepOrder, NextRound)]
  ++ placeBetsAndDeal
  ++ [(keepOrder, Hit); (keepOrder, Hit); (keepOrder, Hit); (keepOrder, Hit);
      (keepOrder, Hit); (keepOrder, Hit); (keepOrder, Hit)].

Definition lastSeatToHit : State := stateAfter keepOrder bustingClicks.

(** The table after the hit of the last seat: the hit busts the player, the
    dealer's turn throws, and the updates of the hit stay. *)
Definition lastSeatBust : State := queuedBeforeThrow keepOrder Hit lastSeatToHit.

(** * Properties *)

Lemma Return_inj {A} (a b : A) : Return a = Return b → a = b.
Proof. by intros [= ->]. Qed.

(** ** Hand evaluation *)

Lemma foldl_sum_values (hand : list Card) (acc : Z) :
  foldl (λ sum card, sum + value card) acc hand = acc + sumValues hand.
Proof.
  revert acc; induction hand as [|card hand IH]; intros acc; simpl.
  - lia.
  - rewrite IH. unfold sumValues at 2. simpl. fold (sumValues hand). lia.
Qed.

Lemma reductionsNeeded_low (total : Z) : total <= 21 → reductionsNeeded total = 0.
Proof.
  intros Hle. unfold reductionsNeeded.
  assert ((total - 12) / 10 < 1) by (apply Z.div_lt_upper_bound; lia).
  lia.
Qed.

Lemma reductionsNeeded_high (total : Z) :
  21 < total → reductionsNeeded total = reductionsNeeded (total - 10) + 1.
Proof.
  intros Hgt. unfold reductionsNeeded.
  replace (total - 12) with ((total - 10 - 12) + 1 * 10) by lia.
  rewrite Z.div_add by lia.
  assert (0 <= (total - 10 - 12) / 10) by (apply Z.div_pos; lia).
  lia.
Qed.

Lemma reduceAces_softTotal (aces : nat) (total : Z) :
  reduceAces aces total = softTotal total (Z.of_nat aces).
Proof.
  revert total; induction aces as [|aces IH]; intros total; unfold softTotal.
  - simpl. unfold reductionsNeeded. lia.
  - cbn [reduceAces]. destruct (Z.ltb_spec 21 total) as [Hgt|Hle].
    + rewrite IH. unfold softTotal.
      rewrite (reductionsNeeded_high total Hgt). lia.
    + rewrite (reductionsNeeded_low total Hle). lia.
Qed.

Lemma calculateHand_softTotal (hand : list Card) :
  calculateHand hand = softTotal (sumValues hand) (countAces hand).
Proof.
  unfold calculateHand, countAces.
  rewrite reduceAces_softTotal, foldl_sum_values. f_equal.
Qed.

Lemma createDeck_nominal (card : Card) :
  card ∈ createDeck → value card = nominalValue (rank card).
Proof.
  intros Hin. apply list_elem_of_In in Hin.
  vm_compute in Hin.
  repeat (destruct Hin as [<- | Hin]; [reflexivity|]). destruct Hin.
Qed.

(** C7. For every hand, [calculateHand] is the sum of the card values less
    10 per reduced Ace, the number of reductions being the least that
    brings the total to 21 or less, or the number of Aces when that is not
    enough; the cards of the deck carry the nominal values (Ace 11, faces
    10, numerics their face value); and the four totals the specification
    lists hold: [A, A, 9] is 21, [A, 9] is 20, [K, Q, 2] is 22 with no
    reduction, [A, A, A, 8] is 21 after two reductions. *)
Theorem calculateHand_soft_aces :
  (∀ hand : list Card,
     ∃ k : Z,
       0 <= k <= countAces hand
       ∧ calculateHand hand = sumValues hand - 10 * k
       ∧ (calculateHand hand <= 21 ∨ k = countAces hand)
       ∧ (k = 0 ∨ 21 < calculateHand hand + 10)
       ∧ calculateHand hand = softTotal (sumValues hand) (countAces hand))
  ∧ (∀ card : Card, card ∈ createDeck → value card = nominalValue (rank card))
  ∧ (∀ s1 s2 s3 : Suit,
       calculateHand [cardOf s1 RA; cardOf s2 RA; cardOf s3 R9] = 21
       ∧ calculateHand [cardOf s1 RA; cardOf s2 R9] = 20
       ∧ calculateHand [cardOf s1 RK; cardOf s2 RQ; cardOf s3 R2] = 22
       ∧ sumValues [cardOf s1 RK; cardOf s2 RQ; cardOf s3 R2] = 22)
  ∧ (∀ s1 s2 s3 s4 : Suit,
       calculateHand [cardOf s1 RA; cardOf s2 RA; cardOf s3 RA; cardOf s4 R8] = 21
       ∧ sumValues [cardOf s1 RA; cardOf s2 RA; cardOf s3 RA; cardOf s4 R8] = 21 + 2 * 10).
Proof.
  split; [|split; [exact createDeck_nominal|split]].
  - intros hand.
    exists (Z.min (countAces hand) (reductionsNeeded (sumValues hand))).
    rewrite calculateHand_softTotal. unfold softTotal.
    assert (Hc : 0 <= countAces hand) by (unfold countAces; lia).
    destruct (Z.le_gt_cases (sumValues hand) 21) as [Hle|Hgt].
    + rewrite (reductionsNeeded_low _ Hle). lia.
    + unfold reductionsNeeded.
      pose proof (Z.div_mod (sumValues hand - 12) 10 ltac:(lia)) as Hdm.
      pose proof (Z.mod_pos_bound (sumValues hand - 12) 10 ltac:(lia)) as Hmb.
      lia.
  - intros s1 s2 s3. repeat split; reflexivity.
  - intros s1 s2 s3 s4. split; reflexivity.
Qed.

(** ** The deck *)

Lemma drawCard_snoc (deck : list Card) (card : Card) :
  drawCard (deck ++ [card]) = (Some card, deck).
Proof.
  unfold drawCard. by rewrite last_snoc, removelast_last.
Qed.

Lemma drawCard_Some (deck next : list Card) (card : Card) :
  drawCard deck = (Some card, next) → deck = next ++ [card].
Proof.
  destruct deck as [|c deck] using rev_ind; [discriminate|].
  rewrite drawCard_snoc. by intros [= -> ->].
Qed.

Lemma drawCard_None (deck next : list Card) :
  drawCard deck = (None, next) → deck = [] ∧ next = [].
Proof.
  destruct deck as [|c deck] using rev_ind.
  - by intros [= <-].
  - rewrite drawCard_snoc. discriminate.
Qed.

(** The claim of C9 fails on the empty deck: [drawCard] does not fail
    there, it returns the [undefined] card with an empty deck. *)
Lemma drawCard_empty_returns_undefined : drawCard [] = (None, []).
Proof. reflexivity. Qed.

(** C9, amended.  [drawCard] removes and returns the last card of the deck
    together with the remaining deck; it never fails: on the empty deck, and
    only there, it returns the [undefined] card (with an empty deck).  The
    failure comes from the caller: a hit of the acting player on an empty
    deck throws a [TypeError] when the hand is totalled. *)
Theorem drawCard_pops_last :
  (∀ (deck : list Card) (card : Card), drawCard (deck ++ [card]) = (Some card, deck))
  ∧ drawCard [] = (None, [])
  ∧ (∀ deck : list Card, (drawCard deck).1 = None ↔ deck = [])
  ∧ (∀ (s : State) (player : Player),
       at_index (players s) (currentIndex s) = Some player →
       status player = StActive →
       deck s = [] →
       handleHit s = Throw TypeError).
Proof.
  split; [exact drawCard_snoc|split; [reflexivity|split]].
  - intros deck. split.
    + destruct (drawCard deck) as [card next] eqn:Hd. simpl. intros ->.
      by apply drawCard_None in Hd as [-> _].
    + by intros ->.
  - intros s player Hat Hst Hdeck. unfold handleHit.
    rewrite Hat, Hst, Hdeck. reflexivity.
Qed.

(** ** Result classification *)

Lemma resolveResult_classify (player : Player) (dealerTotal : Z)
    (dealerBlackjack dealerBust : bool) :
  resolveResult player dealerTotal dealerBlackjack dealerBust
  = classify (bool_decide (status player = StBust)) (isBlackjack (hand player))
             dealerBlackjack dealerBust (calculateHand (hand player)) dealerTotal.
Proof.
  unfold resolveResult, classify.
  destruct (decide (status player = StBust)) as [Hb|Hb].
  - by rewrite bool_decide_eq_true_2.
  - rewrite bool_decide_eq_false_2 by done.
    destruct (isBlackjack (hand player)), dealerBlackjack, dealerBust; simpl; try done.
    destruct (Z.compare_spec (calculateHand (hand player)) dealerTotal) as [He|Hl|Hg].
    + rewrite He, Z.ltb_irrefl. done.
    + destruct (Z.ltb_spec dealerTotal (calculateHand (hand player))); [lia|].
      destruct (Z.ltb_spec (calculateHand (hand player)) dealerTotal); [done|lia].
    + destruct (Z.ltb_spec dealerTotal (calculateHand (hand player))); [done|lia].
Qed.

(** ** The dealer turn *)

Lemma handleDealerTurn_settled (s : State) (currentPlayers : list Player)
    (currentDealer : Dealer) (currentDeck : list Card) (nextPot : Q)
    (finalHand nextDeck : list Card) :
  dealerDraws (dealerHand currentDealer) currentDeck = Return (finalHand, nextDeck) →
  handleDealerTurn s currentPlayers currentDealer currentDeck nextPot
  = Return (settledState s currentPlayers finalHand nextDeck nextPot).
Proof.
  intros Hdraw. unfold handleDealerTurn, settledState. rewrite Hdraw.
  unfold mbind, completion_bind. fold (resolvePlayers finalHand currentPlayers).
  destruct (isMulti s); reflexivity.
Qed.

Lemma handleDealerTurn_throws (s : State) (currentPlayers : list Player)
    (currentDealer : Dealer) (currentDeck : list Card) (nextPot : Q) (e : Error) :
  dealerDraws (dealerHand currentDealer) currentDeck = Throw e →
  handleDealerTurn s currentPlayers currentDealer currentDeck nextPot = Throw e.
Proof.
  intros Hdraw. unfold handleDealerTurn. by rewrite Hdraw.
Qed.

(** The dealer's loop as the source writes it: stop at 17 or more, else pop
    a card and go on; an empty deck makes the totalling throw. *)
Lemma dealerDraws_unfold (dealerHand currentDeck : list Card) :
  dealerDraws dealerHand currentDeck
  = if calculateHand dealerHand <? 17 then
      match drawCard currentDeck with
      | (Some card, next) => dealerDraws (dealerHand ++ [card]) next
      | (None, _) => Throw TypeError
      end
    else Return (dealerHand, currentDeck).
Proof.
  unfold dealerDraws.
  destruct currentDeck as [|card next _] using rev_ind.
  - simpl. by destruct (_ <? 17).
  - rewrite length_app, Nat.add_comm. cbn [length Nat.add dealerLoop].
    by rewrite drawCard_snoc.
Qed.

Lemma dealerDraws_stands (dealerHand currentDeck : list Card) :
  17 <= calculateHand dealerHand →
  dealerDraws dealerHand currentDeck = Return (dealerHand, currentDeck).
Proof.
  intros Hge. rewrite dealerDraws_unfold.
  by destruct (Z.ltb_spec (calculateHand dealerHand) 17); [lia|].
Qed.

Lemma resolvePlayers_lookup (finalHand : list Card) (currentPlayers : list Player)
    (i : nat) :
  resolvePlayers finalHand currentPlayers !! i
  = (λ player,
       withResult (resolveResult player (calculateHand finalHand) (isBlackjack finalHand)
                                 (21 <? calculateHand finalHand)) player)
    <$> currentPlayers !! i.
Proof. unfold resolvePlayers. by rewrite list_lookup_fmap. Qed.

Lemma handleDealerTurn_inv (s s' : State) (currentPlayers : list Player)
    (currentDealer : Dealer) (currentDeck : list Card) (nextPot : Q) :
  handleDealerTurn s currentPlayers currentDealer currentDeck nextPot = Return s' →
  ∃ finalHand nextDeck,
    dealerDraws (dealerHand currentDealer) currentDeck = Return (finalHand, nextDeck)
    ∧ s' = settledState s currentPlayers finalHand nextDeck nextPot.
Proof.
  destruct (dealerDraws (dealerHand currentDealer) currentDeck) as [[finalHand nextDeck]|e]
    eqn:Hdraw.
  - rewrite (handleDealerTurn_settled _ _ _ _ _ _ _ Hdraw). intros [= <-]. eauto.
  - by rewrite (handleDealerTurn_throws _ _ _ _ _ _ Hdraw).
Qed.

Lemma settledState_result (s : State) (currentPlayers : list Player)
    (finalHand nextDeck : list Card) (nextPot : Q) (i : nat) :
  result <$> players (settledState s currentPlayers finalHand nextDeck nextPot) !! i
  = result <$> resolvePlayers finalHand currentPlayers !! i.
Proof.
  unfold settledState. cbn [players].
  destruct (isMulti s); unfold pooledFinalPlayers, soloFinalPlayers;
    rewrite list_lookup_fmap; by destruct (resolvePlayers _ _ !! i).
Qed.

(** C1. For every player and every dealer outcome, [resolveResult] follows
    the precedence order of the settlement: a bust player loses whatever the
    dealer holds; else two naturals push; else a dealer natural wins against
    the player; else a player natural is a blackjack; else a dealer bust is a
    win; else the totals decide (greater wins, smaller loses, equal pushes).
    Every player of a settled round carries the result so classified, the
    dealer's facts being those of the dealer's final hand. *)
Theorem resolveResult_follows_precedence :
  (∀ (player : Player) (dealerTotal : Z) (dealerBlackjack dealerBust : bool),
     resolveResult player dealerTotal dealerBlackjack dealerBust
     = classify (bool_decide (status player = StBust)) (isBlackjack (hand player))
                dealerBlackjack dealerBust (calculateHand (hand player)) dealerTotal)
  ∧ (∀ (s s' : State) (currentPlayers : list Player) (currentDealer : Dealer)
       (currentDeck : list Card) (nextPot : Q) (i : nat),
       handleDealerTurn s currentPlayers currentDealer currentDeck nextPot = Return s' →
       result <$> players s' !! i
       = (λ player,
            let finalHand := dealerHand (dealer s') in
            classify (bool_decide (status player = StBust)) (isBlackjack (hand player))
                     (isBlackjack finalHand) (21 <? calculateHand finalHand)
                     (calculateHand (hand player)) (calculateHand finalHand))
         <$> currentPlayers !! i).
Proof.
  split; [exact resolveResult_classify|].
  intros s s' currentPlayers currentDealer currentDeck nextPot i Hturn.
  apply handleDealerTurn_inv in Hturn as (finalHand & nextDeck & _ & ->).
  rewrite settledState_result, resolvePlayers_lookup.
  destruct (currentPlayers !! i) as [player|]; [|done]. simpl.
  by rewrite resolveResult_classify.
Qed.

(** ** Independent payouts *)

Lemma soloPayout_multiplier (player : Player) :
  (soloPayout player == bet player * payoutMultiplier (result player))%Q.
Proof.
  unfold soloPayout. destruct (result player); simpl; ring.
Qed.

Lemma soloFinalPlayers_lookup (resolvedPlayers : list Player) (i : nat) (player : Player) :
  resolvedPlayers !! i = Some player →
  ∃ player',
    soloFinalPlayers resolvedPlayers !! i = Some player'
    ∧ id player' = id player ∧ bet player' = bet player
    ∧ hand player' = hand player ∧ status player' = status player
    ∧ result player' = result player
    ∧ (chips player' == chips player + bet player * payoutMultiplier (result player))%Q
    ∧ (delta player' == chips player' - roundStartChips player)%Q.
Proof.
  intros Hi. unfold soloFinalPlayers. rewrite list_lookup_fmap, Hi. simpl.
  eexists; split; [reflexivity|]. simpl.
  repeat split; try reflexivity.
  by rewrite soloPayout_multiplier.
Qed.

(** Amounts that are whole and below 2^53 are held exactly. *)
Lemma representable_floor (x : Q) :
  (x == inject_Z (Qfloor x))%Q → Z.abs (Qfloor x) < 2 ^ 53 → representable x.
Proof.
  intros Hx Hlt. exists (Qfloor x), 0. split; [done|]. split; [lia|].
  rewrite Hx at 1. change (2 ^ 0)%Q with 1%Q. ring.
Qed.

(** C6. Outside the pooled mode the settlement credits every player's
    balance (the balance left after the bet was taken) with the bet times 1
    for a push, 2 for a win, 2.5 for a blackjack and 0 for a loss, wherever
    the payout, the balance after it and the change of the round are numbers
    that JavaScript holds exactly (the product and the sum are then not
    rounded).  A bet of 100 that ends in a blackjack is credited 250; played
    through the controls from 1000 chips, that round ends on 1150 chips, a
    change of +150, which is also the [delta] displayed. *)
Theorem solo_settlement_pays_multiplier :
  (∀ (s : State) (currentPlayers : list Player) (currentDealer : Dealer)
     (currentDeck : list Card) (nextPot : Q) (finalHand nextDeck : list Card),
     isMulti s = false →
     dealerDraws (dealerHand currentDealer) currentDeck = Return (finalHand, nextDeck) →
     ∃ s',
       handleDealerTurn s currentPlayers currentDealer currentDeck nextPot = Return s'
       ∧ phase s' = RoundEnd ∧ pot s' = pot s
       ∧ ∀ (i : nat) (player : Player),
           currentPlayers !! i = Some player →
           ∃ player',
             players s' !! i = Some player'
             ∧ result player'
               = resolveResult player (calculateHand finalHand) (isBlackjack finalHand)
                               (21 <? calculateHand finalHand)
             ∧ (soloAmountsExact player (result player') →
                (chips player'
                 == chips player + bet player * payoutMultiplier (result player'))%Q
                ∧ (delta player' == chips player' - roundStartChips player)%Q))
  ∧ (∀ player : Player,
       (bet player == 100)%Q → result player = ResBlackjack →
       (soloPayout player == 250)%Q)
  ∧ (∃ (s0 s1 : State) (before after : Player),
       clicks [(keepOrder, SelectCount 1); (keepOrder, OpenTable);
               (keepOrder, AddChip 0 100%Q)] (initialState aceOnTop) = Return s0
       ∧ players s0 = [before]
       ∧ (chips before == 1000)%Q ∧ (bet before == 100)%Q
       ∧ click aceOnTop Deal s0 = Return s1
       ∧ phase s1 = RoundEnd
       ∧ players s1 = [after]
       ∧ result after = ResBlackjack
       ∧ (chips after == chips before - 100 + 250)%Q
       ∧ (chips after - chips before == 150)%Q
       ∧ (delta after == 150)%Q).
Proof.
  split; [|split].
  - intros s currentPlayers currentDealer currentDeck nextPot finalHand nextDeck
      Hsolo Hdraw.
    eexists. split; [by apply handleDealerTurn_settled|].
    unfold settledState. cbn [phase pot players]. rewrite Hsolo.
    do 2 (split; [reflexivity|]).
    intros i player Hi.
    destruct (soloFinalPlayers_lookup (resolvePlayers finalHand currentPlayers) i
                (withResult (resolveResult player (calculateHand finalHand)
                               (isBlackjack finalHand) (21 <? calculateHand finalHand))
                            player))
      as (player' & Hp' & _ & _ & _ & _ & Hres & Hchips & Hdelta).
    { by rewrite resolvePlayers_lookup, Hi. }
    exists player'. split; [done|]. split; [done|]. intros _.
    rewrite Hres. split; [exact Hchips|exact Hdelta].
  - intros player Hbet Hres. rewrite soloPayout_multiplier, Hres, Hbet. reflexivity.
  - eexists _, _, _, _.
    split; [vm_compute; reflexivity|].
    split; [reflexivity|].
    split; [reflexivity|]. split; [reflexivity|].
    split; [vm_compute; reflexivity|].
    split; [reflexivity|]. split; [reflexivity|]. split; [reflexivity|].
    repeat split; vm_compute; reflexivity.
Qed.

(** ** Pooled payouts *)

Lemma Qgt_bool_iff (a b : Q) : Qgt_bool a b = true ↔ (b < a)%Q.
Proof.
  unfold Qgt_bool. rewrite negb_true_iff, <- not_true_iff_false, Qle_bool_iff.
  split; [apply Qnot_le_lt|apply Qlt_not_le].
Qed.

Lemma Qgt_bool_false_iff (a b : Q) : Qgt_bool a b = false ↔ (a <= b)%Q.
Proof.
  unfold Qgt_bool. by rewrite negb_false_iff, Qle_bool_iff.
Qed.

#[global] Instance Qgt_bool_proper : Proper (Qeq ==> Qeq ==> eq) Qgt_bool.
Proof.
  intros a a' Ha b b' Hb.
  destruct (Qgt_bool a b) eqn:H1, (Qgt_bool a' b') eqn:H2; try done.
  - apply Qgt_bool_iff in H1. apply Qgt_bool_false_iff in H2.
    rewrite Ha, Hb in H1. by apply Qlt_not_le in H1.
  - apply Qgt_bool_iff in H2. apply Qgt_bool_false_iff in H1.
    rewrite Ha, Hb in H1. by apply Qlt_not_le in H2.
Qed.

#[global] Instance Math_round_proper : Proper (Qeq ==> eq) Math_round.
Proof. intros x y Hxy. unfold Math_round. by rewrite Hxy. Qed.

(** [Math.round] yields the integer within one half of its argument. *)
Lemma Math_round_nearest (x : Q) :
  ∃ n : Z, Math_round x = inject_Z n ∧ (inject_Z n - (1 # 2) <= x)%Q
           ∧ (x < inject_Z n + (1 # 2))%Q.
Proof.
  exists (Qfloor (x + (1 # 2))). split; [reflexivity|].
  pose proof (Qfloor_le (x + (1 # 2))) as Hle.
  pose proof (Qlt_floor (x + (1 # 2))) as Hlt.
  rewrite inject_Z_plus in Hlt. change (inject_Z 1) with 1%Q in Hlt.
  split; lra.
Qed.

Lemma foldl_minus_bets (l : list Player) (acc : Q) :
  (foldl (λ potPool player, potPool - bet player) acc l == acc - sumQ bet l)%Q.
Proof.
  revert acc; induction l as [|p l IH]; intros acc; simpl.
  - ring.
  - rewrite IH. ring.
Qed.

Lemma foldl_plus_weights (l : list Player) (acc : Q) :
  (foldl (λ sum player, sum + weightOf player) acc l == acc + sumQ weightOf l)%Q.
Proof.
  revert acc; induction l as [|p l IH]; intros acc; simpl.
  - ring.
  - rewrite IH. ring.
Qed.

Lemma pooledPotPool_sum (nextPot : Q) (resolvedPlayers : list Player) :
  (pooledPotPool nextPot resolvedPlayers
   == nextPot - sumQ bet (List.filter isPush resolvedPlayers))%Q.
Proof. apply foldl_minus_bets. Qed.

Lemma pooledTotalWeight_sum (resolvedPlayers : list Player) :
  (pooledTotalWeight resolvedPlayers
   == sumQ weightOf (List.filter isWinner resolvedPlayers))%Q.
Proof. unfold pooledTotalWeight. rewrite foldl_plus_weights. ring. Qed.


Section PayoutMap.
Variable payoutOf : Player → Q.

Let record (payoutMap : gmap Z Q) (player : Player) : gmap Z Q :=
  <[ id player := payoutOf player ]> payoutMap.

Lemma payout_fold_other (winners : list Player) (m0 : gmap Z Q) (k : Z) :
  k ∉ id <$> winners → foldl record m0 winners !! k = m0 !! k.
Proof.
  revert m0; induction winners as [|q winners IH]; intros m0 Hk; [done|].
  simpl. rewrite IH.
  - unfold record. apply lookup_insert_ne. intros Heq. apply Hk. rewrite <- Heq. left.
  - intros Hin. apply Hk. by right.
Qed.

Lemma payout_fold_member (winners : list Player) (m0 : gmap Z Q) (player : Player) :
  NoDup (id <$> winners) → player ∈ winners →
  foldl record m0 winners !! id player = Some (payoutOf player).
Proof.
  revert m0; induction winners as [|q winners IH]; intros m0 Hnd Hin.
  - by apply elem_of_nil in Hin.
  - rewrite fmap_cons in Hnd. apply NoDup_cons in Hnd as [Hq Hnd]. simpl.
    apply elem_of_cons in Hin as [->|Hin].
    + rewrite payout_fold_other by done. unfold record. apply lookup_insert_eq.
    + by apply IH.
Qed.
End PayoutMap.

Lemma filter_ids_NoDup (f : Player → bool) (l : list Player) :
  NoDup (id <$> l) → NoDup (id <$> List.filter f l).
Proof.
  induction l as [|p l IH]; [done|].
  rewrite fmap_cons. intros [Hp Hnd]%NoDup_cons. simpl.
  destruct (f p); [|by apply IH].
  rewrite fmap_cons. apply NoDup_cons. split; [|by apply IH].
  intros (q & Hid & Hq)%list_elem_of_fmap. apply Hp. rewrite Hid.
  apply list_elem_of_fmap_2.
  apply list_elem_of_In, filter_In in Hq as [Hq _]. by apply list_elem_of_In.
Qed.

Lemma ids_determine_player (l : list Player) (p q : Player) :
  NoDup (id <$> l) → p ∈ l → q ∈ l → id p = id q → p = q.
Proof.
  intros Hnd [i Hi]%list_elem_of_lookup [j Hj]%list_elem_of_lookup Hid.
  assert (i = j) as ->.
  { apply (NoDup_lookup (id <$> l) i j (id p) Hnd).
    - by rewrite list_lookup_fmap, Hi.
    - by rewrite list_lookup_fmap, Hj, Hid. }
  congruence.
Qed.

Lemma pooledPayoutMap_lookup (potPool totalWeight : Q) (resolvedPlayers : list Player)
    (player : Player) :
  NoDup (id <$> resolvedPlayers) → player ∈ resolvedPlayers →
  pooledPayoutMap potPool totalWeight resolvedPlayers !! id player
  = if isWinner player
    then Some (Math_round (if Qgt_bool totalWeight 0
                           then potPool * weightOf player / totalWeight else 0)%Q)
    else None.
Proof.
  intros Hnd Hin. unfold pooledPayoutMap.
  destruct (isWinner player) eqn:Hw.
  - apply (payout_fold_member
             (λ player, Math_round (if Qgt_bool totalWeight 0
                                    then potPool * weightOf player / totalWeight else 0)%Q)).
    + by apply filter_ids_NoDup.
    + apply list_elem_of_In, filter_In. split; [by apply list_elem_of_In|done].
  - rewrite (payout_fold_other
               (λ player, Math_round (if Qgt_bool totalWeight 0
                                      then potPool * weightOf player / totalWeight else 0)%Q)).
    + apply lookup_empty.
    + intros (q & Hid & Hq)%list_elem_of_fmap.
      apply list_elem_of_In, filter_In in Hq as [Hq Hqw].
      apply list_elem_of_In in Hq.
      assert (player = q) by eauto using ids_determine_player. congruence.
Qed.

Lemma resolvePlayers_ids (finalHand : list Card) (currentPlayers : list Player) :
  id <$> resolvePlayers finalHand currentPlayers = id <$> currentPlayers.
Proof.
  unfold resolvePlayers. rewrite <- list_fmap_compose. by apply list_fmap_ext.
Qed.

Lemma pooledFinalPlayers_lookup (nextPot : Q) (resolvedPlayers : list Player)
    (i : nat) (player : Player) :
  NoDup (id <$> resolvedPlayers) →
  resolvedPlayers !! i = Some player →
  let remainingPot := (nextPot - sumQ bet (List.filter isPush resolvedPlayers))%Q in
  let totalWeight := sumQ weightOf (List.filter isWinner resolvedPlayers) in
  ∃ player',
    pooledFinalPlayers
      (pooledPayoutMap (pooledPotPool nextPot resolvedPlayers)
                       (pooledTotalWeight resolvedPlayers) resolvedPlayers)
      resolvedPlayers !! i = Some player'
    ∧ bet player' = bet player ∧ result player' = result player
    ∧ (chips player'
       == chips player
          + (if decide (result player = ResPush) then bet player else 0)
          + (if isWinner player
             then Math_round (if Qgt_bool totalWeight 0
                              then remainingPot * (weightOf player / totalWeight)
                              else 0)
             else 0))%Q
    ∧ (delta player' == chips player' - roundStartChips player)%Q.
Proof.
  intros Hnd Hi remainingPot totalWeight.
  unfold pooledFinalPlayers. rewrite list_lookup_fmap, Hi. simpl.
  eexists; split; [reflexivity|]. simpl.
  split; [done|]. split; [done|]. split; [|reflexivity].
  rewrite (pooledPayoutMap_lookup _ _ _ _ Hnd (list_elem_of_lookup_2 _ _ _ Hi)).
  destruct (isWinner player); simpl; [|reflexivity].
  rewrite (Qgt_bool_proper _ totalWeight (pooledTotalWeight_sum resolvedPlayers)
             0%Q 0%Q (Qeq_refl 0)).
  apply Qplus_comp; [reflexivity|].
  destruct (Qgt_bool totalWeight 0); [|reflexivity].
  match goal with
  | |- (Math_round ?a == Math_round ?b)%Q =>
      assert (Hab : (a == b)%Q);
      [|rewrite (Math_round_proper _ _ Hab); reflexivity]
  end.
  rewrite pooledPotPool_sum, pooledTotalWeight_sum.
  unfold Qdiv, remainingPot, totalWeight. ring.
Qed.


(** ** Dealing *)

Lemma dealPlayers_pass (dealtPlayers : list Player) (cards rest : list Card) :
  length cards = length dealtPlayers →
  dealPlayers (rest ++ rev cards) dealtPlayers
  = Return (zip_with (λ player card, withHand (hand player ++ [card]) player)
                     dealtPlayers cards, rest).
Proof.
  revert cards; induction dealtPlayers as [|player players' IH]; intros cards Hlen.
  - destruct cards; [|done]. simpl. by rewrite app_nil_r.
  - destruct cards as [|card cards]; [done|]. injection Hlen as Hlen.
    cbn [dealPlayers rev]. rewrite app_assoc, drawCard_snoc, IH by done.
    reflexivity.
Qed.

Lemma dealPass_pass (dealtPlayers : list Player) (nextDealer : Dealer)
    (cards rest : list Card) (dealerCard : Card) :
  length cards = length dealtPlayers →
  dealPass (rest ++ rev (cards ++ [dealerCard]), dealtPlayers, nextDealer)
  = Return (rest,
            zip_with (λ player card, withHand (hand player ++ [card]) player)
                     dealtPlayers cards,
            {| dealerHand := dealerHand nextDealer ++ [dealerCard];
               hidden := hidden nextDealer |}).
Proof.
  intros Hlen. unfold dealPass.
  replace (rest ++ rev (cards ++ [dealerCard]))
    with ((rest ++ [dealerCard]) ++ rev cards)
    by (rewrite rev_app_distr; simpl; by rewrite <- app_assoc).
  rewrite dealPlayers_pass by done.
  unfold mbind, completion_bind. by rewrite drawCard_snoc.
Qed.

Lemma dealInitial_deals (rand : nat → nat) (preparedDeck : list Card)
    (preparedPlayers : list Player) (rest first second : list Card)
    (dealerFirst dealerSecond : Card) :
  length first = length preparedPlayers →
  length second = length preparedPlayers →
  ensureDeck rand preparedDeck
  = rest ++ rev (first ++ [dealerFirst] ++ second ++ [dealerSecond]) →
  dealInitial rand preparedDeck preparedPlayers
  = Return (rest, dealtSeats preparedPlayers first second,
            {| dealerHand := [dealerFirst; dealerSecond]; hidden := true |}).
Proof.
  intros Hfirst Hsecond Hdeck. unfold dealInitial. rewrite Hdeck.
  replace (rest ++ rev (first ++ [dealerFirst] ++ second ++ [dealerSecond]))
    with ((rest ++ rev (second ++ [dealerSecond])) ++ rev (first ++ [dealerFirst]))
    by (rewrite (app_assoc first), (rev_app_distr (first ++ _)); by rewrite <- app_assoc).
  rewrite dealPass_pass by (by rewrite length_fmap).
  unfold mbind at 1, completion_bind at 1.
  rewrite dealPass_pass.
  2:{ rewrite length_zip_with, length_fmap. lia. }
  unfold mbind, completion_bind. cbn [dealerHand hidden app].
  f_equal. f_equal. f_equal.
  unfold dealtSeats. clear Hdeck.
  revert first second Hfirst Hsecond.
  induction preparedPlayers as [|player players' IH]; intros first second Hfirst Hsecond.
  - by destruct first, second.
  - destruct first as [|c1 first]; [done|]. destruct second as [|c2 second]; [done|].
    injection Hfirst as Hfirst. injection Hsecond as Hsecond.
    cbn [fmap list_fmap zip_with zip]. 
    rewrite <- (IH first second Hfirst Hsecond). f_equal.
    unfold dealtSeat. cbn. by destruct (isBlackjack [c1; c2]).
Qed.

Lemma ensureDeck_keeps (rand : nat → nat) (current : list Card) :
  (15 <= length current)%nat → ensureDeck rand current = current.
Proof.
  intros Hlen. unfold ensureDeck.
  by destruct (Nat.ltb_spec (length current) 15); [lia|].
Qed.

Lemma dealtSeats_lookup (preparedPlayers : list Player) (first second : list Card)
    (i : nat) (player : Player) (c1 c2 : Card) :
  preparedPlayers !! i = Some player → first !! i = Some c1 → second !! i = Some c2 →
  dealtSeats preparedPlayers first second !! i = Some (dealtSeat player c1 c2).
Proof.
  intros Hp H1 H2. unfold dealtSeats.
  rewrite lookup_zip_with, Hp. simpl.
  rewrite lookup_zip_with, H1. simpl. by rewrite H2.
Qed.

Lemma dealtSeats_length (preparedPlayers : list Player) (first second : list Card) :
  length first = length preparedPlayers → length second = length preparedPlayers →
  length (dealtSeats preparedPlayers first second) = length preparedPlayers.
Proof.
  intros H1 H2. unfold dealtSeats. rewrite length_zip_with, length_zip_with. lia.
Qed.

Lemma handleDeal_rejects (rand : nat → nat) (s : State) :
  existsb invalidBet (players s) = true →
  handleDeal rand s = Return (setMessage MsgInvalidBet s).
Proof. intros Hinv. unfold handleDeal. by rewrite Hinv. Qed.

Lemma handleDeal_deals (rand : nat → nat) (s : State) (rest first second : list Card)
    (dealerFirst dealerSecond : Card) :
  existsb invalidBet (players s) = false →
  length first = length (players s) →
  length second = length (players s) →
  ensureDeck rand (deck s)
  = rest ++ rev (first ++ [dealerFirst] ++ second ++ [dealerSecond]) →
  let dealtPlayers := dealtSeats (reservePlayers (players s)) first second in
  let nextDealer := {| dealerHand := [dealerFirst; dealerSecond]; hidden := true |} in
  let s2 := dealtState s dealtPlayers nextDealer rest in
  handleDeal rand s
  = if scanActive 0 dealtPlayers =? -1
    then handleDealerTurn s2 dealtPlayers nextDealer rest (potAfterDeal s)
    else Return (setCurrentIndex (scanActive 0 dealtPlayers) s2).
Proof.
  intros Hvalid Hfirst Hsecond Hdeck dealtPlayers nextDealer s2.
  unfold handleDeal. rewrite Hvalid.
  rewrite (dealInitial_deals rand (deck s) (reservePlayers (players s))
             rest first second dealerFirst dealerSecond)
    by (unfold reservePlayers; rewrite ?length_fmap; done).
  unfold mbind, completion_bind. fold dealtPlayers. fold nextDealer.
  unfold nextActiveIndex. simpl (-1 + 1). simpl (0 <? 0). simpl (Z.to_nat 0).
  rewrite drop_0.
  assert (Hs2 : s2 = (if isMulti s
                      then setPot (pot (setMessage MsgChooseAction
                                          (setPhase Playing
                                             (setDealer nextDealer
                                                (setPlayers dealtPlayers
                                                   (setDeck rest s)))))
                                   + foldl (λ sum player, sum + bet player) 0 (players s))%Q
                             (setMessage MsgChooseAction
                                (setPhase Playing
                                   (setDealer nextDealer
                                      (setPlayers dealtPlayers (setDeck rest s)))))
                      else setMessage MsgChooseAction
                             (setPhase Playing
                                (setDealer nextDealer
                                   (setPlayers dealtPlayers (setDeck rest s)))))).
  { unfold s2, dealtState, potAfterDeal. by destruct (isMulti s). }
  rewrite <- Hs2. unfold potAfterDeal. reflexivity.
Qed.

Lemma swapCells_length (i j : nat) (deck : list Card) :
  length (swapCells i j deck) = length deck.
Proof.
  unfold swapCells. destruct (deck !! i), (deck !! j); try done.
  by rewrite !length_insert.
Qed.

Lemma shuffle_length (rand : nat → nat) (cards : list Card) :
  length (shuffle rand cards) = length cards.
Proof.
  unfold shuffle. generalize (length cards - 1)%nat as i. intros i.
  revert cards; induction i as [|i IH]; intros cards; [done|].
  simpl. by rewrite IH, swapCells_length.
Qed.

Lemma ensureDeck_length (rand : nat → nat) (current : list Card) :
  (15 <= length (ensureDeck rand current))%nat.
Proof.
  unfold ensureDeck. destruct (Nat.ltb_spec (length current) 15); [|done].
  rewrite shuffle_length. change (length createDeck) with 52%nat. lia.
Qed.

(** A deck of at least [2n + 2] cards ends with the cards of two passes. *)
Lemma deck_top_cards (l : list Card) (n : nat) :
  (2 * n + 2 <= length l)%nat →
  ∃ rest first dealerFirst second dealerSecond,
    length first = n ∧ length second = n
    ∧ l = rest ++ rev (first ++ [dealerFirst] ++ second ++ [dealerSecond]).
Proof.
  intros Hlen.
  assert (Hr : (2 * n + 2 <= length (rev l))%nat) by (by rewrite length_rev).
  rewrite <- (rev_involutive l). generalize dependent (rev l). clear l Hlen.
  intros r Hr.
  assert (Hf : length (take n r) = n) by (rewrite length_take; lia).
  destruct (drop n r) as [|dealerFirst r1] eqn:Hr1.
  { apply (f_equal length) in Hr1. rewrite length_drop in Hr1. simpl in Hr1. lia. }
  assert (Hl1 : length r1 = (length r - n - 1)%nat).
  { apply (f_equal length) in Hr1. rewrite length_drop in Hr1. simpl in Hr1. lia. }
  assert (Hs : length (take n r1) = n) by (rewrite length_take; lia).
  destruct (drop n r1) as [|dealerSecond r2] eqn:Hr2.
  { apply (f_equal length) in Hr2. rewrite length_drop in Hr2. simpl in Hr2. lia. }
  exists (rev r2), (take n r), dealerFirst, (take n r1), dealerSecond.
  split; [done|]. split; [done|].
  rewrite <- rev_app_distr. f_equal.
  transitivity (take n r ++ dealerFirst :: take n r1 ++ dealerSecond :: r2).
  - by rewrite <- Hr2, take_drop, <- Hr1, take_drop.
  - by rewrite <- !app_assoc.
Qed.

Lemma invalidBet_spec (player : Player) :
  invalidBet player = true ↔ ¬ acceptableBet player.
Proof.
  unfold invalidBet, acceptableBet.
  rewrite orb_true_iff, Qle_bool_iff, Qgt_bool_iff. split.
  - intros [Hle|Hgt] [Hpos Hin]; lra.
  - intros Hnot. destruct (Qlt_le_dec 0 (bet player)) as [Hpos|Hle]; [|by left].
    destruct (Qlt_le_dec (chips player) (bet player)) as [Hgt|Hin]; [by right|].
    destruct Hnot. by split.
Qed.

Lemma invalid_some_player (l : list Player) :
  existsb invalidBet l = true ↔ ∃ player, player ∈ l ∧ ¬ acceptableBet player.
Proof.
  rewrite existsb_exists. split; intros (player & Hin & Hbad); exists player.
  - split; [by apply list_elem_of_In|by apply invalidBet_spec].
  - split; [by apply list_elem_of_In|by apply invalidBet_spec].
Qed.

Lemma valid_every_player (l : list Player) :
  existsb invalidBet l = false ↔ Forall acceptableBet l.
Proof.
  rewrite <- not_true_iff_false, invalid_some_player, Forall_forall. split.
  - intros Hnone player Hin.
    destruct (invalidBet player) eqn:Hinv.
    + destruct Hnone. exists player. split; [done|by apply invalidBet_spec].
    + unfold invalidBet in Hinv. apply orb_false_iff in Hinv as [H1 H2].
      apply Qgt_bool_false_iff in H2.
      split; [|done]. apply Qnot_le_lt. intros Hle.
      apply Qle_bool_iff in Hle. congruence.
  - intros Hall (player & Hin & Hbad). by apply Hbad, Hall.
Qed.

(** An accepted deal leaves the betting phase, or a handler throws. *)
Lemma handleDeal_accepted_phase (rand : nat → nat) (s s' : State) :
  existsb invalidBet (players s) = false →
  handleDeal rand s = Return s' →
  phase s' = Playing ∨ phase s' = RoundEnd.
Proof.
  intros Hvalid. unfold handleDeal. rewrite Hvalid.
  destruct (dealInitial rand (deck s) (reservePlayers (players s)))
    as [[[nextDeck dealtPlayers] nextDealer]|e]; [|done].
  unfold mbind, completion_bind, nextActiveIndex.
  change (-1 + 1 <? 0) with false. cbv iota.
  destruct (scanActive _ _ =? -1).
  - intros (finalHand & nextDeck' & _ & ->)%handleDealerTurn_inv. by right.
  - intros [= <-]. left. by destruct (isMulti s).
Qed.

(** C3. In the betting phase (at a table of six seats at most, so that a
    deck of fifteen cards suffices for the two passes), [handleDeal] rejects
    the deal exactly when some player's bet is not above 0 or exceeds that
    player's chips; a rejected deal only sets the validation message:
    players, dealer, deck, pot, phase, acting index and round stay as they
    were; an accepted deal takes every bet from its player's chips before
    the cards are dealt, and then either waits for the first active player
    or, when every player holds a natural, runs the dealer turn. *)
Theorem handleDeal_validates_bets (rand : nat → nat) (s : State) :
  phase s = Betting →
  (length (players s) <= 6)%nat →
  ((∃ s', handleDeal rand s = Return s' ∧ phase s' = Betting)
   ↔ (∃ player, player ∈ players s ∧ ¬ acceptableBet player))
  ∧ ((∃ player, player ∈ players s ∧ ¬ acceptableBet player) →
     ∃ s',
       handleDeal rand s = Return s'
       ∧ message s' = MsgInvalidBet
       ∧ players s' = players s ∧ dealer s' = dealer s ∧ deck s' = deck s
       ∧ pot s' = pot s ∧ phase s' = phase s
       ∧ currentIndex s' = currentIndex s ∧ round s' = round s)
  ∧ (Forall acceptableBet (players s) →
     ∃ nextDeck dealtPlayers nextDealer,
       dealInitial rand (deck s) (reservePlayers (players s))
       = Return (nextDeck, dealtPlayers, nextDealer)
       ∧ (∀ (i : nat) (player : Player),
            players s !! i = Some player →
            ∃ player',
              dealtPlayers !! i = Some player'
              ∧ chips player' = (chips player - bet player)%Q
              ∧ bet player' = bet player
              ∧ length (hand player') = 2%nat)
       ∧ ((scanActive 0 dealtPlayers ≠ -1
           ∧ handleDeal rand s
             = Return (setCurrentIndex (scanActive 0 dealtPlayers)
                         (dealtState s dealtPlayers nextDealer nextDeck)))
          ∨ (scanActive 0 dealtPlayers = -1
             ∧ handleDeal rand s
               = handleDealerTurn (dealtState s dealtPlayers nextDealer nextDeck)
                   dealtPlayers nextDealer nextDeck (potAfterDeal s)))).
Proof.
  intros Hphase Hseats. split; [|split].
  - rewrite <- invalid_some_player. split.
    + intros (s' & Hdeal & Hbet).
      destruct (existsb invalidBet (players s)) eqn:Hinv; [done|].
      destruct (handleDeal_accepted_phase rand s s' Hinv Hdeal); congruence.
    + intros Hinv. exists (setMessage MsgInvalidBet s).
      split; [by apply handleDeal_rejects|done].
  - intros Hinv%invalid_some_player. exists (setMessage MsgInvalidBet s).
    split; [by apply handleDeal_rejects|]. by repeat split.
  - intros Hvalid%valid_every_player.
    destruct (deck_top_cards (ensureDeck rand (deck s)) (length (players s)))
      as (rest & first & dealerFirst & second & dealerSecond & Hfirst & Hsecond & Hdeck).
    { pose proof (ensureDeck_length rand (deck s)). lia. }
    exists rest, (dealtSeats (reservePlayers (players s)) first second),
      {| dealerHand := [dealerFirst; dealerSecond]; hidden := true |}.
    split; [|split].
    + apply dealInitial_deals; [| |done]; unfold reservePlayers;
        by rewrite length_fmap.
    + intros i player Hi.
      destruct (lookup_lt_is_Some_2 first i) as [c1 Hc1].
      { rewrite Hfirst. by eapply lookup_lt_Some. }
      destruct (lookup_lt_is_Some_2 second i) as [c2 Hc2].
      { rewrite Hsecond. by eapply lookup_lt_Some. }
      destruct (reservePlayers (players s) !! i) as [reserved|] eqn:Hr;
        unfold reservePlayers in Hr; rewrite list_lookup_fmap, Hi in Hr; [|done].
      injection Hr as Hr. fold (reservePlayers (players s)).
      exists (dealtSeat reserved c1 c2). split.
      * apply dealtSeats_lookup; [|done|done].
        unfold reservePlayers. by rewrite list_lookup_fmap, Hi, <- Hr.
      * by rewrite <- Hr.
    + rewrite (handleDeal_deals rand s rest first second dealerFirst dealerSecond)
        by done.
      destruct (Z.eqb_spec (scanActive 0 (dealtSeats (reservePlayers (players s))
                                            first second)) (-1)) as [Heq|Hne].
      * right. by split.
      * left. by split.
Qed.

Lemma handleDeal_validates_bets_witness :
  (phase soloTableBet = Betting ∧ (length (players soloTableBet) <= 6)%nat)
  ∧ Forall acceptableBet (players soloTableBet)
  ∧ ¬ (∃ s', handleDeal keepOrder soloTableBet = Return s' ∧ phase s' = Betting).
Proof.
  assert (Hphase : phase soloTableBet = Betting) by reflexivity.
  assert (Hseats : (length (players soloTableBet) <= 6)%nat) by (vm_compute; lia).
  assert (Hbets : Forall acceptableBet (players soloTableBet)).
  { apply valid_every_player. reflexivity. }
  split; [by split|]. split; [done|].
  destruct (handleDeal_validates_bets keepOrder soloTableBet Hphase Hseats)
    as [Hiff _].
  intros Hrej. apply Hiff in Hrej as (player & Hin & Hbad).
  apply Hbad. exact (proj1 (Forall_forall _ _) Hbets player Hin).
Defined.

(** C8. [dealInitial] draws from the top of the deck (its last card) in
    round-robin order: one card to every player in seat order, one to the
    dealer, a second card to every player in seat order, a second to the
    dealer; so the deck fixes every hand.  A player whose two cards make a
    natural is marked [blackjack], the others [active]; the dealer is marked
    hidden, which shows the dealer's first card face down.  A deck of
    fifteen cards or more is dealt from as it is, and an accepted deal deals
    from the table's deck in this way. *)
Theorem dealInitial_round_robin :
  (∀ (rand : nat → nat) (preparedDeck : list Card) (preparedPlayers : list Player)
     (rest first second : list Card) (dealerFirst dealerSecond : Card),
     length first = length preparedPlayers →
     length second = length preparedPlayers →
     ensureDeck rand preparedDeck
     = rest ++ rev (first ++ [dealerFirst] ++ second ++ [dealerSecond]) →
     let nextDealer := {| dealerHand := [dealerFirst; dealerSecond]; hidden := true |} in
     dealInitial rand preparedDeck preparedPlayers
     = Return (rest, dealtSeats preparedPlayers first second, nextDealer)
     ∧ shownDealerCards nextDealer = [None; Some dealerSecond]
     ∧ length (dealtSeats preparedPlayers first second) = length preparedPlayers
     ∧ ∀ (i : nat) (player : Player) (c1 c2 : Card),
         preparedPlayers !! i = Some player →
         first !! i = Some c1 → second !! i = Some c2 →
         ∃ player',
           dealtSeats preparedPlayers first second !! i = Some player'
           ∧ hand player' = [c1; c2]
           ∧ status player' = (if isBlackjack [c1; c2] then StBlackjack else StActive)
           ∧ id player' = id player ∧ chips player' = chips player
           ∧ bet player' = bet player)
  ∧ (∀ (rand : nat → nat) (current : list Card),
       (15 <= length current)%nat → ensureDeck rand current = current)
  ∧ (∀ (rand : nat → nat) (s : State) (rest first second : list Card)
       (dealerFirst dealerSecond : Card),
       existsb invalidBet (players s) = false →
       length first = length (players s) →
       length second = length (players s) →
       ensureDeck rand (deck s)
       = rest ++ rev (first ++ [dealerFirst] ++ second ++ [dealerSecond]) →
       let dealtPlayers := dealtSeats (reservePlayers (players s)) first second in
       let nextDealer := {| dealerHand := [dealerFirst; dealerSecond]; hidden := true |} in
       handleDeal rand s
       = if scanActive 0 dealtPlayers =? -1
         then handleDealerTurn (dealtState s dealtPlayers nextDealer rest)
                dealtPlayers nextDealer rest (potAfterDeal s)
         else Return (setCurrentIndex (scanActive 0 dealtPlayers)
                        (dealtState s dealtPlayers nextDealer rest))).
Proof.
  split; [|split; [exact ensureDeck_keeps|exact handleDeal_deals]].
  intros rand preparedDeck preparedPlayers rest first second dealerFirst dealerSecond
    Hfirst Hsecond Hdeck nextDealer.
  split; [by apply dealInitial_deals|]. split; [reflexivity|].
  split; [by apply dealtSeats_length|].
  intros i player c1 c2 Hp H1 H2. exists (dealtSeat player c1 c2).
  split; [by apply dealtSeats_lookup|]. done.
Qed.

Lemma dealInitial_round_robin_witness :
  ∃ (rest : list Card) (seatOne seatTwo : Player),
    deck tableOfTwoDealt = rest
    ∧ players tableOfTwoDealt = [seatOne; seatTwo]
    ∧ hand seatOne = [cardOf Clubs RK; cardOf Clubs R8]
    ∧ hand seatTwo = [cardOf Clubs RQ; cardOf Clubs R9]
    ∧ dealerHand (dealer tableOfTwoDealt) = [cardOf Clubs RJ; cardOf Diamonds R8]
    ∧ dealInitial eightsUp (rest ++ rev ([cardOf Clubs RK; cardOf Clubs RQ]
                                          ++ [cardOf Clubs RJ]
                                          ++ [cardOf Clubs R8; cardOf Clubs R9]
                                          ++ [cardOf Diamonds R8]))
        (reservePlayers [seatOne; seatTwo])
      = Return (rest,
                dealtSeats (reservePlayers [seatOne; seatTwo])
                  [cardOf Clubs RK; cardOf Clubs RQ] [cardOf Clubs R8; cardOf Clubs R9],
                {| dealerHand := [cardOf Clubs RJ; cardOf Diamonds R8]; hidden := true |}).
Proof.
  eexists _, _, _.
  split; [vm_compute; reflexivity|].
  split; [vm_compute; reflexivity|].
  do 3 (split; [reflexivity|]).
  apply (proj1 dealInitial_round_robin); [reflexivity|reflexivity|].
  apply ensureDeck_keeps. vm_compute. lia.
Defined.

(** ** Turns *)

Lemma at_index_Some {A} (l : list A) (i : Z) (x : A) :
  at_index l i = Some x ↔ 0 <= i ∧ l !! Z.to_nat i = Some x.
Proof.
  unfold at_index. destruct (Z.ltb_spec i 0); split; try done.
  - intros [? _]. lia.
  - intros [_ ?]. done.
Qed.

Lemma at_index_nat {A} (l : list A) (n : nat) : at_index l (Z.of_nat n) = l !! n.
Proof.
  unfold at_index. destruct (Z.ltb_spec (Z.of_nat n) 0); [lia|]. by rewrite Nat2Z.id.
Qed.

Lemma mapAt_lookup {A} (index : Z) (f : A → A) (l : list A) (i : nat) :
  mapAt index f l !! i = (if Z.of_nat i =? index then f else λ x, x) <$> l !! i.
Proof.
  unfold mapAt. rewrite list_lookup_imap.
  destruct (l !! i); simpl; [|done]. by destruct (Z.of_nat i =? index).
Qed.

Lemma mapAt_length {A} (index : Z) (f : A → A) (l : list A) :
  length (mapAt index f l) = length l.
Proof. unfold mapAt. apply length_imap. Qed.

Lemma mapAt_insert {A} (index : Z) (f : A → A) (l : list A) (x : A) :
  at_index l index = Some x →
  mapAt index f l = <[ Z.to_nat index := f x ]> l.
Proof.
  intros [Hpos Hx]%at_index_Some. apply list_eq. intros i.
  rewrite mapAt_lookup.
  destruct (decide (i = Z.to_nat index)) as [->|Hne].
  - rewrite Z2Nat.id, Z.eqb_refl, Hx by done. simpl.
    symmetry. apply list_lookup_insert_eq. by eapply lookup_lt_Some.
  - rewrite list_lookup_insert_ne by done.
    destruct (Z.eqb_spec (Z.of_nat i) index) as [Heq|_]; [lia|].
    by destruct (l !! i).
Qed.

Lemma mapAt_outside {A} (index : Z) (f : A → A) (l : list A) :
  at_index l index = None → mapAt index f l = l.
Proof.
  intros Hnone. apply list_eq. intros i. rewrite mapAt_lookup.
  destruct (Z.eqb_spec (Z.of_nat i) index) as [<-|_].
  - rewrite at_index_nat in Hnone. by rewrite Hnone.
  - by destruct (l !! i).
Qed.

(** The scan of [nextActiveIndex]: it finds the first active player of the
    part of the list it is given, or answers [-1]. *)
Lemma scanActive_spec (i : Z) (rest : list Player) :
  0 <= i →
  (scanActive i rest = -1 ∧ Forall (λ p, status p ≠ StActive) rest)
  ∨ (∃ (k : nat) (p : Player),
       scanActive i rest = i + Z.of_nat k
       ∧ rest !! k = Some p ∧ status p = StActive
       ∧ Forall (λ q, status q ≠ StActive) (take k rest)).
Proof.
  revert i; induction rest as [|p rest IH]; intros i Hi.
  - left. by split.
  - simpl. destruct (decide (status p = StActive)) as [Hact|Hnot].
    + right. exists 0%nat, p. split; [lia|]. by repeat split.
    + destruct (IH (i + 1) ltac:(lia)) as [[Hnone Hall]|(k & q & Hk & Hq & Hact & Hbefore)].
      * left. split; [done|]. by constructor.
      * right. exists (S k), q. split; [lia|]. split; [done|]. split; [done|].
        simpl. by constructor.
Qed.

(** [nextActiveIndex] from a valid start: either [-1], and no player after
    [fromIndex] is active, or the first index after [fromIndex] whose player
    is active. *)
Lemma nextActiveIndex_spec (players : list Player) (fromIndex : Z) :
  -1 <= fromIndex →
  ∃ j,
    nextActiveIndex players fromIndex = Return j
    ∧ ((j = -1
        ∧ ∀ (k : nat) (q : Player),
            fromIndex < Z.of_nat k → players !! k = Some q → status q ≠ StActive)
       ∨ (fromIndex < j
          ∧ (∃ p, at_index players j = Some p ∧ status p = StActive)
          ∧ ∀ (k : nat) (q : Player),
              fromIndex < Z.of_nat k < j → players !! k = Some q →
              status q ≠ StActive)).
Proof.
  intros Hfrom. unfold nextActiveIndex.
  destruct (Z.ltb_spec (fromIndex + 1) 0); [lia|].
  eexists. split; [reflexivity|].
  set (start := Z.to_nat (fromIndex + 1)).
  assert (Hstart : fromIndex + 1 = Z.of_nat start) by (unfold start; lia).
  destruct (scanActive_spec (fromIndex + 1) (drop start players) ltac:(lia))
    as [[Hnone Hall]|(k & p & Hk & Hp & Hact & Hbefore)].
  - left. split; [done|]. intros k q Hk Hq.
    apply (proj1 (Forall_forall _ _) Hall q).
    apply list_elem_of_lookup. exists (k - start)%nat.
    rewrite lookup_drop. by replace (start + (k - start))%nat with k by lia.
  - right. rewrite Hk. split; [lia|]. split.
    + exists p. split; [|done]. rewrite lookup_drop in Hp.
      apply at_index_Some. split; [lia|].
      by replace (Z.to_nat (fromIndex + 1 + Z.of_nat k)) with (start + k)%nat by lia.
    + intros k' q Hk' Hq.
      apply (proj1 (Forall_forall _ _) Hbefore q).
      apply list_elem_of_lookup. exists (k' - start)%nat.
      rewrite lookup_take_lt by lia. rewrite lookup_drop.
      by replace (start + (k' - start))%nat with k' by lia.
Qed.

Lemma alter_after_insert {A} (f : A → A) (l : list A) (i : nat) (x : A) :
  alter f i (<[ i := x ]> l) = <[ i := f x ]> l.
Proof.
  apply list_eq. intros j.
  destruct (decide (i = j)) as [<-|Hne].
  - rewrite list_lookup_alter_eq.
    destruct (decide (i < length l)%nat) as [Hlt|Hge].
    + by rewrite !list_lookup_insert_eq.
    + rewrite !lookup_ge_None_2; [done|rewrite length_insert; lia..].
  - by rewrite list_lookup_alter_ne, !list_lookup_insert_ne.
Qed.

Lemma at_index_insert {A} (l : list A) (i : Z) (x y : A) :
  at_index l i = Some x → at_index (<[ Z.to_nat i := y ]> l) i = Some y.
Proof.
  intros [Hpos Hx]%at_index_Some. apply at_index_Some. split; [done|].
  apply list_lookup_insert_eq. by eapply lookup_lt_Some.
Qed.

Lemma handleHit_step (s : State) (player : Player) (card : Card) (next : list Card) :
  at_index (players s) (currentIndex s) = Some player →
  status player = StActive →
  drawCard (deck s) = (Some card, next) →
  let updatedPlayers :=
    <[ Z.to_nat (currentIndex s) := playerAfterHit player card ]> (players s) in
  let s1 := setPlayers updatedPlayers (setDeck next s) in
  handleHit s
  = if calculateHand (hand player ++ [card]) <? 21 then Return s1
    else advanceTurn s1 updatedPlayers (dealer s) next (pot s).
Proof.
  intros Hat Hst Hdraw updatedPlayers s1. unfold handleHit.
  rewrite Hat, Hst, Hdraw. rewrite bool_decide_eq_true_2 by done. cbn [negb].
  rewrite (mapAt_insert _ _ _ _ Hat).
  set (total := calculateHand (hand player ++ [card])).
  assert (Hup : (if 21 <? total
                 then alter (withStatus StBust) (Z.to_nat (currentIndex s))
                        (<[Z.to_nat (currentIndex s) := withHand (hand player ++ [card]) player]>
                           (players s))
                 else if total =? 21
                 then alter (withStatus StStand) (Z.to_nat (currentIndex s))
                        (<[Z.to_nat (currentIndex s) := withHand (hand player ++ [card]) player]>
                           (players s))
                 else <[Z.to_nat (currentIndex s) := withHand (hand player ++ [card]) player]>
                        (players s))
                = updatedPlayers).
  { unfold updatedPlayers, playerAfterHit, statusAfterHit. fold total.
    destruct (21 <? total); [by rewrite alter_after_insert|].
    destruct (total =? 21); [by rewrite alter_after_insert|].
    f_equal. destruct player. simpl in *. by subst. }
  rewrite Hup.
  assert (Hcur : status <$> at_index updatedPlayers (currentIndex s)
                 = Some (statusAfterHit total)).
  { unfold updatedPlayers. by rewrite (at_index_insert _ _ _ _ Hat). }
  rewrite Hcur. unfold statusAfterHit. fold s1.
  destruct (Z.ltb_spec 21 total), (Z.eqb_spec total 21), (Z.ltb_spec total 21);
    try lia; reflexivity.
Qed.

Lemma handleStand_step (s : State) (player : Player) :
  at_index (players s) (currentIndex s) = Some player →
  let updatedPlayers :=
    <[ Z.to_nat (currentIndex s) := withStatus StStand player ]> (players s) in
  handleStand s
  = advanceTurn (setPlayers updatedPlayers s) updatedPlayers (dealer s) (deck s) (pot s).
Proof.
  intros Hat updatedPlayers. unfold handleStand.
  by rewrite (mapAt_insert _ _ _ _ Hat).
Qed.

(** [advanceTurn] from a valid acting index: the pointer moves to the first
    active player strictly after it, or the dealer turn runs. *)
Lemma advanceTurn_spec (s : State) (nextPlayers : list Player) (nextDealer : Dealer)
    (nextDeck : list Card) (nextPot : Q) :
  0 <= currentIndex s →
  (∃ j p,
     advanceTurn s nextPlayers nextDealer nextDeck nextPot
     = Return (setCurrentIndex j s)
     ∧ currentIndex s < j
     ∧ at_index nextPlayers j = Some p ∧ status p = StActive
     ∧ ∀ (k : nat) (q : Player),
         currentIndex s < Z.of_nat k < j → nextPlayers !! k = Some q →
         status q ≠ StActive)
  ∨ (advanceTurn s nextPlayers nextDealer nextDeck nextPot
     = handleDealerTurn s nextPlayers nextDealer nextDeck nextPot
     ∧ ∀ (k : nat) (q : Player),
         currentIndex s < Z.of_nat k → nextPlayers !! k = Some q →
         status q ≠ StActive).
Proof.
  intros Hpos. unfold advanceTurn.
  destruct (nextActiveIndex_spec nextPlayers (currentIndex s) ltac:(lia))
    as (j & -> & [[-> Hnone]|(Hlt & (p & Hp & Hact) & Hbetween)]).
  - right. by split.
  - left. exists j, p. unfold mbind, completion_bind.
    destruct (Z.eqb_spec j (-1)); [lia|]. by repeat split.
Qed.

(** X1. A hit of the acting player (the player at the acting index, whose
    status is [active]) on a deck that holds a card draws exactly that one
    card, the top of the deck, into the player's hand and touches no other
    player.  A total above 21 makes the status [bust], a total of exactly 21
    makes it [stand], and below 21 the status stays [active] and the same
    player keeps the turn.  When the hit ends the turn, and whenever the
    acting player stands, the acting index moves to the first player with
    status [active] strictly after the current index, the players in between
    being skipped; when there is none, the dealer turn runs. *)
Theorem handleHit_draws_and_advances (s : State) (player : Player) (card : Card)
    (next : list Card) :
  at_index (players s) (currentIndex s) = Some player →
  status player = StActive →
  deck s = next ++ [card] →
  let total := calculateHand (hand player ++ [card]) in
  let after := playerAfterHit player card in
  let updatedPlayers := <[ Z.to_nat (currentIndex s) := after ]> (players s) in
  let s1 := setPlayers updatedPlayers (setDeck next s) in
  let stoodPlayers :=
    <[ Z.to_nat (currentIndex s) := withStatus StStand player ]> (players s) in
  (hand after = hand player ++ [card]
   ∧ (21 < total → status after = StBust)
   ∧ (total = 21 → status after = StStand)
   ∧ (total < 21 → status after = StActive)
   ∧ updatedPlayers !! Z.to_nat (currentIndex s) = Some after
   ∧ ∀ k : nat, k ≠ Z.to_nat (currentIndex s) → updatedPlayers !! k = players s !! k)
  ∧ (total < 21 →
     handleHit s = Return s1
     ∧ currentIndex s1 = currentIndex s ∧ phase s1 = phase s)
  ∧ (21 <= total →
     (∃ j p,
        handleHit s = Return (setCurrentIndex j s1)
        ∧ currentIndex s < j
        ∧ at_index updatedPlayers j = Some p ∧ status p = StActive
        ∧ ∀ (k : nat) (q : Player),
            currentIndex s < Z.of_nat k < j → updatedPlayers !! k = Some q →
            status q ≠ StActive)
     ∨ (handleHit s = handleDealerTurn s1 updatedPlayers (dealer s) next (pot s)
        ∧ ∀ (k : nat) (q : Player),
            currentIndex s < Z.of_nat k → updatedPlayers !! k = Some q →
            status q ≠ StActive))
  ∧ ((∃ j p,
        handleStand s = Return (setCurrentIndex j (setPlayers stoodPlayers s))
        ∧ currentIndex s < j
        ∧ at_index stoodPlayers j = Some p ∧ status p = StActive
        ∧ ∀ (k : nat) (q : Player),
            currentIndex s < Z.of_nat k < j → stoodPlayers !! k = Some q →
            status q ≠ StActive)
     ∨ (handleStand s
        = handleDealerTurn (setPlayers stoodPlayers s) stoodPlayers (dealer s) (deck s)
            (pot s)
        ∧ ∀ (k : nat) (q : Player),
            currentIndex s < Z.of_nat k → stoodPlayers !! k = Some q →
            status q ≠ StActive)).
Proof.
  intros Hat Hst Hdeck total after updatedPlayers s1 stoodPlayers.
  assert (Hdraw : drawCard (deck s) = (Some card, next)).
  { rewrite Hdeck. apply drawCard_snoc. }
  pose proof (handleHit_step s player card next Hat Hst Hdraw) as Hstep.
  cbv zeta in Hstep. fold after updatedPlayers s1 total in Hstep.
  pose proof (proj1 (at_index_Some _ _ _) Hat) as [Hpos Hlook].
  split; [|split; [|split]].
  - split; [reflexivity|].
    unfold after, playerAfterHit, statusAfterHit. fold total. cbn [status withStatus].
    split; [|split; [|split; [|split]]].
    + intros Hgt. by destruct (Z.ltb_spec 21 total); [|lia].
    + intros Heq. destruct (Z.ltb_spec 21 total); [lia|].
      by destruct (Z.eqb_spec total 21).
    + intros Hlt. destruct (Z.ltb_spec 21 total); [lia|].
      by destruct (Z.eqb_spec total 21); [lia|].
    + apply list_lookup_insert_eq. by eapply lookup_lt_Some.
    + intros k Hk. by apply list_lookup_insert_ne.
  - intros Hlt. rewrite Hstep.
    by destruct (Z.ltb_spec total 21); [|lia].
  - intros Hge. rewrite Hstep.
    destruct (Z.ltb_spec total 21); [lia|].
    apply (advanceTurn_spec s1 updatedPlayers (dealer s) next (pot s) Hpos).
  - rewrite (handleStand_step s player Hat). fold stoodPlayers.
    apply (advanceTurn_spec (setPlayers stoodPlayers s) stoodPlayers (dealer s) (deck s)
             (pot s) Hpos).
Qed.

Lemma handleHit_draws_and_advances_witness :
  ∃ (player : Player) (card : Card) (next : list Card),
    at_index (players soloTableDealt) (currentIndex soloTableDealt) = Some player
    ∧ status player = StActive
    ∧ deck soloTableDealt = next ++ [card]
    ∧ card = cardOf Clubs R9
    ∧ hand (playerAfterHit player card) = [cardOf Clubs RK; cardOf Clubs RJ; cardOf Clubs R9]
    ∧ status (playerAfterHit player card) = StBust.
Proof.
  destruct (at_index (players soloTableDealt) (currentIndex soloTableDealt))
    as [player|] eqn:Hat; [|vm_compute in Hat; discriminate].
  destruct (drawCard (deck soloTableDealt)) as [[card|] next] eqn:Hdraw;
    [|vm_compute in Hdraw; discriminate].
  assert (Hst : status player = StActive).
  { vm_compute in Hat. by injection Hat as <-. }
  assert (Hcard : card = cardOf Clubs R9).
  { vm_compute in Hdraw. by injection Hdraw as <- _. }
  assert (Hhand : hand player = [cardOf Clubs RK; cardOf Clubs RJ]).
  { vm_compute in Hat. by injection Hat as <-. }
  pose proof (drawCard_Some _ _ _ Hdraw) as Hdeck.
  exists player, card, next.
  do 4 (split; [done|]).
  destruct (handleHit_draws_and_advances soloTableDealt player card next
              Hat Hst Hdeck) as [(Hh & Hbust & _) _].
  split.
  - by rewrite Hh, Hhand, Hcard.
  - apply Hbust. rewrite Hhand, Hcard. reflexivity.
Defined.

(** ** The turn pointer *)

Lemma noneActive_lookup (l : list Player) :
  noneActive l ↔ ∀ (k : nat) (q : Player), l !! k = Some q → status q ≠ StActive.
Proof.
  unfold noneActive. rewrite Forall_lookup. done.
Qed.

Lemma noneActive_same_statuses (l l' : list Player) :
  status <$> l' = status <$> l → noneActive l → noneActive l'.
Proof.
  intros Hst Hl. apply noneActive_lookup. intros k q Hq.
  assert (Hk : (status <$> l) !! k = Some (status q)).
  { rewrite <- Hst, list_lookup_fmap, Hq. done. }
  rewrite list_lookup_fmap in Hk.
  destruct (l !! k) as [q0|] eqn:Hq0; [|done]. injection Hk as <-.
  by apply (proj1 (noneActive_lookup l) Hl k q0).
Qed.

Lemma settledState_statuses (s : State) (currentPlayers : list Player)
    (finalHand nextDeck : list Card) (nextPot : Q) :
  status <$> players (settledState s currentPlayers finalHand nextDeck nextPot)
  = status <$> currentPlayers.
Proof.
  unfold settledState. cbn [players].
  destruct (isMulti s); unfold pooledFinalPlayers, soloFinalPlayers, resolvePlayers;
    rewrite <- !list_fmap_compose; by apply list_fmap_ext.
Qed.

Lemma handleDealerTurn_invariant (s s' : State) (currentPlayers : list Player)
    (currentDealer : Dealer) (currentDeck : list Card) (nextPot : Q) :
  noneActive currentPlayers →
  handleDealerTurn s currentPlayers currentDealer currentDeck nextPot = Return s' →
  turnInvariant s'.
Proof.
  intros Hnone (finalHand & nextDeck & _ & ->)%handleDealerTurn_inv.
  unfold turnInvariant. cbn [phase settledState].
  eapply noneActive_same_statuses; [apply settledState_statuses|done].
Qed.

Lemma mapAt_statuses (index : Z) (f : Player → Player) (l : list Player) :
  (∀ player, status (f player) = status player) →
  status <$> mapAt index f l = status <$> l.
Proof.
  intros Hf. apply list_eq. intros i.
  rewrite !list_lookup_fmap, mapAt_lookup.
  destruct (l !! i) as [q|]; [|done]. simpl.
  by destruct (Z.of_nat i =? index); rewrite ?Hf.
Qed.

Lemma turnInvariant_same_statuses (s : State) (l : list Player) :
  status <$> l = status <$> players s →
  turnInvariant s → turnInvariant (setPlayers l s).
Proof.
  intros Hst. unfold turnInvariant. cbn [phase players currentIndex setPlayers].
  destruct (phase s).
  - by apply noneActive_same_statuses.
  - intros [(player & Hat & Hact) Hbefore]. split.
    + apply at_index_Some in Hat as [Hpos Hat].
      assert (Hk : (status <$> l) !! Z.to_nat (currentIndex s) = Some StActive).
      { by rewrite Hst, list_lookup_fmap, Hat, <- Hact. }
      rewrite list_lookup_fmap in Hk.
      destruct (l !! Z.to_nat (currentIndex s)) as [q|] eqn:Hq; [|done].
      injection Hk as Hk. exists q. split; [|done]. by apply at_index_Some.
    + eapply noneActive_same_statuses; [|exact Hbefore].
      by rewrite !fmap_take, Hst.
  - by apply noneActive_same_statuses.
Qed.

(** After a turn has ended at the acting index, no player up to it is
    active: [advanceTurn] keeps the invariant. *)
Lemma advanceTurn_invariant (s s' : State) (nextPlayers : list Player) :
  phase s = Playing →
  players s = nextPlayers →
  0 <= currentIndex s →
  noneActive (take (S (Z.to_nat (currentIndex s))) nextPlayers) →
  advanceTurn s nextPlayers (dealer s) (deck s) (pot s) = Return s' →
  turnInvariant s'.
Proof.
  intros Hphase Hplayers Hpos Hupto.
  destruct (advanceTurn_spec s nextPlayers (dealer s) (deck s) (pot s) Hpos)
    as [(j & p & -> & Hlt & Hp & Hact & Hbetween)|[-> Hafter]].
  - intros [= <-]. unfold turnInvariant.
    cbn [phase players currentIndex setCurrentIndex]. rewrite Hphase, Hplayers.
    split; [by exists p|].
    apply noneActive_lookup. intros k q Hq.
    apply lookup_take_Some in Hq as [Hq Hk].
    destruct (decide (k < S (Z.to_nat (currentIndex s)))%nat) as [Hlow|Hhigh].
    + apply (proj1 (noneActive_lookup _) Hupto k q).
      by rewrite lookup_take_lt.
    + apply (Hbetween k q); [lia|done].
  - apply handleDealerTurn_invariant.
    apply noneActive_lookup. intros k q Hq.
    destruct (decide (k < S (Z.to_nat (currentIndex s)))%nat) as [Hlow|Hhigh].
    + apply (proj1 (noneActive_lookup _) Hupto k q).
      by rewrite lookup_take_lt.
    + apply (Hafter k q); [lia|done].
Qed.

Lemma handleHit_invariant (s s' : State) :
  phase s = Playing → turnInvariant s → handleHit s = Return s' → turnInvariant s'.
Proof.
  intros Hphase Hinv. unfold turnInvariant in Hinv. rewrite Hphase in Hinv.
  destruct Hinv as [(player & Hat & Hact) Hbefore].
  pose proof (proj1 (at_index_Some _ _ _) Hat) as [Hpos Hlook].
  destruct (drawCard (deck s)) as [[card|] next] eqn:Hdraw.
  2:{ unfold handleHit. by rewrite Hat, Hact, Hdraw. }
  rewrite (handleHit_step s player card next Hat Hact Hdraw). cbv zeta.
  set (after := playerAfterHit player card).
  set (updatedPlayers := <[Z.to_nat (currentIndex s) := after]> (players s)).
  destruct (Z.ltb_spec (calculateHand (hand player ++ [card])) 21) as [Hlt|Hge].
  - intros [= <-]. unfold turnInvariant.
    cbn [phase players currentIndex setPlayers setDeck]. rewrite Hphase. split.
    + exists after. split; [by apply (at_index_insert _ _ player)|].
      unfold after, playerAfterHit, statusAfterHit. cbn [status withStatus].
      destruct (Z.ltb_spec 21 (calculateHand (hand player ++ [card]))); [lia|].
      by destruct (Z.eqb_spec (calculateHand (hand player ++ [card])) 21); [lia|].
    + unfold updatedPlayers. by rewrite take_insert_ge by lia.
  - apply (advanceTurn_invariant
             (setPlayers updatedPlayers (setDeck next s)) s' updatedPlayers);
      [done|done|done|].
    cbn [currentIndex setPlayers setDeck].
    apply noneActive_lookup. intros k q Hq.
    apply lookup_take_Some in Hq as [Hq Hk]. unfold updatedPlayers in Hq.
    destruct (decide (k = Z.to_nat (currentIndex s))) as [->|Hne].
    + rewrite list_lookup_insert_eq in Hq by (by eapply lookup_lt_Some).
      injection Hq as <-.
      unfold after, playerAfterHit, statusAfterHit. cbn [status withStatus].
      destruct (Z.ltb_spec 21 (calculateHand (hand player ++ [card]))); [done|].
      by destruct (Z.eqb_spec (calculateHand (hand player ++ [card])) 21); [|lia].
    + rewrite list_lookup_insert_ne in Hq by done.
      apply (proj1 (noneActive_lookup _) Hbefore k q).
      rewrite lookup_take_lt by lia. done.
Qed.

Lemma handleStand_invariant (s s' : State) :
  phase s = Playing → turnInvariant s → handleStand s = Return s' → turnInvariant s'.
Proof.
  intros Hphase Hinv. unfold turnInvariant in Hinv. rewrite Hphase in Hinv.
  destruct Hinv as [(player & Hat & Hact) Hbefore].
  pose proof (proj1 (at_index_Some _ _ _) Hat) as [Hpos Hlook].
  rewrite (handleStand_step s player Hat). cbv zeta.
  set (stoodPlayers := <[Z.to_nat (currentIndex s) := withStatus StStand player]> (players s)).
  apply (advanceTurn_invariant (setPlayers stoodPlayers s) s' stoodPlayers);
    [done|done|done|].
  cbn [currentIndex setPlayers].
  apply noneActive_lookup. intros k q Hq.
  apply lookup_take_Some in Hq as [Hq Hk]. unfold stoodPlayers in Hq.
  destruct (decide (k = Z.to_nat (currentIndex s))) as [->|Hne].
  - rewrite list_lookup_insert_eq in Hq by (by eapply lookup_lt_Some).
    by injection Hq as <-.
  - rewrite list_lookup_insert_ne in Hq by done.
    apply (proj1 (noneActive_lookup _) Hbefore k q).
    rewrite lookup_take_lt by lia. done.
Qed.

Lemma handleDeal_invariant (rand : nat → nat) (s s' : State) :
  turnInvariant s → handleDeal rand s = Return s' → turnInvariant s'.
Proof.
  intros Hinv. unfold handleDeal.
  destruct (existsb invalidBet (players s)); [by intros [= <-]|].
  destruct (dealInitial rand (deck s) (reservePlayers (players s)))
    as [[[nextDeck dealtPlayers] nextDealer]|e]; [|done].
  unfold mbind at 1, completion_bind at 1.
  destruct (nextActiveIndex_spec dealtPlayers (-1) ltac:(lia))
    as (j & -> & [[-> Hnone]|(Hlt & (p & Hp & Hact) & Hbetween)]);
    unfold mbind, completion_bind.
  - change (-1 =? -1) with true. cbv iota.
    apply handleDealerTurn_invariant.
    apply noneActive_lookup. intros k q Hq. apply (Hnone k q); [lia|done].
  - destruct (Z.eqb_spec j (-1)); [lia|]. intros [= <-].
    unfold turnInvariant.
    assert (Hfields : ∀ s2 : State,
               phase s2 = Playing → players s2 = dealtPlayers →
               match phase (setCurrentIndex j s2) with
               | Playing =>
                   (∃ player,
                      at_index (players (setCurrentIndex j s2))
                               (currentIndex (setCurrentIndex j s2)) = Some player
                      ∧ status player = StActive)
                   ∧ noneActive (take (Z.to_nat (currentIndex (setCurrentIndex j s2)))
                                      (players (setCurrentIndex j s2)))
               | _ => noneActive (players (setCurrentIndex j s2))
               end).
    { intros s2 Hph Hpl. cbn [phase players currentIndex setCurrentIndex].
      rewrite Hph, Hpl. split; [by exists p|].
      apply noneActive_lookup. intros k q Hq.
      apply lookup_take_Some in Hq as [Hq Hk]. apply (Hbetween k q); [lia|done]. }
    apply Hfields; by destruct (isMulti s).
Qed.

Lemma noneActive_fmap_idle (f : Player → Player) (l : list Player) :
  (∀ player, status (f player) = StIdle) → noneActive (f <$> l).
Proof.
  intros Hf. apply Forall_fmap, Forall_forall. intros q _. simpl.
  by rewrite Hf.
Qed.

Lemma click_invariant (rand : nat → nat) (e : Event) (s s' : State) :
  turnInvariant s → click rand e s = Return s' → turnInvariant s'.
Proof.
  intros Hinv. unfold click.
  destruct (offered s e) eqn:Hoff; [|by intros [= <-]].
  destruct e; cbn [handler].
  - by intros [= <-].
  - intros [= <-]. unfold turnInvariant.
    cbn [phase players handleLobbyStart setMessage setPot setRound setScreen setPhase
           setDealer setPlayers].
    unfold buildPlayers. apply Forall_fmap, Forall_forall. by intros q _.
  - intros [= <-]. apply turnInvariant_same_statuses; [|done].
    by apply mapAt_statuses.
  - intros [= <-]. apply turnInvariant_same_statuses; [|done].
    by apply mapAt_statuses.
  - intros [= <-]. apply turnInvariant_same_statuses; [|done].
    by apply mapAt_statuses.
  - by apply handleDeal_invariant.
  - apply handleHit_invariant; [|done].
    cbn [offered] in Hoff. apply andb_true_iff in Hoff as [_ Hph].
    by apply bool_decide_eq_true in Hph.
  - apply handleStand_invariant; [|done].
    cbn [offered] in Hoff. apply andb_true_iff in Hoff as [_ Hph].
    by apply bool_decide_eq_true in Hph.
  - intros [= <-]. unfold turnInvariant.
    cbn [phase players handleNextRound setMessage setRound setPhase setDealer setPlayers].
    by apply noneActive_fmap_idle.
Qed.

Lemma clicks_reachable (es : list ((nat → nat) * Event)) (s s' : State) :
  reachable s → clicks es s = Return s' → reachable s'.
Proof.
  revert s; induction es as [|[rand e] es IH]; intros s Hs.
  - by intros [= <-].
  - cbn [clicks]. destruct (click rand e s) as [s1|err] eqn:Hclick; [|done].
    unfold mbind, completion_bind. apply IH. by eapply reachable_click.
Qed.

Lemma stateAfter_reachable (rand : nat → nat) (es : list ((nat → nat) * Event)) :
  reachable (stateAfter rand es).
Proof.
  unfold stateAfter.
  destruct (clicks es (initialState rand)) as [s|err] eqn:Hclicks.
  - eapply clicks_reachable; [apply reachable_init|done].
  - apply reachable_init.
Qed.

(** C5, at the input where the code departs from it.  The replacement of
    the deck happens at the deal only, and only below fifteen cards; a round
    of four seats can need more.  The clicks of [exhaustingClicks] lead to a
    table in the [Playing] phase whose deck is empty while the acting index
    holds an active player (seat two, holding 16): there a hit draws no
    card, it throws a [TypeError]. *)
Theorem handleHit_throws_on_exhausted_deck :
  clicks exhaustingClicks (initialState keepOrder) = Return fourSeatsDeckEmpty
  ∧ reachable fourSeatsDeckEmpty
  ∧ length (players fourSeatsDeckEmpty) = 4%nat
  ∧ phase fourSeatsDeckEmpty = Playing
  ∧ deck fourSeatsDeckEmpty = []
  ∧ currentIndex fourSeatsDeckEmpty = 1
  ∧ (∃ player,
       at_index (players fourSeatsDeckEmpty) (currentIndex fourSeatsDeckEmpty)
       = Some player
       ∧ status player = StActive
       ∧ calculateHand (hand player) = 16)
  ∧ handleHit fourSeatsDeckEmpty = Throw TypeError
  ∧ click keepOrder Hit fourSeatsDeckEmpty = Throw TypeError.
Proof.
  split; [vm_compute; reflexivity|].
  split; [apply stateAfter_reachable|].
  do 4 (split; [vm_compute; reflexivity|]).
  split.
  - eexists. split; [vm_compute; reflexivity|]. split; reflexivity.
  - split; vm_compute; reflexivity.
Qed.

Lemma handleHit_guard (s : State) :
  (at_index (players s) (currentIndex s) = None
   ∨ ∃ player, at_index (players s) (currentIndex s) = Some player
               ∧ status player ≠ StActive) →
  handleHit s = Return s.
Proof.
  unfold handleHit. intros [->|(player & -> & Hst)]; [done|].
  by rewrite bool_decide_eq_false_2.
Qed.

(** C4.  [handleHit] carries the guard the claim asks for: it changes
    nothing, in any phase, when the acting index holds no player or a player
    whose status is not [active]; and outside the [Playing] phase neither
    control is rendered.  [handleStand] carries no guard.  At a table of four
    seats the last seat hits and busts on 22, the dealer's turn then runs
    out of cards and throws, and the table is left in the [Playing] phase
    with the bust player at the acting index and both controls rendered.
    There a hit changes nothing, but a stand marks the bust player [stand]
    (and throws again in the dealer's turn). *)
Theorem handleStand_rewrites_a_bust_hand :
  (∀ s : State,
     (at_index (players s) (currentIndex s) = None
      ∨ ∃ player, at_index (players s) (currentIndex s) = Some player
                  ∧ status player ≠ StActive) →
     handleHit s = Return s)
  ∧ (∀ (rand : nat → nat) (s : State),
       phase s ≠ Playing →
       click rand Hit s = Return s ∧ click rand Stand s = Return s)
  ∧ clicks bustingClicks (initialState keepOrder) = Return lastSeatToHit
  ∧ click keepOrder Hit lastSeatToHit = Throw TypeError
  ∧ reachable lastSeatBust
  ∧ screen lastSeatBust = Table
  ∧ phase lastSeatBust = Playing
  ∧ currentIndex lastSeatBust = 3
  ∧ offered lastSeatBust Hit = true
  ∧ offered lastSeatBust Stand = true
  ∧ ∃ player : Player,
      at_index (players lastSeatBust) (currentIndex lastSeatBust) = Some player
      ∧ status player = StBust
      ∧ calculateHand (hand player) = 22
      ∧ click keepOrder Hit lastSeatBust = Return lastSeatBust
      ∧ click keepOrder Stand lastSeatBust = Throw TypeError
      ∧ at_index (players (queuedBeforeThrow keepOrder Stand lastSeatBust))
                 (currentIndex lastSeatBust)
        = Some (withStatus StStand player)
      ∧ queuedBeforeThrow keepOrder Stand lastSeatBust ≠ lastSeatBust.
Proof.
  split; [exact handleHit_guard|]. split.
  { intros rand s Hphase. unfold click, offered, inPhase.
    rewrite (bool_decide_eq_false_2 (phase s = Playing)) by done.
    by rewrite andb_false_r. }
  split; [vm_compute; reflexivity|].
  assert (Hthrow : click keepOrder Hit lastSeatToHit = Throw TypeError)
    by (vm_compute; reflexivity).
  split; [exact Hthrow|]. split.
  { exact (reachable_throw keepOrder Hit lastSeatToHit TypeError
             (stateAfter_reachable keepOrder bustingClicks) Hthrow). }
  do 5 (split; [vm_compute; reflexivity|]).
  eexists. split; [vm_compute; reflexivity|].
  split; [reflexivity|]. split; [vm_compute; reflexivity|].
  split; [vm_compute; reflexivity|]. split; [vm_compute; reflexivity|].
  split; [vm_compute; reflexivity|].
  intros Heq. apply (f_equal (λ s, status <$> players s)) in Heq.
  vm_compute in Heq. discriminate.
Qed.

(** ** Clicks that throw *)

Lemma advanceTurn_Throw (s : State) (nextPlayers : list Player) (nextDealer : Dealer)
    (nextDeck : list Card) (nextPot : Q) (err : Error) :
  0 <= currentIndex s →
  advanceTurn s nextPlayers nextDealer nextDeck nextPot = Throw err →
  (∀ (k : nat) (q : Player),
     currentIndex s < Z.of_nat k → nextPlayers !! k = Some q → status q ≠ StActive)
  ∧ dealerDraws (dealerHand nextDealer) nextDeck = Throw TypeError.
Proof.
  intros Hpos.
  destruct (advanceTurn_spec s nextPlayers nextDealer nextDeck nextPot Hpos)
    as [(j & p & -> & _)|[-> Hafter]]; [done|].
  intros Hthrow. split; [done|].
  destruct (dealerDraws (dealerHand nextDealer) nextDeck) as [[finalHand deck']|[]] eqn:Hdraw;
    [|done].
  by rewrite (handleDealerTurn_settled _ _ _ _ _ _ _ Hdraw) in Hthrow.
Qed.

Lemma queuedBeforeThrow_Deal (rand : nat → nat) (s : State) (nextDeck : list Card)
    (dealtPlayers : list Player) (nextDealer : Dealer) :
  dealInitial rand (deck s) (reservePlayers (players s))
  = Return (nextDeck, dealtPlayers, nextDealer) →
  queuedBeforeThrow rand Deal s = dealtState s dealtPlayers nextDealer nextDeck.
Proof.
  intros Hdeal. unfold queuedBeforeThrow, dealtState, potAfterDeal. rewrite Hdeal.
  by destruct (isMulti s).
Qed.

Lemma queuedBeforeThrow_Hit (rand : nat → nat) (s : State) (player : Player)
    (card : Card) (next : list Card) :
  at_index (players s) (currentIndex s) = Some player →
  status player = StActive →
  drawCard (deck s) = (Some card, next) →
  queuedBeforeThrow rand Hit s
  = setPlayers (<[Z.to_nat (currentIndex s) := playerAfterHit player card]> (players s))
               (setDeck next s).
Proof.
  intros Hat Hact Hdraw. unfold queuedBeforeThrow. rewrite Hat, Hdraw.
  rewrite (mapAt_insert _ _ _ _ Hat).
  unfold playerAfterHit, statusAfterHit.
  set (total := calculateHand (hand player ++ [card])).
  destruct (21 <? total); [by rewrite alter_after_insert|].
  destruct (total =? 21); [by rewrite alter_after_insert|].
  do 2 f_equal. destruct player. simpl in *. by subst.
Qed.

(** A click that throws leaves the state [queuedBeforeThrow] gives, in one of
    the five ways of [leftByThrow]. *)
Lemma click_Throw (rand : nat → nat) (e : Event) (s : State) (err : Error) :
  0 <= currentIndex s →
  click rand e s = Throw err →
  leftByThrow rand s e (queuedBeforeThrow rand e s).
Proof.
  intros Hpos. unfold click.
  destruct (offered s e) eqn:Hoff; [|done].
  destruct e; cbn [handler offered] in *; try done;
    apply andb_true_iff in Hoff as [Hscreen%bool_decide_eq_true Hphase%bool_decide_eq_true].
  - (* Deal *)
    unfold handleDeal.
    destruct (existsb invalidBet (players s)) eqn:Hvalid; [done|].
    destruct (dealInitial rand (deck s) (reservePlayers (players s)))
      as [[[nextDeck dealtPlayers] nextDealer]|[]] eqn:Hdeal.
    2:{ intros _. unfold queuedBeforeThrow. rewrite Hdeal. by constructor. }
    rewrite (queuedBeforeThrow_Deal _ _ _ _ _ Hdeal).
    unfold mbind at 1, completion_bind at 1.
    destruct (nextActiveIndex_spec dealtPlayers (-1) ltac:(lia))
      as (j & -> & [[-> Hnone]|(Hlt & _)]); unfold mbind, completion_bind.
    2:{ by destruct (Z.eqb_spec j (-1)); [lia|]. }
    change (-1 =? -1) with true. cbv iota. intros Hthrow.
    apply deal_throws_in_dealer_turn; try done.
    + apply noneActive_lookup. intros k q Hq. apply (Hnone k q); [lia|done].
    + destruct (dealerDraws (dealerHand nextDealer) nextDeck)
        as [[finalHand deck']|[]] eqn:Hdraw; [|done].
      by rewrite (handleDealerTurn_settled _ _ _ _ _ _ _ Hdraw) in Hthrow.
  - (* Hit *)
    destruct (at_index (players s) (currentIndex s)) as [player|] eqn:Hat.
    2:{ rewrite handleHit_guard by (by left). done. }
    destruct (decide (status player = StActive)) as [Hact|Hnot].
    2:{ rewrite handleHit_guard by (right; eauto). done. }
    destruct (drawCard (deck s)) as [[card|] next] eqn:Hdraw.
    2:{ intros _. unfold queuedBeforeThrow. rewrite Hat, Hdraw.
        apply drawCard_None in Hdraw as [Hempty _].
        by apply (hit_throws_drawing rand s player). }
    rewrite (queuedBeforeThrow_Hit _ _ _ _ _ Hat Hact Hdraw).
    rewrite (handleHit_step s player card next Hat Hact Hdraw). cbv zeta.
    destruct (Z.ltb_spec (calculateHand (hand player ++ [card])) 21) as [Hlt|Hge]; [done|].
    intros Hthrow. apply advanceTurn_Throw in Hthrow as [Hafter Hdealer]; [|done].
    apply hit_throws_in_dealer_turn; try done.
    + by apply drawCard_Some.
    + intros k q Hk Hq. apply (Hafter k q); [done|].
      cbn [currentIndex setPlayers setDeck] in Hk.
      rewrite list_lookup_insert_ne by lia. done.
  - (* Stand *)
    unfold handleStand. intros Hthrow.
    apply advanceTurn_Throw in Hthrow as [Hafter Hdealer]; [|done].
    cbn [queuedBeforeThrow]. apply stand_throws_in_dealer_turn; try done.
    intros k q Hk Hq. cbn [currentIndex setPlayers] in Hafter.
    assert (Hq' : mapAt (currentIndex s) (withStatus StStand) (players s) !! k = Some q).
    { rewrite mapAt_lookup, Hq. simpl. by destruct (Z.eqb_spec (Z.of_nat k) (currentIndex s)); [lia|]. }
    by apply (Hafter k q).
Qed.

(** The acting index is never negative. *)
Lemma advanceTurn_index (s s' : State) (nextPlayers : list Player) (nextDealer : Dealer)
    (nextDeck : list Card) (nextPot : Q) :
  0 <= currentIndex s →
  advanceTurn s nextPlayers nextDealer nextDeck nextPot = Return s' →
  0 <= currentIndex s'.
Proof.
  intros Hpos.
  destruct (advanceTurn_spec s nextPlayers nextDealer nextDeck nextPot Hpos)
    as [(j & p & -> & Hlt & _)|[-> _]].
  - intros [= <-]. cbn [currentIndex setCurrentIndex]. lia.
  - by intros (finalHand & deck' & _ & ->)%handleDealerTurn_inv.
Qed.

Lemma click_index (rand : nat → nat) (e : Event) (s s' : State) :
  0 <= currentIndex s → click rand e s = Return s' → 0 <= currentIndex s'.
Proof.
  intros Hpos. unfold click.
  destruct (offered s e); [|by intros [= <-]].
  destruct e; cbn [handler]; try (by intros [= <-]).
  - unfold handleDeal.
    destruct (existsb invalidBet (players s)); [by intros [= <-]|].
    destruct (dealInitial rand (deck s) (reservePlayers (players s)))
      as [[[nextDeck dealtPlayers] nextDealer]|err]; [|done].
    unfold mbind at 1, completion_bind at 1.
    destruct (nextActiveIndex_spec dealtPlayers (-1) ltac:(lia))
      as (j & -> & [[-> _]|(Hlt & _)]); unfold mbind, completion_bind.
    + change (-1 =? -1) with true. cbv iota.
      intros (finalHand & deck' & _ & ->)%handleDealerTurn_inv.
      cbn [currentIndex settledState]. by destruct (isMulti s).
    + destruct (Z.eqb_spec j (-1)); [lia|]. intros [= <-].
      cbn [currentIndex setCurrentIndex]. lia.
  - destruct (at_index (players s) (currentIndex s)) as [player|] eqn:Hat.
    2:{ rewrite handleHit_guard by (by left). by intros [= <-]. }
    destruct (decide (status player = StActive)) as [Hact|Hnot].
    2:{ rewrite handleHit_guard by (right; eauto). by intros [= <-]. }
    destruct (drawCard (deck s)) as [[card|] next] eqn:Hdraw.
    2:{ unfold handleHit. by rewrite Hat, Hact, Hdraw. }
    rewrite (handleHit_step s player card next Hat Hact Hdraw). cbv zeta.
    destruct (_ <? 21); [by intros [= <-]|].
    by apply advanceTurn_index.
  - unfold handleStand. by apply advanceTurn_index.
Qed.

Lemma queuedBeforeThrow_index (rand : nat → nat) (e : Event) (s : State) :
  currentIndex (queuedBeforeThrow rand e s) = currentIndex s.
Proof.
  destruct e; try done; cbn [queuedBeforeThrow].
  - destruct (dealInitial _ _ _) as [[[nextDeck dealtPlayers] nextDealer]|err]; [|done].
    by destruct (isMulti s).
  - destruct (at_index _ _); [|done]. by destruct (drawCard _) as [[card|] next].
Qed.

Lemma reachable_index (s : State) : reachable s → 0 <= currentIndex s.
Proof.
  induction 1 as [rand|rand e s s' _ IH Hclick|rand e s err _ IH _].
  - done.
  - by eapply click_index.
  - by rewrite queuedBeforeThrow_index.
Qed.

(** The state a throwing click leaves at a table the controls lead to. *)
Lemma reachable_leftByThrow (rand : nat → nat) (e : Event) (s : State) (err : Error) :
  reachable s → click rand e s = Throw err →
  leftByThrow rand s e (queuedBeforeThrow rand e s).
Proof. intros Hreach. apply click_Throw. by apply reachable_index. Qed.

(** ** Bets *)

Lemma betAdjust_lookup (index : Z) (f : Player → Q) (l : list Player) (k : nat) :
  mapAt index (λ player, withBet (f player) player) l !! k
  = (λ player, if Z.of_nat k =? index then withBet (f player) player else player)
    <$> l !! k.
Proof.
  rewrite mapAt_lookup. destruct (l !! k); [|done]. simpl.
  by destruct (Z.of_nat k =? index).
Qed.

Lemma betAdjust_within (index : Z) (f : Player → Q) (l : list Player) :
  (∀ player, betWithinChips player → 0 <= f player ∧ f player <= chips player)%Q →
  Forall betWithinChips l →
  Forall betWithinChips (mapAt index (λ player, withBet (f player) player) l).
Proof.
  intros Hf Hl. apply Forall_lookup. intros k q Hq.
  rewrite betAdjust_lookup in Hq.
  destruct (l !! k) as [p|] eqn:Hp; [|done]. injection Hq as <-.
  pose proof (proj1 (Forall_lookup _ _) Hl k p Hp) as Hwithin.
  destruct (Z.of_nat k =? index); [|done].
  unfold betWithinChips. cbn [bet chips withBet]. by apply Hf.
Qed.

Lemma handleBetAdd_within (index : Z) (amount : Q) (s : State) :
  (0 <= amount)%Q → betsWithinChips s → betsWithinChips (handleBetAdd index amount s).
Proof.
  intros Hamount. unfold betsWithinChips, handleBetAdd. cbn [players setPlayers].
  apply (betAdjust_within index (λ player, Qmin (chips player) (bet player + amount))).
  intros player [Hpos Hle]. split.
  - apply Q.min_glb; lra.
  - apply Q.le_min_l.
Qed.

Lemma handleBetClear_within (index : Z) (s : State) :
  betsWithinChips s → betsWithinChips (handleBetClear index s).
Proof.
  unfold betsWithinChips, handleBetClear. cbn [players setPlayers].
  apply (betAdjust_within index (λ _, 0%Q)).
  intros player [Hpos Hle]. split; lra.
Qed.

Lemma handleBetAllIn_within (index : Z) (s : State) :
  betsWithinChips s → betsWithinChips (handleBetAllIn index s).
Proof.
  unfold betsWithinChips, handleBetAllIn. cbn [players setPlayers].
  apply (betAdjust_within index (λ player, chips player)).
  intros player [Hpos Hle]. split; lra.
Qed.

Lemma betAdjustments_within (s s' : State) :
  betsWithinChips s → betAdjustments s s' → betsWithinChips s'.
Proof.
  intros Hs. induction 1;
    auto using handleBetAdd_within, handleBetClear_within, handleBetAllIn_within.
Qed.

Lemma invalid_within_is_zero (s : State) :
  betsWithinChips s →
  (existsb invalidBet (players s) = true
   ↔ ∃ player, player ∈ players s ∧ (bet player == 0)%Q).
Proof.
  intros Hs. rewrite invalid_some_player. split.
  - intros (player & Hin & Hbad). exists player. split; [done|].
    destruct (proj1 (Forall_forall _ _) Hs player Hin) as [Hpos Hle].
    destruct (Qlt_le_dec 0 (bet player)) as [Hlt|Hge].
    + destruct Hbad. by split.
    + by apply Qle_antisym.
  - intros (player & Hin & Hzero). exists player. split; [done|].
    intros [Hpos _]. rewrite Hzero in Hpos. by apply Qlt_irrefl in Hpos.
Qed.

(** C10. Adding a chip denomination, clearing and going all-in each keep
    every player's bet between 0 and the player's chips, and change nothing
    but the bet of the player at the given index: adding sets that bet to
    the smaller of the chips and the bet plus the amount, all-in sets it to
    the chips, clearing sets it to 0.  Hence, when the bets are placed by
    these operations from bets within the chips, [handleDeal] can reject
    only because some bet is 0: no bet exceeds its player's chips. *)
Theorem bet_adjustments_stay_within_chips :
  (∀ (index : Z) (amount : Q) (s : State),
     (0 <= amount)%Q → betsWithinChips s → betsWithinChips (handleBetAdd index amount s))
  ∧ (∀ (index : Z) (s : State),
       betsWithinChips s →
       betsWithinChips (handleBetClear index s) ∧ betsWithinChips (handleBetAllIn index s))
  ∧ Forall (λ amount, 0 < amount)%Q CHIP_VALUES
  ∧ (∀ (index : Z) (amount : Q) (s : State) (k : nat),
       handleBetAdd index amount s
       = setPlayers (players (handleBetAdd index amount s)) s
       ∧ handleBetClear index s = setPlayers (players (handleBetClear index s)) s
       ∧ handleBetAllIn index s = setPlayers (players (handleBetAllIn index s)) s
       ∧ players (handleBetAdd index amount s) !! k
         = (λ player,
              if Z.of_nat k =? index
              then withBet (Qmin (chips player) (bet player + amount)) player
              else player) <$> players s !! k
       ∧ players (handleBetClear index s) !! k
         = (λ player, if Z.of_nat k =? index then withBet 0 player else player)
           <$> players s !! k
       ∧ players (handleBetAllIn index s) !! k
         = (λ player, if Z.of_nat k =? index then withBet (chips player) player else player)
           <$> players s !! k)
  ∧ (∀ (rand : nat → nat) (s s' : State),
       betsWithinChips s → betAdjustments s s' →
       betsWithinChips s'
       ∧ (∀ player, player ∈ players s' → ¬ (chips player < bet player)%Q)
       ∧ (handleDeal rand s' = Return (setMessage MsgInvalidBet s')
          ↔ ∃ player, player ∈ players s' ∧ (bet player == 0)%Q)).
Proof.
  split; [exact handleBetAdd_within|]. split.
  { intros index s Hs. split; [by apply handleBetClear_within|by apply handleBetAllIn_within]. }
  split.
  { unfold CHIP_VALUES. repeat constructor. }
  split.
  { intros index amount s k.
    do 3 (split; [reflexivity|]).
    unfold handleBetAdd, handleBetClear, handleBetAllIn. cbn [players setPlayers].
    split; [|split].
    - apply (betAdjust_lookup index (λ player, Qmin (chips player) (bet player + amount))).
    - apply (betAdjust_lookup index (λ _, 0%Q)).
    - apply (betAdjust_lookup index (λ player, chips player)). }
  intros rand s s' Hs Hadj.
  pose proof (betAdjustments_within s s' Hs Hadj) as Hs'.
  split; [done|]. split.
  - intros player Hin Hgt.
    destruct (proj1 (Forall_forall _ _) Hs' player Hin) as [_ Hle].
    by apply Qlt_not_le in Hgt.
  - rewrite <- (invalid_within_is_zero s' Hs'). split.
    + intros Hrej. destruct (existsb invalidBet (players s')) eqn:Hinv; [done|].
      unfold handleDeal in Hrej. rewrite Hinv in Hrej.
      destruct (dealInitial rand (deck s') (reservePlayers (players s')))
        as [[[nextDeck dealtPlayers] nextDealer]|e]; [|done].
      unfold mbind, completion_bind, nextActiveIndex in Hrej.
      change (-1 + 1 <? 0) with false in Hrej. cbv iota in Hrej.
      destruct (scanActive _ _ =? -1).
      * apply handleDealerTurn_inv in Hrej as (finalHand & nextDeck' & _ & Heq).
        apply (f_equal message) in Heq. done.
      * apply Return_inj, (f_equal message) in Hrej.
        by destruct (isMulti s').
    + apply handleDeal_rejects.
Qed.

(** ** The general statements at concrete tables *)

Lemma resolveResult_follows_precedence_witness :
  ∃ s' : State,
    handleDealerTurn soloTableDealt (players soloTableDealt) (dealer soloTableDealt)
      (deck soloTableDealt) (pot soloTableDealt) = Return s'
    ∧ result <$> players s' !! 0%nat = Some ResPush.
Proof.
  destruct (handleDealerTurn soloTableDealt (players soloTableDealt)
              (dealer soloTableDealt) (deck soloTableDealt) (pot soloTableDealt))
    as [s'|e] eqn:Hturn; [|vm_compute in Hturn; discriminate].
  exists s'. split; [reflexivity|].
  pose proof (proj2 resolveResult_follows_precedence _ _ _ _ _ _ 0%nat Hturn) as Hres.
  vm_compute in Hturn. apply Return_inj in Hturn. subst s'.
  rewrite Hres. vm_compute. reflexivity.
Defined.


Lemma solo_settlement_pays_multiplier_witness :
  isMulti soloTableDealt = false
  ∧ ∃ (finalHand nextDeck : list Card) (s' : State) (player player' : Player),
      dealerDraws (dealerHand (dealer soloTableDealt)) (deck soloTableDealt)
      = Return (finalHand, nextDeck)
      ∧ handleDealerTurn soloTableDealt (players soloTableDealt) (dealer soloTableDealt)
          (deck soloTableDealt) (pot soloTableDealt) = Return s'
      ∧ phase s' = RoundEnd
      ∧ players soloTableDealt !! 0%nat = Some player
      ∧ players s' !! 0%nat = Some player'
      ∧ (∀ r, soloAmountsExact player r)
      ∧ (chips player'
         == chips player + bet player * payoutMultiplier (result player'))%Q.
Proof.
  assert (Hsolo : isMulti soloTableDealt = false) by (vm_compute; reflexivity).
  destruct (dealerDraws (dealerHand (dealer soloTableDealt)) (deck soloTableDealt))
    as [[finalHand nextDeck]|e] eqn:Hdraw; [|vm_compute in Hdraw; discriminate].
  split; [exact Hsolo|].
  destruct (players soloTableDealt !! 0%nat) as [player|] eqn:Hplayer;
    [|vm_compute in Hplayer; discriminate].
  assert (Hexact : ∀ r, soloAmountsExact player r).
  { vm_compute in Hplayer. injection Hplayer as <-.
    intros r. unfold soloAmountsExact. cbn [chips bet roundStartChips].
    destruct r; (split; [|split]); apply representable_floor; vm_compute; reflexivity. }
  destruct (proj1 solo_settlement_pays_multiplier soloTableDealt
              (players soloTableDealt) (dealer soloTableDealt) (deck soloTableDealt)
              (pot soloTableDealt) finalHand nextDeck Hsolo Hdraw)
    as (s' & Hturn & Hphase & _ & Hall).
  destruct (Hall 0%nat player Hplayer) as (player' & Hp' & _ & Hpaid).
  exists finalHand, nextDeck, s', player, player'.
  split; [reflexivity|]. split; [exact Hturn|]. split; [exact Hphase|].
  split; [reflexivity|]. split; [exact Hp'|]. split; [exact Hexact|].
  exact (proj1 (Hpaid (Hexact (result player')))).
Defined.

Lemma drawCard_pops_last_witness :
  ∃ player : Player,
    at_index (players (setDeck [] soloTableDealt))
             (currentIndex (setDeck [] soloTableDealt)) = Some player
    ∧ status player = StActive
    ∧ deck (setDeck [] soloTableDealt) = []
    ∧ handleHit (setDeck [] soloTableDealt) = Throw TypeError.
Proof.
  destruct (at_index (players (setDeck [] soloTableDealt))
                     (currentIndex (setDeck [] soloTableDealt)))
    as [player|] eqn:Hat; [|vm_compute in Hat; discriminate].
  assert (Hst : status player = StActive).
  { vm_compute in Hat. by injection Hat as <-. }
  exists player. split; [reflexivity|]. split; [exact Hst|]. split; [reflexivity|].
  destruct drawCard_pops_last as (_ & _ & _ & Hthrows).
  exact (Hthrows (setDeck [] soloTableDealt) player Hat Hst eq_refl).
Defined.

Lemma bet_adjustments_stay_within_chips_witness :
  betsWithinChips (stateAfter keepOrder [(keepOrder, OpenTable)])
  ∧ betAdjustments (stateAfter keepOrder [(keepOrder, OpenTable)])
      (handleBetAdd 0 100 (stateAfter keepOrder [(keepOrder, OpenTable)]))
  ∧ betsWithinChips (handleBetAdd 0 100 (stateAfter keepOrder [(keepOrder, OpenTable)]))
  ∧ ∃ player,
      player ∈ players (handleBetAdd 0 100 (stateAfter keepOrder [(keepOrder, OpenTable)]))
      ∧ (bet player == 0)%Q.
Proof.
  assert (Hs : betsWithinChips (stateAfter keepOrder [(keepOrder, OpenTable)])).
  { unfold betsWithinChips. vm_compute. repeat constructor; discriminate. }
  assert (Hadj : betAdjustments (stateAfter keepOrder [(keepOrder, OpenTable)])
                   (handleBetAdd 0 100 (stateAfter keepOrder [(keepOrder, OpenTable)]))).
  { apply adjust_add; [apply adjust_none|discriminate]. }
  destruct (proj2 (proj2 (proj2 (proj2 bet_adjustments_stay_within_chips)))
              keepOrder _ _ Hs Hadj) as (Hs' & _ & Hreject).
  split; [exact Hs|]. split; [exact Hadj|]. split; [exact Hs'|].
  apply Hreject. apply handleDeal_rejects. vm_compute. reflexivity.
Defined.

(** ** Player ids in reachable states *)

Lemma buildPlayers_ids (count : Z) (existing : list Player) :
  id <$> buildPlayers count existing
  = (λ index : nat, Z.of_nat index + 1) <$> seq 0 (Z.to_nat count).
Proof.
  unfold buildPlayers. rewrite <- list_fmap_compose. by apply list_fmap_ext.
Qed.

Lemma buildPlayers_ids_NoDup (count : Z) (existing : list Player) :
  NoDup (id <$> buildPlayers count existing).
Proof.
  rewrite buildPlayers_ids. apply NoDup_fmap_2; [|apply NoDup_seq].
  intros i j Hij. lia.
Qed.

Lemma mapAt_ids (index : Z) (f : Player → Player) (l : list Player) :
  (∀ player, id (f player) = id player) → id <$> mapAt index f l = id <$> l.
Proof.
  intros Hf. apply list_eq. intros i.
  rewrite !list_lookup_fmap, mapAt_lookup.
  destruct (l !! i) as [q|]; [|done]. simpl.
  by destruct (Z.of_nat i =? index); rewrite ?Hf.
Qed.

Lemma settledState_ids (s : State) (currentPlayers : list Player)
    (finalHand nextDeck : list Card) (nextPot : Q) :
  id <$> players (settledState s currentPlayers finalHand nextDeck nextPot)
  = id <$> currentPlayers.
Proof.
  unfold settledState. cbn [players].
  destruct (isMulti s); unfold pooledFinalPlayers, soloFinalPlayers, resolvePlayers;
    rewrite <- !list_fmap_compose; by apply list_fmap_ext.
Qed.

Lemma dealPlayers_ids (nextDeck deck' : list Card) (dealtPlayers dealt' : list Player) :
  dealPlayers nextDeck dealtPlayers = Return (dealt', deck') →
  id <$> dealt' = id <$> dealtPlayers.
Proof.
  revert nextDeck dealt' deck'.
  induction dealtPlayers as [|player rest IH]; intros nextDeck dealt' deck'.
  - by intros [= <- <-].
  - cbn [dealPlayers]. destruct (drawCard nextDeck) as [[card|] next]; [|done].
    destruct (dealPlayers next rest) as [[rest' deck1]|e] eqn:Hrest; [|done].
    unfold mbind, completion_bind. intros [= <- <-].
    rewrite !fmap_cons. f_equal. by eapply IH.
Qed.

Lemma dealPass_ids (st st' : list Card * list Player * Dealer) :
  dealPass st = Return st' → id <$> st'.1.2 = id <$> st.1.2.
Proof.
  destruct st as [[nextDeck dealtPlayers] nextDealer]. unfold dealPass.
  destruct (dealPlayers nextDeck dealtPlayers) as [[dealt' deck1]|e] eqn:Hdeal; [|done].
  unfold mbind, completion_bind.
  destruct (drawCard deck1) as [[card|] next]; [|done].
  intros [= <-]. simpl. by eapply dealPlayers_ids.
Qed.

Lemma dealInitial_ids (rand : nat → nat) (preparedDeck nextDeck : list Card)
    (preparedPlayers dealtPlayers : list Player) (nextDealer : Dealer) :
  dealInitial rand preparedDeck preparedPlayers
  = Return (nextDeck, dealtPlayers, nextDealer) →
  id <$> dealtPlayers = id <$> preparedPlayers.
Proof.
  unfold dealInitial.
  destruct (dealPass _) as [st1|e] eqn:Hpass1; [|done].
  unfold mbind at 1, completion_bind at 1.
  destruct (dealPass st1) as [[[deck2 dealt2] dealer2]|e] eqn:Hpass2; [|done].
  unfold mbind, completion_bind. intros [= <- <- <-].
  apply dealPass_ids in Hpass1, Hpass2. simpl in Hpass1, Hpass2.
  rewrite <- list_fmap_compose.
  transitivity (id <$> dealt2).
  { apply list_fmap_ext. intros i q _. simpl. by destruct (isBlackjack (hand q)). }
  rewrite Hpass2, Hpass1, <- list_fmap_compose. by apply list_fmap_ext.
Qed.

Lemma advanceTurn_ids (s s' : State) (nextPlayers : list Player) (nextDealer : Dealer)
    (nextDeck : list Card) (nextPot : Q) :
  players s = nextPlayers →
  advanceTurn s nextPlayers nextDealer nextDeck nextPot = Return s' →
  id <$> players s' = id <$> nextPlayers.
Proof.
  intros Hplayers. unfold advanceTurn.
  destruct (nextActiveIndex nextPlayers (currentIndex s)) as [j|e]; [|done].
  unfold mbind, completion_bind. destruct (j =? -1).
  - intros (finalHand & deck' & _ & ->)%handleDealerTurn_inv.
    apply settledState_ids.
  - intros [= <-]. by rewrite <- Hplayers.
Qed.

Lemma handleHit_ids (s s' : State) :
  handleHit s = Return s' → id <$> players s' = id <$> players s.
Proof.
  destruct (at_index (players s) (currentIndex s)) as [player|] eqn:Hat.
  2:{ rewrite handleHit_guard by (by left). by intros [= <-]. }
  destruct (decide (status player = StActive)) as [Hact|Hnot].
  2:{ rewrite handleHit_guard by (right; eauto). by intros [= <-]. }
  destruct (drawCard (deck s)) as [[card|] next] eqn:Hdraw.
  2:{ unfold handleHit. by rewrite Hat, Hact, Hdraw. }
  rewrite (handleHit_step s player card next Hat Hact Hdraw). cbv zeta.
  assert (Hids : id <$> <[Z.to_nat (currentIndex s) := playerAfterHit player card]>
                          (players s) = id <$> players s).
  { rewrite list_fmap_insert. apply list_insert_id.
    apply at_index_Some in Hat as [_ Hat]. by rewrite list_lookup_fmap, Hat. }
  destruct (_ <? 21).
  - by intros [= <-].
  - intros Hadv. apply advanceTurn_ids in Hadv; [|done]. by rewrite Hadv.
Qed.

Lemma handleStand_ids (s s' : State) :
  handleStand s = Return s' → id <$> players s' = id <$> players s.
Proof.
  unfold handleStand. intros Hadv. apply advanceTurn_ids in Hadv; [|done].
  rewrite Hadv. by apply mapAt_ids.
Qed.

Lemma handleDeal_ids (rand : nat → nat) (s s' : State) :
  handleDeal rand s = Return s' → id <$> players s' = id <$> players s.
Proof.
  unfold handleDeal.
  destruct (existsb invalidBet (players s)); [by intros [= <-]|].
  destruct (dealInitial rand (deck s) (reservePlayers (players s)))
    as [[[nextDeck dealtPlayers] nextDealer]|e] eqn:Hdeal; [|done].
  apply dealInitial_ids in Hdeal.
  assert (Hres : id <$> reservePlayers (players s) = id <$> players s).
  { unfold reservePlayers. rewrite <- list_fmap_compose. by apply list_fmap_ext. }
  unfold mbind, completion_bind, nextActiveIndex.
  change (-1 + 1 <? 0) with false. cbv iota.
  destruct (scanActive _ _ =? -1).
  - intros (finalHand & deck' & _ & ->)%handleDealerTurn_inv.
    by rewrite settledState_ids, Hdeal.
  - intros Heq%Return_inj. subst s'.
    destruct (isMulti s); cbn [players setCurrentIndex setPot setMessage setPhase
                                 setDealer setPlayers setDeck]; by rewrite Hdeal.
Qed.

Lemma click_ids_NoDup (rand : nat → nat) (e : Event) (s s' : State) :
  NoDup (id <$> players s) → click rand e s = Return s' → NoDup (id <$> players s').
Proof.
  intros Hnd. unfold click.
  destruct (offered s e); [|by intros [= <-]].
  destruct e; cbn [handler].
  - by intros [= <-].
  - intros [= <-]. apply buildPlayers_ids_NoDup.
  - intros [= <-]. unfold handleBetAdd. cbn [players setPlayers].
    by rewrite mapAt_ids.
  - intros [= <-]. unfold handleBetClear. cbn [players setPlayers].
    by rewrite mapAt_ids.
  - intros [= <-]. unfold handleBetAllIn. cbn [players setPlayers].
    by rewrite mapAt_ids.
  - intros Hdeal. by rewrite (handleDeal_ids _ _ _ Hdeal).
  - intros Hhit. by rewrite (handleHit_ids _ _ Hhit).
  - intros Hstand. by rewrite (handleStand_ids _ _ Hstand).
  - intros [= <-]. unfold handleNextRound.
    cbn [players setMessage setRound setPhase setDealer setPlayers].
    rewrite <- list_fmap_compose.
    match goal with
    | |- NoDup (?f <$> players s) =>
        replace (f <$> players s) with (id <$> players s);
        [done|by apply list_fmap_ext]
    end.
Qed.

Lemma leftByThrow_ids (rand : nat → nat) (e : Event) (s s' : State) :
  leftByThrow rand s e s' → id <$> players s' = id <$> players s.
Proof.
  destruct 1 as [| nextDeck dealtPlayers nextDealer _ _ _ Hdeal _ _
                 | | player card next _ _ Hat _ _ _ _ _ | ]; try done.
  - cbn [players dealtState]. rewrite (dealInitial_ids _ _ _ _ _ _ Hdeal).
    unfold reservePlayers. rewrite <- list_fmap_compose. by apply list_fmap_ext.
  - cbn [players setPlayers]. rewrite list_fmap_insert. apply list_insert_id.
    apply at_index_Some in Hat as [_ Hat]. by rewrite list_lookup_fmap, Hat.
  - cbn [players setPlayers]. by apply mapAt_ids.
Qed.

(** Every table the controls lead to seats players with distinct ids. *)
Lemma reachable_ids_NoDup (s : State) : reachable s → NoDup (id <$> players s).
Proof.
  induction 1 as [rand|rand e s s' _ IH Hclick|rand e s err Hreach IH Hclick].
  - constructor.
  - by eapply click_ids_NoDup.
  - by rewrite (leftByThrow_ids _ _ _ _ (reachable_leftByThrow _ _ _ _ Hreach Hclick)).
Qed.

(** * Further properties of the engine *)

(** ** The deck: creation, shuffling, replacement *)

Lemma swapCells_Permutation (i j : nat) (deck : list Card) :
  swapCells i j deck ≡ₚ deck.
Proof.
  unfold swapCells.
  destruct (deck !! i) as [a|] eqn:Hi; [|done].
  destruct (deck !! j) as [b|] eqn:Hj; [|done].
  by apply Permutation_insert_swap.
Qed.

Lemma shuffleFrom_Permutation (rand : nat → nat) (i : nat) (deck : list Card) :
  shuffleFrom rand i deck ≡ₚ deck.
Proof.
  revert deck; induction i as [|i IH]; intros deck; [done|].
  cbn [shuffleFrom]. rewrite IH. apply swapCells_Permutation.
Qed.

Lemma shuffle_Permutation (rand : nat → nat) (cards : list Card) :
  shuffle rand cards ≡ₚ cards.
Proof. apply shuffleFrom_Permutation. Qed.

(** X2. Whatever the random source, [shuffle] returns a permutation of the
    cards it is given: the same cards, each as often as before, hence as
    many; and every cell it exchanges lies within the array. *)
Theorem shuffle_is_permutation (rand : nat → nat) (cards : list Card) :
  shuffle rand cards ≡ₚ cards
  ∧ length (shuffle rand cards) = length cards
  ∧ (∀ card, card ∈ shuffle rand cards ↔ card ∈ cards)
  ∧ (NoDup cards → NoDup (shuffle rand cards))
  ∧ ∀ i : nat, (0 < i < length cards)%nat →
      (rand i `mod` (i + 1) < length cards)%nat.
Proof.
  assert (Hperm : shuffle rand cards ≡ₚ cards) by apply shuffleFrom_Permutation.
  split; [done|]. split; [by rewrite Hperm|]. split; [by intros; rewrite Hperm|].
  split; [by rewrite Hperm|].
  intros i Hi. pose proof (Nat.mod_upper_bound (rand i) (i + 1)). lia.
Qed.

Lemma createDeck_NoDup : NoDup createDeck.
Proof. apply (bool_decide_unpack _). vm_compute. exact I. Qed.

Lemma createDeck_all (s : Suit) (r : Rank) : cardOf s r ∈ createDeck.
Proof. apply list_elem_of_In. destruct s, r; vm_compute; tauto. Qed.

Lemma createDeck_cardOf (card : Card) :
  card ∈ createDeck → card = cardOf (suit card) (rank card).
Proof.
  intros Hin. apply list_elem_of_In in Hin. vm_compute in Hin.
  repeat (destruct Hin as [<- | Hin]; [reflexivity|]). destruct Hin.
Qed.

(** X3. A fresh deck, [shuffle(createDeck())] under any random source,
    holds 52 cards without repetition: for every suit and rank exactly the
    card of that suit and rank with the value [createDeck] derives from the
    rank (Ace 11, J, Q and K 10, the others their number), and nothing
    else. *)
Theorem fresh_deck_is_complete (rand : nat → nat) :
  length (shuffle rand createDeck) = 52%nat
  ∧ NoDup (shuffle rand createDeck)
  ∧ (∀ (s : Suit) (r : Rank), cardOf s r ∈ shuffle rand createDeck)
  ∧ (∀ card : Card,
       card ∈ shuffle rand createDeck →
       card = cardOf (suit card) (rank card) ∧ value card = nominalValue (rank card))
  ∧ ∀ r : Rank,
      length (filter (λ card, rank card = r) (shuffle rand createDeck)) = 4%nat.
Proof.
  pose proof (shuffle_Permutation rand createDeck) as Hperm.
  assert (Hin : ∀ card, card ∈ shuffle rand createDeck ↔ card ∈ createDeck)
    by (by intros; rewrite Hperm).
  split; [by rewrite Hperm|]. split; [rewrite Hperm; apply createDeck_NoDup|].
  split; [intros s r; apply Hin, createDeck_all|]. split.
  - intros card Hc%Hin.
    split; [by apply createDeck_cardOf|by apply createDeck_nominal].
  - intros r. rewrite Hperm. by destruct r; vm_compute.
Qed.

Lemma dealPlayers_deck_length (nextDeck deck' : list Card)
    (dealtPlayers dealt' : list Player) :
  dealPlayers nextDeck dealtPlayers = Return (dealt', deck') →
  length nextDeck = (length deck' + length dealtPlayers)%nat.
Proof.
  revert nextDeck dealt' deck'.
  induction dealtPlayers as [|player rest IH]; intros nextDeck dealt' deck'.
  - intros [= <- <-]. simpl. lia.
  - cbn [dealPlayers]. destruct (drawCard nextDeck) as [[card|] next] eqn:Hdraw; [|done].
    destruct (dealPlayers next rest) as [[rest' deck1]|e] eqn:Hrest; [|done].
    unfold mbind, completion_bind. intros [= <- <-].
    apply drawCard_Some in Hdraw as ->. apply IH in Hrest.
    rewrite length_app. simpl. lia.
Qed.

Lemma dealPass_deck_length (st st' : list Card * list Player * Dealer) :
  dealPass st = Return st' →
  length st.1.1 = (length st'.1.1 + length st.1.2 + 1)%nat
  ∧ length st'.1.2 = length st.1.2.
Proof.
  destruct st as [[nextDeck dealtPlayers] nextDealer]. unfold dealPass.
  destruct (dealPlayers nextDeck dealtPlayers) as [[dealt' deck1]|e] eqn:Hdeal; [|done].
  unfold mbind, completion_bind.
  destruct (drawCard deck1) as [[card|] next] eqn:Hdraw; [|done].
  intros [= <-]. simpl.
  pose proof (dealPlayers_deck_length _ _ _ _ Hdeal) as Hlen.
  pose proof (f_equal length (dealPlayers_ids _ _ _ _ Hdeal)) as Hn.
  rewrite !length_fmap in Hn.
  apply drawCard_Some in Hdraw as ->. rewrite length_app in Hlen. simpl in Hlen.
  lia.
Qed.

Lemma dealInitial_lengths (rand : nat → nat) (preparedDeck : list Card)
    (preparedPlayers : list Player) (nextDeck : list Card) (dealtPlayers : list Player)
    (nextDealer : Dealer) :
  dealInitial rand preparedDeck preparedPlayers
  = Return (nextDeck, dealtPlayers, nextDealer) →
  length (ensureDeck rand preparedDeck)
  = (length nextDeck + 2 * length preparedPlayers + 2)%nat
  ∧ length dealtPlayers = length preparedPlayers
  ∧ length (dealerHand nextDealer) = 2%nat.
Proof.
  unfold dealInitial.
  destruct (dealPass _) as [st1|e] eqn:Hpass1; [|done].
  unfold mbind at 1, completion_bind at 1.
  destruct (dealPass st1) as [[[deck2 dealt2] dealer2]|e] eqn:Hpass2; [|done].
  unfold mbind, completion_bind. intros [= <- <- <-].
  pose proof (dealPass_deck_length _ _ Hpass1) as [Hl1 Hn1].
  pose proof (dealPass_deck_length _ _ Hpass2) as [Hl2 Hn2].
  simpl in Hl1, Hn1, Hl2, Hn2. rewrite length_fmap in Hl1, Hn1.
  rewrite length_fmap. split; [lia|]. split; [lia|].
  destruct st1 as [[deck1 dealt1] dealer1]. unfold dealPass in Hpass1, Hpass2.
  destruct (dealPlayers _ _) as [[? ?]|?] in Hpass1; [|done].
  unfold mbind, completion_bind in Hpass1.
  destruct (drawCard _) as [[?|] ?] in Hpass1; [|done].
  injection Hpass1 as <- <- <-.
  destruct (dealPlayers _ _) as [[? ?]|?] in Hpass2; [|done].
  unfold mbind, completion_bind in Hpass2.
  destruct (drawCard _) as [[?|] ?] in Hpass2; [|done].
  by injection Hpass2 as <- <- <-.
Qed.


(** ** Hand totals *)

Lemma sumValues_app (h1 h2 : list Card) :
  sumValues (h1 ++ h2) = sumValues h1 + sumValues h2.
Proof.
  unfold sumValues. induction h1 as [|c h1 IH]; simpl; [lia|]. rewrite IH. lia.
Qed.

Lemma countAces_app (h1 h2 : list Card) :
  countAces (h1 ++ h2) = countAces h1 + countAces h2.
Proof. unfold countAces. rewrite filter_app, length_app. lia. Qed.

Lemma countAces_nonneg (hand : list Card) : 0 <= countAces hand.
Proof. unfold countAces. lia. Qed.

(** The total with every Ace counted 1. *)
Lemma hardTotal_le (hand : list Card) :
  sumValues hand - 10 * countAces hand <= calculateHand hand.
Proof.
  rewrite calculateHand_softTotal. unfold softTotal.
  pose proof (countAces_nonneg hand). lia.
Qed.

Lemma deckCards_hardTotal (hand : list Card) :
  Forall (λ card, card ∈ createDeck) hand →
  Z.of_nat (length hand) <= sumValues hand - 10 * countAces hand.
Proof.
  induction 1 as [|card hand Hc _ IH]; [done|].
  change (card :: hand) with ([card] ++ hand).
  rewrite sumValues_app, countAces_app, length_app.
  assert (1 <= sumValues [card] - 10 * countAces [card]).
  { apply createDeck_cardOf in Hc. rewrite Hc.
    by destruct (suit card), (rank card); vm_compute. }
  simpl length. lia.
Qed.

Lemma calculateHand_reductions (hand : list Card) :
  ∃ k : Z,
    0 <= k <= countAces hand
    ∧ calculateHand hand = sumValues hand - 10 * k
    ∧ (calculateHand hand <= 21 ∨ k = countAces hand)
    ∧ (k = 0 ∨ 21 < calculateHand hand + 10).
Proof.
  exists (Z.min (countAces hand) (reductionsNeeded (sumValues hand))).
  rewrite calculateHand_softTotal. unfold softTotal.
  pose proof (countAces_nonneg hand) as Hc.
  destruct (Z.le_gt_cases (sumValues hand) 21) as [Hle|Hgt].
  - rewrite (reductionsNeeded_low _ Hle). lia.
  - unfold reductionsNeeded.
    pose proof (Z.div_mod (sumValues hand - 12) 10 ltac:(lia)) as Hdm.
    pose proof (Z.mod_pos_bound (sumValues hand - 12) 10 ltac:(lia)) as Hmb.
    lia.
Qed.

(** X5. [calculateHand] is the best total of the hand.  It is one of the
    totals the hand can make, the sum of the card values with some of the
    Aces counted 1 instead of 11 (ten less each); it is the greatest total
    of that kind that does not exceed 21, and when none exists (the hand is
    bust) it is the smallest one, every Ace counted 1.  A hand of cards of
    the deck totals at least its number of cards, and a bust hand stays bust
    whatever card of the deck is added. *)
Theorem calculateHand_is_best_total (hand : list Card) :
  (∃ k : Z, 0 <= k <= countAces hand
            ∧ calculateHand hand = sumValues hand - 10 * k)
  ∧ (∀ k : Z, 0 <= k <= countAces hand → sumValues hand - 10 * k <= 21 →
     sumValues hand - 10 * k <= calculateHand hand <= 21)
  ∧ (21 < calculateHand hand →
     calculateHand hand = sumValues hand - 10 * countAces hand
     ∧ ∀ k : Z, 0 <= k <= countAces hand → 21 < sumValues hand - 10 * k)
  ∧ (Forall (λ card, card ∈ createDeck) hand →
     Z.of_nat (length hand) <= calculateHand hand
     ∧ ∀ card, card ∈ createDeck → 21 < calculateHand hand →
         21 < calculateHand (hand ++ [card])).
Proof.
  destruct (calculateHand_reductions hand) as (k0 & Hk0 & Hcalc & Hstop & Hleast).
  split; [by exists k0|]. split; [|split].
  - intros k Hk Hle. destruct Hstop as [Hok| ->]; [|lia].
    split; [|done]. destruct Hleast as [->|Hgt]; lia.
  - intros Hbust. destruct Hstop as [Hok| ->]; [lia|].
    split; [done|]. intros k Hk. lia.
  - intros Hdeck. pose proof (deckCards_hardTotal hand Hdeck) as Hhard.
    pose proof (hardTotal_le hand) as Hle. split; [lia|].
    intros card Hc Hbust.
    assert (Hall : Forall (λ card, card ∈ createDeck) [card]) by (by constructor).
    pose proof (deckCards_hardTotal [card] Hall) as Hone. simpl length in Hone.
    pose proof (hardTotal_le (hand ++ [card])) as Hle'.
    rewrite sumValues_app, countAces_app in Hle'.
    destruct Hstop as [Hok|Hall']; [lia|]. lia.
Qed.

(** X6. A natural: [isBlackjack] holds of a hand of cards of the deck
    exactly when it has two cards, one an Ace and the other worth ten (10,
    J, Q or K), in either order; no hand of another length is a natural,
    even when it totals 21. *)
Theorem isBlackjack_is_ace_and_ten :
  (∀ (s1 s2 : Suit) (r1 r2 : Rank),
     isBlackjack [cardOf s1 r1; cardOf s2 r2]
     = (bool_decide (r1 = RA) && tenValued r2) || (tenValued r1 && bool_decide (r2 = RA)))
  ∧ (∀ hand : list Card, length hand ≠ 2%nat → isBlackjack hand = false)
  ∧ (∀ hand : list Card,
       Forall (λ card, card ∈ createDeck) hand →
       (isBlackjack hand = true
        ↔ ∃ c1 c2,
            hand = [c1; c2]
            ∧ ((rank c1 = RA ∧ tenValued (rank c2) = true)
               ∨ (tenValued (rank c1) = true ∧ rank c2 = RA))))
  ∧ (∀ s1 s2 s3 : Suit,
       calculateHand [cardOf s1 R7; cardOf s2 R7; cardOf s3 R7] = 21
       ∧ isBlackjack [cardOf s1 R7; cardOf s2 R7; cardOf s3 R7] = false).
Proof.
  assert (Htwo : ∀ (s1 s2 : Suit) (r1 r2 : Rank),
             isBlackjack [cardOf s1 r1; cardOf s2 r2]
             = (bool_decide (r1 = RA) && tenValued r2)
               || (tenValued r1 && bool_decide (r2 = RA))).
  { intros s1 s2 r1 r2. by destruct r1, r2; vm_compute. }
  split; [done|]. split; [|split].
  - intros hand Hlen. unfold isBlackjack. by rewrite bool_decide_eq_false_2.
  - intros hand Hdeck. split.
    + intros Hbj.
      destruct hand as [|c1 [|c2 [|c3 hand]]];
        try (unfold isBlackjack in Hbj; simpl in Hbj; discriminate).
      exists c1, c2. split; [done|].
      apply Forall_cons in Hdeck as [H1 Hdeck]. apply Forall_cons in Hdeck as [H2 _].
      apply createDeck_cardOf in H1, H2. rewrite H1, H2, Htwo in Hbj.
      apply orb_true_iff in Hbj as [Hbj|Hbj]; apply andb_true_iff in Hbj as [Ha Hb].
      * left. split; [by apply bool_decide_eq_true in Ha|done].
      * right. split; [done|by apply bool_decide_eq_true in Hb].
    + intros (c1 & c2 & -> & Hranks).
      apply Forall_cons in Hdeck as [H1 Hdeck]. apply Forall_cons in Hdeck as [H2 _].
      apply createDeck_cardOf in H1, H2. rewrite H1, H2, Htwo.
      destruct Hranks as [[-> ->]|[-> ->]]; [done|]. simpl. apply orb_true_r.
  - intros s1 s2 s3. split; reflexivity.
Qed.

(** ** The dealer's draws *)

Lemma dealerDraws_Return (dealerHand currentDeck finalHand nextDeck : list Card) :
  dealerDraws dealerHand currentDeck = Return (finalHand, nextDeck) →
  ∃ drawn,
    finalHand = dealerHand ++ drawn
    ∧ currentDeck = nextDeck ++ rev drawn
    ∧ 17 <= calculateHand finalHand
    ∧ ∀ k : nat, (k < length drawn)%nat →
        calculateHand (dealerHand ++ take k drawn) < 17.
Proof.
  assert (Hstop : ∀ hand deck : list Card,
             17 <= calculateHand hand →
             ∃ drawn,
               hand = hand ++ drawn ∧ deck = deck ++ rev drawn
               ∧ 17 <= calculateHand hand
               ∧ ∀ k : nat, (k < length drawn)%nat →
                   calculateHand (hand ++ take k drawn) < 17).
  { intros hand deck Hge. exists []. simpl. rewrite !app_nil_r.
    repeat split; [done|]. intros k Hk. lia. }
  revert dealerHand finalHand nextDeck.
  induction currentDeck as [|card deck IH] using rev_ind;
    intros dealerHand finalHand nextDeck; rewrite dealerDraws_unfold.
  - destruct (Z.ltb_spec (calculateHand dealerHand) 17) as [Hlt|Hge]; [done|].
    intros [= <- <-]. by apply Hstop.
  - destruct (Z.ltb_spec (calculateHand dealerHand) 17) as [Hlt|Hge].
    + rewrite drawCard_snoc. intros (drawn & -> & -> & Hfin & Hbefore)%IH.
      exists (card :: drawn). rewrite <- app_assoc in Hfin |- *. split; [done|].
      split; [simpl; by rewrite <- app_assoc|]. split; [done|].
      intros [|k] Hk; simpl.
      * by rewrite app_nil_r.
      * specialize (Hbefore k ltac:(simpl in Hk; lia)).
        by rewrite <- app_assoc in Hbefore.
    + intros [= <- <-]. by apply Hstop.
Qed.

Lemma dealerDraws_Throw (dealerHand currentDeck : list Card) :
  dealerDraws dealerHand currentDeck = Throw TypeError
  ↔ ∀ k : nat, (k <= length currentDeck)%nat →
      calculateHand (dealerHand ++ take k (rev currentDeck)) < 17.
Proof.
  revert dealerHand.
  induction currentDeck as [|card deck IH] using rev_ind; intros dealerHand;
    rewrite dealerDraws_unfold.
  - destruct (Z.ltb_spec (calculateHand dealerHand) 17) as [Hlt|Hge]; simpl.
    + split; [|done]. intros _ k Hk. by rewrite take_nil, app_nil_r.
    + split; [done|]. intros Hall. specialize (Hall 0%nat ltac:(lia)).
      rewrite app_nil_r in Hall. lia.
  - rewrite drawCard_snoc, rev_app_distr, length_app. simpl.
    destruct (Z.ltb_spec (calculateHand dealerHand) 17) as [Hlt|Hge].
    + rewrite IH. split.
      * intros Hall [|k] Hk; simpl; [by rewrite app_nil_r|].
        specialize (Hall k ltac:(lia)). by rewrite <- app_assoc in Hall.
      * intros Hall k Hk. specialize (Hall (S k) ltac:(lia)). simpl in Hall.
        by rewrite <- app_assoc.
    + split; [done|]. intros Hall. specialize (Hall 0%nat ltac:(lia)).
      simpl in Hall. rewrite app_nil_r in Hall. lia.
Qed.

(** X7. The dealer turn draws from the top of the deck while the dealer's
    total is below 17 and stops at the first total of 17 or more: when
    [handleDealerTurn] returns, the dealer holds the former hand followed by
    the cards drawn, the deck has lost exactly those (its last cards, the
    top first), the dealer's total is 17 or more while before every draw it
    was below 17, the hidden card is revealed and the phase is [RoundEnd].
    It throws exactly when the deck runs out first, that is when the totals
    stay below 17 through every card left; a dealer at 17 or more draws
    nothing. *)
Theorem handleDealerTurn_draws_to_17 (s : State) (currentPlayers : list Player)
    (currentDealer : Dealer) (currentDeck : list Card) (nextPot : Q) :
  (∀ s', handleDealerTurn s currentPlayers currentDealer currentDeck nextPot = Return s' →
     ∃ drawn,
       dealerHand (dealer s') = dealerHand currentDealer ++ drawn
       ∧ currentDeck = deck s' ++ rev drawn
       ∧ 17 <= calculateHand (dealerHand (dealer s'))
       ∧ (∀ k : nat, (k < length drawn)%nat →
            calculateHand (dealerHand currentDealer ++ take k drawn) < 17)
       ∧ hidden (dealer s') = false
       ∧ phase s' = RoundEnd
       ∧ length (players s') = length currentPlayers)
  ∧ (handleDealerTurn s currentPlayers currentDealer currentDeck nextPot = Throw TypeError
     ↔ ∀ k : nat, (k <= length currentDeck)%nat →
         calculateHand (dealerHand currentDealer ++ take k (rev currentDeck)) < 17)
  ∧ (17 <= calculateHand (dealerHand currentDealer) →
     ∃ s', handleDealerTurn s currentPlayers currentDealer currentDeck nextPot = Return s'
           ∧ dealerHand (dealer s') = dealerHand currentDealer
           ∧ deck s' = currentDeck).
Proof.
  split; [|split].
  - intros s' (finalHand & nextDeck & Hdraw & ->)%handleDealerTurn_inv.
    destruct (dealerDraws_Return _ _ _ _ Hdraw) as (drawn & Hf & Hd & Hfin & Hbefore).
    exists drawn. unfold settledState. cbn [dealer deck phase dealerHand hidden players].
    do 6 (split; [done|]).
    destruct (isMulti s); unfold pooledFinalPlayers, soloFinalPlayers, resolvePlayers;
      by rewrite !length_fmap.
  - rewrite <- dealerDraws_Throw. split.
    + intros Hthrow.
      destruct (dealerDraws (dealerHand currentDealer) currentDeck)
        as [[finalHand nextDeck]|[]] eqn:Hdraw; [|done].
      by rewrite (handleDealerTurn_settled _ _ _ _ _ _ _ Hdraw) in Hthrow.
    + apply handleDealerTurn_throws.
  - intros Hge. eexists. split.
    + apply handleDealerTurn_settled. by apply dealerDraws_stands.
    + done.
Qed.

(** ** The scan for the next player *)

(** X8. [nextActiveIndex] throws when started below [-1] (it reads the
    array at a negative index).  From [-1] or above it returns either [-1],
    exactly when no player after [fromIndex] is active (in particular when
    [fromIndex] is the last index or beyond, or there is no player), or the
    index of a player, greater than [fromIndex] and within the array, who is
    active while no player strictly between is. *)
Theorem nextActiveIndex_first_active (players : list Player) (fromIndex : Z) :
  (fromIndex < -1 → nextActiveIndex players fromIndex = Throw TypeError)
  ∧ (-1 <= fromIndex →
     ∃ j,
       nextActiveIndex players fromIndex = Return j
       ∧ -1 <= j < Z.of_nat (length players)
       ∧ (j = -1
          ↔ ∀ (k : nat) (q : Player),
              fromIndex < Z.of_nat k → players !! k = Some q → status q ≠ StActive)
       ∧ (j ≠ -1 →
          fromIndex < j
          ∧ (∃ p, players !! Z.to_nat j = Some p ∧ status p = StActive)
          ∧ ∀ (k : nat) (q : Player),
              fromIndex < Z.of_nat k < j → players !! k = Some q →
              status q ≠ StActive))
  ∧ (Z.of_nat (length players) - 1 <= fromIndex →
     nextActiveIndex players fromIndex = Return (-1)).
Proof.
  split; [|split].
  - intros Hlow. unfold nextActiveIndex.
    by destruct (Z.ltb_spec (fromIndex + 1) 0); [|lia].
  - intros Hfrom.
    destruct (nextActiveIndex_spec players fromIndex Hfrom)
      as (j & Hj & [[-> Hnone]|(Hlt & (p & Hp & Hact) & Hbetween)]).
    + exists (-1). split; [done|]. split; [lia|]. split; [done|]. done.
    + apply at_index_Some in Hp as [Hpos Hp].
      pose proof (lookup_lt_Some _ _ _ Hp) as Hlen.
      exists j. split; [done|]. split; [lia|]. split.
      * split; [lia|]. intros Hnone. destruct (Hnone (Z.to_nat j) p); [lia|done|done].
      * intros _. split; [done|]. split; [by exists p|done].
  - intros Hlast. unfold nextActiveIndex.
    destruct (Z.ltb_spec (fromIndex + 1) 0); [lia|].
    rewrite drop_ge by lia. reflexivity.
Qed.

(** ** The cards of the table *)

Lemma mapAt_preserves {B} (proj : Player → B) (index : Z) (f : Player → Player)
    (l : list Player) :
  (∀ player, proj (f player) = proj player) → proj <$> mapAt index f l = proj <$> l.
Proof.
  intros Hf. apply list_eq. intros i.
  rewrite !list_lookup_fmap, mapAt_lookup.
  destruct (l !! i) as [q|]; [|done]. simpl.
  by destruct (Z.of_nat i =? index); rewrite ?Hf.
Qed.

Lemma settledState_preserves {B} (proj : Player → B) (s : State)
    (currentPlayers : list Player) (finalHand nextDeck : list Card) (nextPot : Q) :
  (∀ player v, proj (withResult v player) = proj player) →
  (∀ player v, proj (withChips v player) = proj player) →
  (∀ player v, proj (withDelta v player) = proj player) →
  proj <$> players (settledState s currentPlayers finalHand nextDeck nextPot)
  = proj <$> currentPlayers.
Proof.
  intros Hres Hchips Hdelta. unfold settledState. cbn [players].
  destruct (isMulti s); unfold pooledFinalPlayers, soloFinalPlayers, resolvePlayers;
    rewrite <- !list_fmap_compose; apply list_fmap_ext; intros i q _; simpl;
    by rewrite Hdelta, Hchips, Hres.
Qed.

Lemma handleDealerTurn_cards (s s' : State) (currentPlayers : list Player)
    (currentDealer : Dealer) (currentDeck : list Card) (nextPot : Q) :
  handleDealerTurn s currentPlayers currentDealer currentDeck nextPot = Return s' →
  tableCards s'
  ≡ₚ concat (hand <$> currentPlayers) ++ dealerHand currentDealer ++ currentDeck.
Proof.
  intros (finalHand & nextDeck & Hdraw & ->)%handleDealerTurn_inv.
  destruct (dealerDraws_Return _ _ _ _ Hdraw) as (drawn & -> & -> & _).
  unfold tableCards. rewrite (settledState_preserves hand) by done.
  cbn [dealer deck settledState dealerHand].
  rewrite <- (Permutation_rev drawn). solve_Permutation.
Qed.

Lemma dealPlayers_cards (nextDeck deck' : list Card) (dealtPlayers dealt' : list Player) :
  dealPlayers nextDeck dealtPlayers = Return (dealt', deck') →
  concat (hand <$> dealt') ++ deck' ≡ₚ concat (hand <$> dealtPlayers) ++ nextDeck.
Proof.
  revert nextDeck dealt' deck'.
  induction dealtPlayers as [|player rest IH]; intros nextDeck dealt' deck'.
  - by intros [= <- <-].
  - cbn [dealPlayers]. destruct (drawCard nextDeck) as [[card|] next] eqn:Hdraw; [|done].
    destruct (dealPlayers next rest) as [[rest' deck1]|e] eqn:Hrest; [|done].
    unfold mbind, completion_bind. intros [= <- <-].
    apply drawCard_Some in Hdraw as ->. apply IH in Hrest.
    rewrite !fmap_cons. cbn [concat hand withHand].
    transitivity (hand player ++ [card] ++ (concat (hand <$> rest') ++ deck1));
      [solve_Permutation|].
    rewrite Hrest. solve_Permutation.
Qed.

Lemma dealPass_cards (st st' : list Card * list Player * Dealer) :
  dealPass st = Return st' →
  concat (hand <$> st'.1.2) ++ dealerHand st'.2 ++ st'.1.1
  ≡ₚ concat (hand <$> st.1.2) ++ dealerHand st.2 ++ st.1.1.
Proof.
  destruct st as [[nextDeck dealtPlayers] nextDealer]. unfold dealPass.
  destruct (dealPlayers nextDeck dealtPlayers) as [[dealt' deck1]|e] eqn:Hdeal; [|done].
  unfold mbind, completion_bind.
  destruct (drawCard deck1) as [[card|] next] eqn:Hdraw; [|done].
  intros [= <-]. cbn [fst snd dealerHand].
  apply drawCard_Some in Hdraw as ->. apply dealPlayers_cards in Hdeal.
  transitivity (dealerHand nextDealer ++ (concat (hand <$> dealt') ++ next ++ [card]));
    [solve_Permutation|].
  rewrite Hdeal. solve_Permutation.
Qed.

Lemma dealInitial_cards (rand : nat → nat) (preparedDeck nextDeck : list Card)
    (preparedPlayers dealtPlayers : list Player) (nextDealer : Dealer) :
  dealInitial rand preparedDeck preparedPlayers
  = Return (nextDeck, dealtPlayers, nextDealer) →
  concat (hand <$> dealtPlayers) ++ dealerHand nextDealer ++ nextDeck
  ≡ₚ ensureDeck rand preparedDeck.
Proof.
  unfold dealInitial.
  destruct (dealPass _) as [st1|e] eqn:Hpass1; [|done].
  unfold mbind at 1, completion_bind at 1.
  destruct (dealPass st1) as [[[deck2 dealt2] dealer2]|e] eqn:Hpass2; [|done].
  unfold mbind, completion_bind. intros [= <- <- <-].
  apply dealPass_cards in Hpass1, Hpass2. cbn [fst snd dealerHand] in Hpass1, Hpass2.
  assert (Hhands : hand <$> ((λ player, if isBlackjack (hand player)
                                        then withStatus StBlackjack player else player)
                             <$> dealt2) = hand <$> dealt2).
  { rewrite <- list_fmap_compose. apply list_fmap_ext. intros i q _. simpl.
    by destruct (isBlackjack (hand q)). }
  rewrite Hhands, Hpass2, Hpass1.
  assert (Hempty : ∀ l : list Player,
             concat (hand <$> ((λ player,
                                  withResult ResNone
                                    (withStatus StActive (withHand [] player))) <$> l))
             = []).
  { induction l as [|q l IH]; [done|]. by rewrite !fmap_cons. }
  by rewrite Hempty.
Qed.

Lemma deck_submseteq_table (s : State) : deck s ⊆+ tableCards s.
Proof.
  unfold tableCards. apply submseteq_inserts_l, submseteq_inserts_l. done.
Qed.

Lemma ensureDeck_submseteq (rand : nat → nat) (s : State) :
  tableCards s ⊆+ createDeck → ensureDeck rand (deck s) ⊆+ createDeck.
Proof.
  intros Hinv. unfold ensureDeck. destruct (_ <? 15)%nat.
  - rewrite (shuffle_Permutation rand createDeck). reflexivity.
  - rewrite (deck_submseteq_table s). exact Hinv.
Qed.

Lemma handleDeal_cards (rand : nat → nat) (s s' : State) :
  tableCards s ⊆+ createDeck → handleDeal rand s = Return s' →
  tableCards s' ⊆+ createDeck.
Proof.
  intros Hinv. unfold handleDeal.
  destruct (existsb invalidBet (players s)); [by intros [= <-]|].
  destruct (dealInitial rand (deck s) (reservePlayers (players s)))
    as [[[nextDeck dealtPlayers] nextDealer]|e] eqn:Hdeal; [|done].
  apply dealInitial_cards in Hdeal.
  pose proof (ensureDeck_submseteq rand s Hinv) as Hdeck. rewrite <- Hdeal in Hdeck.
  unfold mbind, completion_bind, nextActiveIndex.
  change (-1 + 1 <? 0) with false. cbv iota.
  destruct (scanActive _ _ =? -1).
  - intros Hturn%handleDealerTurn_cards. by rewrite Hturn.
  - intros Heq%Return_inj. subst s'. by destruct (isMulti s).
Qed.

Lemma insert_hand_cards (l : list Player) (i : nat) (p p' : Player) (extra : list Card) :
  l !! i = Some p → hand p' = hand p ++ extra →
  concat (hand <$> <[ i := p' ]> l) ≡ₚ concat (hand <$> l) ++ extra.
Proof.
  revert i; induction l as [|q l IH]; intros i Hi Hhand; [done|].
  destruct i as [|i]; simpl in *.
  - injection Hi as ->. rewrite Hhand. solve_Permutation.
  - rewrite (IH i Hi Hhand). solve_Permutation.
Qed.

Lemma advanceTurn_cards (s s' : State) (nextPlayers : list Player) :
  players s = nextPlayers →
  advanceTurn s nextPlayers (dealer s) (deck s) (pot s) = Return s' →
  tableCards s' ≡ₚ tableCards s.
Proof.
  intros Hplayers. unfold advanceTurn.
  destruct (nextActiveIndex nextPlayers (currentIndex s)) as [j|e]; [|done].
  unfold mbind, completion_bind. destruct (j =? -1).
  - intros Hturn%handleDealerTurn_cards. rewrite Hturn. unfold tableCards.
    by rewrite Hplayers.
  - by intros [= <-].
Qed.

Lemma handleHit_cards (s s' : State) :
  handleHit s = Return s' → tableCards s' ≡ₚ tableCards s.
Proof.
  destruct (at_index (players s) (currentIndex s)) as [player|] eqn:Hat.
  2:{ rewrite handleHit_guard by (by left). by intros [= <-]. }
  destruct (decide (status player = StActive)) as [Hact|Hnot].
  2:{ rewrite handleHit_guard by (right; eauto). by intros [= <-]. }
  destruct (drawCard (deck s)) as [[card|] next] eqn:Hdraw.
  2:{ unfold handleHit. by rewrite Hat, Hact, Hdraw. }
  rewrite (handleHit_step s player card next Hat Hact Hdraw). cbv zeta.
  set (updatedPlayers := <[Z.to_nat (currentIndex s) := playerAfterHit player card]>
                           (players s)).
  assert (Hs1 : tableCards (setPlayers updatedPlayers (setDeck next s)) ≡ₚ tableCards s).
  { unfold tableCards. cbn [players dealer deck setPlayers setDeck].
    apply at_index_Some in Hat as [_ Hat].
    unfold updatedPlayers.
    rewrite (insert_hand_cards _ _ player _ [card] Hat) by done.
    apply drawCard_Some in Hdraw as ->. solve_Permutation. }
  destruct (_ <? 21).
  - by intros [= <-].
  - intros Hadv.
    apply (advanceTurn_cards (setPlayers updatedPlayers (setDeck next s))) in Hadv;
      [|done]. by rewrite Hadv.
Qed.

Lemma handleStand_cards (s s' : State) :
  handleStand s = Return s' → tableCards s' ≡ₚ tableCards s.
Proof.
  unfold handleStand. intros Hadv.
  apply (advanceTurn_cards (setPlayers _ s)) in Hadv; [|done].
  rewrite Hadv. unfold tableCards. cbn [players dealer deck setPlayers].
  by rewrite (mapAt_preserves hand).
Qed.

Lemma click_cards (rand : nat → nat) (e : Event) (s s' : State) :
  tableCards s ⊆+ createDeck → click rand e s = Return s' →
  tableCards s' ⊆+ createDeck.
Proof.
  intros Hinv. unfold click.
  destruct (offered s e); [|by intros [= <-]].
  pose proof (deck_submseteq_table s) as Hdeck.
  destruct e; cbn [handler].
  - by intros [= <-].
  - intros [= <-]. unfold tableCards, handleLobbyStart.
    cbn [players dealer deck setMessage setPot setRound setScreen setPhase setDealer
           setPlayers dealerHand emptyDealer].
    assert (Hnone : ∀ l : list Player, concat (hand <$> buildPlayers (playerCount s) l) = []).
    { intros l. unfold buildPlayers. generalize (seq 0 (Z.to_nat (playerCount s))).
      intros ns. induction ns as [|n ns IH]; [done|]. by rewrite !fmap_cons. }
    rewrite Hnone. simpl. by rewrite Hdeck.
  - intros [= <-]. unfold tableCards, handleBetAdd. cbn [players dealer deck setPlayers].
    by rewrite (mapAt_preserves hand).
  - intros [= <-]. unfold tableCards, handleBetClear. cbn [players dealer deck setPlayers].
    by rewrite (mapAt_preserves hand).
  - intros [= <-]. unfold tableCards, handleBetAllIn. cbn [players dealer deck setPlayers].
    by rewrite (mapAt_preserves hand).
  - by apply handleDeal_cards.
  - intros Hhit%handleHit_cards. by rewrite Hhit.
  - intros Hstand%handleStand_cards. by rewrite Hstand.
  - intros [= <-]. unfold tableCards, handleNextRound.
    cbn [players dealer deck setMessage setRound setPhase setDealer setPlayers
           dealerHand emptyDealer].
    assert (Hnone : ∀ l : list Player,
               concat (hand <$> ((λ player,
                                    withDelta 0%Q
                                      (withResult ResNone
                                         (withStatus StIdle
                                            (withHand [] (withBet 0%Q player))))) <$> l))
               = []).
    { induction l as [|q l IH]; [done|]. by rewrite !fmap_cons. }
    rewrite Hnone. simpl. by rewrite Hdeck.
Qed.

Lemma leftByThrow_cards (rand : nat → nat) (e : Event) (s s' : State) :
  tableCards s ⊆+ createDeck → leftByThrow rand s e s' → tableCards s' ⊆+ createDeck.
Proof.
  intros Hinv.
  destruct 1 as [| nextDeck dealtPlayers nextDealer _ _ _ Hdeal _ _
                 | | player card next _ _ Hat _ Hdeck _ _ _ | ]; try done.
  - apply dealInitial_cards in Hdeal.
    pose proof (ensureDeck_submseteq rand s Hinv) as Hdeck. by rewrite <- Hdeal in Hdeck.
  - etrans; [|exact Hinv]. apply Permutation_submseteq.
    unfold tableCards. cbn [players dealer deck setPlayers setDeck].
    apply at_index_Some in Hat as [_ Hat].
    rewrite (insert_hand_cards _ _ player _ [card] Hat) by done.
    rewrite Hdeck. solve_Permutation.
  - etrans; [|exact Hinv]. unfold tableCards. cbn [players dealer deck setPlayers].
    by rewrite (mapAt_preserves hand).
Qed.

Lemma reachable_cards (s : State) : reachable s → tableCards s ⊆+ createDeck.
Proof.
  induction 1 as [rand|rand e s s' _ IH Hclick|rand e s err Hreach IH Hclick].
  - unfold tableCards, initialState.
    cbn [players dealer deck emptyDealer dealerHand fmap list_fmap concat app].
    rewrite (shuffle_Permutation rand createDeck). reflexivity.
  - by eapply click_cards.
  - eapply leftByThrow_cards; [exact IH|]. by eapply reachable_leftByThrow.
Qed.

(** X9. The cards of every table the controls lead to (the hands of the
    players, the dealer's hand and the deck) are cards of the 52-card deck,
    none of them twice: no card is ever dealt or drawn a second time while
    it lies on the table, and every card in a hand has the value of its
    rank.  A hit and a stand only move cards: the cards of the table after
    them are those before. *)
Theorem reachable_cards_are_distinct (s : State) :
  reachable s →
  tableCards s ⊆+ createDeck
  ∧ NoDup (tableCards s)
  ∧ (length (tableCards s) <= 52)%nat
  ∧ (∀ card, card ∈ tableCards s →
       card = cardOf (suit card) (rank card) ∧ value card = nominalValue (rank card))
  ∧ (∀ s', handleHit s = Return s' → tableCards s' ≡ₚ tableCards s)
  ∧ (∀ s', handleStand s = Return s' → tableCards s' ≡ₚ tableCards s).
Proof.
  intros Hsub%reachable_cards.
  split; [done|]. split; [|split; [|split; [|split]]].
  - destruct (submseteq_Permutation _ _ Hsub) as [k Hk].
    pose proof createDeck_NoDup as Hnd. rewrite Hk in Hnd.
    by apply NoDup_app in Hnd as [Hnd _].
  - apply submseteq_length in Hsub. by change (length createDeck) with 52%nat in Hsub.
  - intros card Hin.
    assert (Hc : card ∈ createDeck).
    { destruct (submseteq_Permutation _ _ Hsub) as [k Hk]. rewrite Hk.
      apply elem_of_app. by left. }
    split; [by apply createDeck_cardOf|by apply createDeck_nominal].
  - apply handleHit_cards.
  - apply handleStand_cards.
Qed.

Lemma reachable_cards_are_distinct_witness :
  reachable fourSeatsDeckEmpty ∧ length (tableCards fourSeatsDeckEmpty) = 15%nat
  ∧ NoDup (tableCards fourSeatsDeckEmpty).
Proof.
  assert (Hreach : reachable fourSeatsDeckEmpty) by apply stateAfter_reachable.
  split; [exact Hreach|]. split; [vm_compute; reflexivity|].
  exact (proj1 (proj2 (reachable_cards_are_distinct fourSeatsDeckEmpty Hreach))).
Defined.

(** ** The money of the table *)

Lemma dealPlayers_preserves {B} (proj : Player → B) (nextDeck deck' : list Card)
    (dealtPlayers dealt' : list Player) :
  (∀ player v, proj (withHand v player) = proj player) →
  dealPlayers nextDeck dealtPlayers = Return (dealt', deck') →
  proj <$> dealt' = proj <$> dealtPlayers.
Proof.
  intros Hproj. revert nextDeck dealt' deck'.
  induction dealtPlayers as [|player rest IH]; intros nextDeck dealt' deck'.
  - by intros [= <- <-].
  - cbn [dealPlayers]. destruct (drawCard nextDeck) as [[card|] next]; [|done].
    destruct (dealPlayers next rest) as [[rest' deck1]|e] eqn:Hrest; [|done].
    unfold mbind, completion_bind. intros [= <- <-].
    rewrite !fmap_cons, Hproj. f_equal. by eapply IH.
Qed.

Lemma dealPass_preserves {B} (proj : Player → B)
    (st st' : list Card * list Player * Dealer) :
  (∀ player v, proj (withHand v player) = proj player) →
  dealPass st = Return st' → proj <$> st'.1.2 = proj <$> st.1.2.
Proof.
  intros Hproj. destruct st as [[nextDeck dealtPlayers] nextDealer]. unfold dealPass.
  destruct (dealPlayers nextDeck dealtPlayers) as [[dealt' deck1]|e] eqn:Hdeal; [|done].
  unfold mbind, completion_bind.
  destruct (drawCard deck1) as [[card|] next]; [|done].
  intros [= <-]. simpl. by eapply dealPlayers_preserves.
Qed.

Lemma dealInitial_preserves {B} (proj : Player → B) (rand : nat → nat)
    (preparedDeck nextDeck : list Card) (preparedPlayers dealtPlayers : list Player)
    (nextDealer : Dealer) :
  (∀ player v, proj (withHand v player) = proj player) →
  (∀ player v, proj (withStatus v player) = proj player) →
  (∀ player v, proj (withResult v player) = proj player) →
  dealInitial rand preparedDeck preparedPlayers
  = Return (nextDeck, dealtPlayers, nextDealer) →
  proj <$> dealtPlayers = proj <$> preparedPlayers.
Proof.
  intros Hhand Hstatus Hresult. unfold dealInitial.
  destruct (dealPass _) as [st1|e] eqn:Hpass1; [|done].
  unfold mbind at 1, completion_bind at 1.
  destruct (dealPass st1) as [[[deck2 dealt2] dealer2]|e] eqn:Hpass2; [|done].
  unfold mbind, completion_bind. intros [= <- <- <-].
  apply (dealPass_preserves proj) in Hpass1, Hpass2; [|done..].
  simpl in Hpass1, Hpass2.
  rewrite <- list_fmap_compose.
  transitivity (proj <$> dealt2).
  { apply list_fmap_ext. intros i q _. simpl.
    destruct (isBlackjack (hand q)); by rewrite ?Hstatus. }
  rewrite Hpass2, Hpass1, <- list_fmap_compose. apply list_fmap_ext. intros i q _. simpl.
  by rewrite Hresult, Hstatus, Hhand.
Qed.

Lemma sumQ_proj (f : Player → Q) (l l' : list Player) :
  f <$> l = f <$> l' → sumQ f l = sumQ f l'.
Proof.
  revert l'; induction l as [|p l IH]; intros [|p' l'] Heq; try done.
  rewrite !fmap_cons in Heq. injection Heq as Hp Hl. simpl.
  by rewrite Hp, (IH l' Hl).
Qed.

Lemma Forall_proj {B} (proj : Player → B) (P : B → Prop) (l l' : list Player) :
  proj <$> l = proj <$> l' →
  Forall (λ player, P (proj player)) l' → Forall (λ player, P (proj player)) l.
Proof.
  intros Heq Hl'. apply (Forall_fmap proj P). rewrite Heq. by apply Forall_fmap.
Qed.

Lemma Math_round_nonneg (x : Q) : (0 <= x)%Q → (0 <= Math_round x)%Q.
Proof.
  intros Hx. unfold Math_round.
  change 0%Q with (inject_Z 0). rewrite <- Zle_Qle.
  change 0 with (Qfloor 0). apply Qfloor_resp_le. lra.
Qed.

Lemma foldl_sum_bets (l : list Player) (acc : Q) :
  (foldl (λ sum player, sum + bet player) acc l == acc + sumQ bet l)%Q.
Proof.
  revert acc; induction l as [|p l IH]; intros acc; simpl.
  - ring.
  - rewrite IH. ring.
Qed.

Lemma sumQ_filter_le (f : Player → bool) (l : list Player) :
  Forall (λ player, 0 <= bet player)%Q l →
  (0 <= sumQ bet (List.filter f l) ∧ sumQ bet (List.filter f l) <= sumQ bet l)%Q.
Proof.
  induction 1 as [|p l Hp _ [IH0 IH]]; [split; apply Qle_refl|].
  cbn [List.filter]. destruct (f p); cbn [sumQ foldr]; fold (sumQ bet l);
    fold (sumQ bet (List.filter f l)); split; lra.
Qed.

Lemma pooledPayoutMap_nonneg (potPool totalWeight : Q) (resolvedPlayers : list Player)
    (k : Z) :
  (0 <= potPool)%Q →
  Forall (λ player, 0 <= bet player)%Q resolvedPlayers →
  (0 <= default 0 (pooledPayoutMap potPool totalWeight resolvedPlayers !! k))%Q.
Proof.
  intros Hpool Hbets. unfold pooledPayoutMap.
  assert (Hwin : Forall (λ player, 0 <= bet player)%Q (List.filter isWinner resolvedPlayers)).
  { apply Forall_forall. intros q Hq%list_elem_of_In%filter_In.
    destruct Hq as [Hq%list_elem_of_In _]. by apply (proj1 (Forall_forall _ _) Hbets). }
  generalize dependent (List.filter isWinner resolvedPlayers). intros winners Hwin.
  assert (Hgen : ∀ m0 : gmap Z Q,
             (0 <= default 0 (m0 !! k))%Q →
             (0 <= default 0
                     (foldl (λ (payoutMap : gmap Z Q) player,
                               <[id player :=
                                   Math_round
                                     (if Qgt_bool totalWeight 0
                                      then potPool * weightOf player / totalWeight
                                      else 0)]> payoutMap) m0 winners !! k))%Q).
  { induction Hwin as [|q winners Hq _ IH]; intros m0 Hm0; [done|].
    simpl. apply IH. destruct (decide (id q = k)) as [<-|Hne].
    - rewrite lookup_insert_eq. simpl. apply Math_round_nonneg.
      destruct (Qgt_bool totalWeight 0) eqn:Hpos; [|apply Qle_refl].
      apply Qgt_bool_iff in Hpos.
      assert (0 <= weightOf q)%Q.
      { unfold weightOf. apply Qmult_le_0_compat; [done|]. by destruct (decide _). }
      apply Qle_shift_div_l; [done|]. rewrite Qmult_0_l.
      by apply Qmult_le_0_compat.
    - by rewrite lookup_insert_ne. }
  apply Hgen. rewrite lookup_empty. apply Qle_refl.
Qed.

Lemma settledState_money (s : State) (currentPlayers : list Player)
    (finalHand nextDeck : list Card) (nextPot : Q) :
  (0 <= pot s)%Q →
  Forall (λ player, 0 <= chips player ∧ 0 <= bet player)%Q currentPlayers →
  (isMulti s = true → sumQ bet currentPlayers <= nextPot)%Q →
  let s' := settledState s currentPlayers finalHand nextDeck nextPot in
  (0 <= pot s')%Q
  ∧ Forall (λ player, 0 <= chips player ∧ 0 <= bet player)%Q (players s').
Proof.
  intros Hpot Hplayers Hsum. unfold settledState. cbn [pot players].
  set (resolvedPlayers := resolvePlayers finalHand currentPlayers).
  assert (Hres : Forall (λ player, 0 <= chips player ∧ 0 <= bet player)%Q resolvedPlayers).
  { unfold resolvedPlayers, resolvePlayers. apply Forall_fmap.
    eapply Forall_impl; [exact Hplayers|]. by intros player. }
  assert (Hbets : Forall (λ player, 0 <= bet player)%Q resolvedPlayers).
  { eapply Forall_impl; [exact Hres|]. by intros player [_ ?]. }
  assert (Hsame : sumQ bet resolvedPlayers = sumQ bet currentPlayers).
  { apply sumQ_proj. unfold resolvedPlayers, resolvePlayers.
    rewrite <- list_fmap_compose. by apply list_fmap_ext. }
  destruct (isMulti s) eqn:Hmulti.
  - assert (Hpool : (0 <= pooledPotPool nextPot resolvedPlayers)%Q).
    { rewrite pooledPotPool_sum.
      destruct (sumQ_filter_le isPush resolvedPlayers Hbets) as [_ Hle].
      rewrite Hsame in Hle. specialize (Hsum eq_refl). lra. }
    split.
    + destruct (Qgt_bool _ 0); [apply Qle_refl|done].
    + unfold pooledFinalPlayers. apply Forall_fmap.
      eapply Forall_impl; [exact Hres|]. intros player [Hchips Hbet].
      cbn [chips bet withChips withDelta compose].
      split; [|done].
      pose proof (pooledPayoutMap_nonneg (pooledPotPool nextPot resolvedPlayers)
                    (pooledTotalWeight resolvedPlayers) resolvedPlayers (id player)
                    Hpool Hbets) as Hpay.
      destruct (decide (result player = ResPush)); lra.
  - split; [done|].
    unfold soloFinalPlayers. apply Forall_fmap.
    eapply Forall_impl; [exact Hres|]. intros player [Hchips Hbet].
    cbn [chips bet withChips withDelta compose].
    split; [|done]. unfold soloPayout.
    destruct (decide (result player = ResBlackjack));
      destruct (decide (result player = ResWin));
      destruct (decide (result player = ResPush)); lra.
Qed.

Lemma handleDealerTurn_money (s s' : State) (currentPlayers : list Player)
    (currentDealer : Dealer) (currentDeck : list Card) (nextPot : Q) :
  screen s = Table →
  (0 <= pot s)%Q →
  Forall (λ player, 0 <= chips player ∧ 0 <= bet player)%Q currentPlayers →
  (isMulti s = true → sumQ bet currentPlayers <= nextPot)%Q →
  handleDealerTurn s currentPlayers currentDealer currentDeck nextPot = Return s' →
  moneyInvariant s'.
Proof.
  intros Hscreen Hpot Hplayers Hsum (finalHand & nextDeck & _ & ->)%handleDealerTurn_inv.
  destruct (settledState_money s currentPlayers finalHand nextDeck nextPot
              Hpot Hplayers Hsum) as [Hpot' Hplayers'].
  unfold moneyInvariant. split; [done|]. split; [done|].
  cbn [screen phase settledState]. split; [|done]. by rewrite Hscreen.
Qed.

(** The pair of a player's balance and bet. *)
Lemma moneyInvariant_same (s s1 : State) :
  screen s1 = screen s → phase s1 = phase s → pot s1 = pot s →
  playerCount s1 = playerCount s →
  (λ player, (chips player, bet player)) <$> players s1
  = (λ player, (chips player, bet player)) <$> players s →
  moneyInvariant s → moneyInvariant s1.
Proof.
  intros Hscreen Hphase Hpot Hcount Hstakes (Hp & Hall & Hlobby & Hcase).
  unfold moneyInvariant, isMulti in *. rewrite Hscreen, Hphase, Hpot, Hcount.
  split; [done|]. split; [|split; [done|]].
  - by apply (Forall_proj (λ player, (chips player, bet player))
                (λ stake, 0 <= stake.1 ∧ 0 <= stake.2)%Q _ _ Hstakes).
  - destruct (phase s).
    + by apply (Forall_proj (λ player, (chips player, bet player))
                  (λ stake, stake.2 <= stake.1)%Q _ _ Hstakes).
    + destruct Hcase as [Hbets Hsum]. split.
      * by apply (Forall_proj (λ player, (chips player, bet player))
                    (λ stake, 0 < stake.2)%Q _ _ Hstakes).
      * intros Hmulti.
        replace (sumQ bet (players s1)) with (sumQ bet (players s)); [by apply Hsum|].
        apply sumQ_proj.
        apply (f_equal (fmap snd)) in Hstakes.
        by rewrite <- !list_fmap_compose in Hstakes.
    + done.
Qed.

Lemma advanceTurn_money (s s' : State) (nextDealer : Dealer) (nextDeck : list Card) :
  screen s = Table → phase s = Playing → moneyInvariant s →
  advanceTurn s (players s) nextDealer nextDeck (pot s) = Return s' →
  moneyInvariant s'.
Proof.
  intros Hscreen Hphase Hinv. unfold advanceTurn.
  destruct (nextActiveIndex (players s) (currentIndex s)) as [j|e]; [|done].
  unfold mbind, completion_bind. destruct (j =? -1).
  - destruct Hinv as (Hpot & Hall & _ & Hcase). rewrite Hphase in Hcase.
    apply handleDealerTurn_money; try done. by destruct Hcase.
  - intros [= <-]. by apply (moneyInvariant_same s).
Qed.

Lemma handleHit_money (s s' : State) :
  screen s = Table → phase s = Playing → moneyInvariant s →
  handleHit s = Return s' → moneyInvariant s'.
Proof.
  intros Hscreen Hphase Hinv.
  destruct (at_index (players s) (currentIndex s)) as [player|] eqn:Hat.
  2:{ rewrite handleHit_guard by (by left). by intros [= <-]. }
  destruct (decide (status player = StActive)) as [Hact|Hnot].
  2:{ rewrite handleHit_guard by (right; eauto). by intros [= <-]. }
  destruct (drawCard (deck s)) as [[card|] next] eqn:Hdraw.
  2:{ unfold handleHit. by rewrite Hat, Hact, Hdraw. }
  rewrite (handleHit_step s player card next Hat Hact Hdraw). cbv zeta.
  set (updatedPlayers := <[Z.to_nat (currentIndex s) := playerAfterHit player card]>
                           (players s)).
  assert (Hs1 : moneyInvariant (setPlayers updatedPlayers (setDeck next s))).
  { apply (moneyInvariant_same s); try done. cbn [players setPlayers].
    unfold updatedPlayers. rewrite list_fmap_insert. apply list_insert_id.
    apply at_index_Some in Hat as [_ Hat]. by rewrite list_lookup_fmap, Hat. }
  destruct (_ <? 21); [by intros [= <-]|].
  by apply (advanceTurn_money (setPlayers updatedPlayers (setDeck next s))).
Qed.

Lemma handleStand_money (s s' : State) :
  screen s = Table → phase s = Playing → moneyInvariant s →
  handleStand s = Return s' → moneyInvariant s'.
Proof.
  intros Hscreen Hphase Hinv. unfold handleStand.
  set (updatedPlayers := mapAt (currentIndex s) (withStatus StStand) (players s)).
  apply (advanceTurn_money (setPlayers updatedPlayers s)); try done.
  apply (moneyInvariant_same s); try done. cbn [players setPlayers].
  by apply mapAt_preserves.
Qed.

Lemma handleDeal_money (rand : nat → nat) (s s' : State) :
  screen s = Table → phase s = Betting → moneyInvariant s →
  handleDeal rand s = Return s' → moneyInvariant s'.
Proof.
  intros Hscreen Hphase Hinv.
  destruct (existsb invalidBet (players s)) eqn:Hinvalid.
  { rewrite handleDeal_rejects by done. intros [= <-].
    by apply (moneyInvariant_same s). }
  destruct Hinv as (Hpot & Hall & _ & Hcase). rewrite Hphase in Hcase.
  pose proof (proj1 (valid_every_player _) Hinvalid) as Hvalid.
  unfold handleDeal. rewrite Hinvalid.
  destruct (dealInitial rand (deck s) (reservePlayers (players s)))
    as [[[nextDeck dealtPlayers] nextDealer]|e] eqn:Hdeal; [|done].
  apply (dealInitial_preserves (λ player, (chips player, bet player))) in Hdeal;
    [|done..].
  assert (Hres : Forall (λ player, (0 <= chips player ∧ 0 <= bet player)
                                   ∧ 0 < bet player)%Q (reservePlayers (players s))).
  { unfold reservePlayers. apply Forall_fmap.
    eapply Forall_impl; [exact Hvalid|]. intros player [Hpos Hle].
    cbn [chips bet withChips withRoundStartChips withDelta withResult withHand
         withStatus compose]. lra. }
  assert (Hdealt : Forall (λ player, (0 <= chips player ∧ 0 <= bet player)
                                      ∧ 0 < bet player)%Q dealtPlayers).
  { by apply (Forall_proj (λ player, (chips player, bet player))
                (λ stake, (0 <= stake.1 ∧ 0 <= stake.2) ∧ 0 < stake.2)%Q _ _ Hdeal). }
  apply Forall_and in Hdealt as [Hdealt Hbets].
  assert (Hsum : sumQ bet dealtPlayers = sumQ bet (players s)).
  { apply sumQ_proj. apply (f_equal (fmap snd)) in Hdeal.
    rewrite <- !list_fmap_compose in Hdeal. etrans; [exact Hdeal|].
    unfold reservePlayers. rewrite <- list_fmap_compose. by apply list_fmap_ext. }
  assert (Hincrease : (foldl (λ sum player, sum + bet player) 0 (players s)
                       == sumQ bet (players s))%Q).
  { rewrite foldl_sum_bets. ring. }
  assert (Hnonneg : (0 <= sumQ bet (players s))%Q).
  { rewrite <- Hsum. clear -Hdealt. induction Hdealt as [|p l [_ Hp] _ IH]; simpl; lra. }
  unfold mbind, completion_bind, nextActiveIndex.
  change (-1 + 1 <? 0) with false. cbv iota.
  assert (Hpot' : (0 <= pot s + foldl (λ sum player, sum + bet player) 0 (players s))%Q)
    by lra.
  destruct (scanActive _ _ =? -1).
  - destruct (isMulti s) eqn:Hmulti.
    + apply handleDealerTurn_money; [done|done|done|].
      intros _. rewrite Hsum. lra.
    + apply handleDealerTurn_money; [done|done|done|].
      unfold isMulti in *.
      cbn [playerCount setMessage setPhase setDealer setPlayers setDeck].
      by rewrite Hmulti.
  - intros Heq%Return_inj. subst s'. unfold moneyInvariant.
    destruct (isMulti s) eqn:Hmulti; unfold isMulti in *;
      cbn [pot players screen phase playerCount setCurrentIndex setPot setMessage
           setPhase setDealer setPlayers setDeck];
      rewrite Hmulti, Hscreen.
    + split; [done|]. split; [done|]. split; [done|]. split; [done|].
      intros _. rewrite Hsum. lra.
    + split; [done|]. split; [done|]. split; [done|]. by split.
Qed.

Lemma moneyInvariant_betting (s : State) :
  phase s = Betting →
  moneyInvariant s ↔ (0 <= pot s)%Q ∧ betsWithinChips s.
Proof.
  intros Hphase. unfold moneyInvariant, betsWithinChips, betWithinChips.
  rewrite Hphase. split.
  - intros (Hpot & Hall & _ & Hle). split; [done|].
    apply Forall_and. split; [|done].
    eapply Forall_impl; [exact Hall|]. by intros player [_ ?].
  - intros (Hpot & [Hbet Hle]%Forall_and). split; [done|]. split; [|by split].
    apply Forall_forall. intros player Hin.
    pose proof (proj1 (Forall_forall _ _) Hbet player Hin).
    pose proof (proj1 (Forall_forall _ _) Hle player Hin). cbv beta in *. split; lra.
Qed.

Lemma offered_chip_nonneg (value : Q) :
  existsb (Qeq_bool value) CHIP_VALUES = true → (0 <= value)%Q.
Proof.
  intros (amount & Hin & Heq%Qeq_bool_iff)%existsb_exists. rewrite Heq.
  unfold CHIP_VALUES in Hin. simpl in Hin.
  destruct Hin as [<-|[<-|[<-|[<-|[<-|[<-|[]]]]]]]; done.
Qed.

Lemma click_money (rand : nat → nat) (e : Event) (s s' : State) :
  moneyInvariant s → click rand e s = Return s' → moneyInvariant s'.
Proof.
  intros Hinv. unfold click.
  destruct (offered s e) eqn:Hoff; [|by intros [= <-]].
  destruct e; cbn [handler offered] in *.
  - intros [= <-]. apply andb_true_iff in Hoff as [Hscreen%bool_decide_eq_true _].
    destruct Hinv as (Hpot & Hall & Hlobby & Hcase).
    pose proof (Hlobby Hscreen) as Hphase. rewrite Hphase in Hcase.
    unfold moneyInvariant. cbn [pot players screen phase setPlayerCount].
    by rewrite Hphase.
  - intros [= <-]. unfold moneyInvariant.
    cbn [pot players screen phase handleLobbyStart setMessage setPot setRound setScreen
           setPhase setDealer setPlayers].
    split; [done|]. split; [|split; [done|]];
      unfold buildPlayers; apply Forall_fmap, Forall_forall; intros index _;
      cbn [chips bet compose]; rewrite lookup_nil; by cbn.
  - intros [= <-].
    repeat (apply andb_true_iff in Hoff as [Hoff ?]).
    apply bool_decide_eq_true in Hoff.
    assert (Hphase : phase s = Betting) by (by apply (bool_decide_eq_true (phase s = Betting))).
    apply moneyInvariant_betting; [done|].
    apply moneyInvariant_betting in Hinv as [Hpot Hwithin]; [|done].
    split; [done|]. apply handleBetAdd_within; [|done].
    by apply offered_chip_nonneg.
  - intros [= <-].
    repeat (apply andb_true_iff in Hoff as [Hoff ?]).
    assert (Hphase : phase s = Betting) by (by apply (bool_decide_eq_true (phase s = Betting))).
    apply moneyInvariant_betting; [done|].
    apply moneyInvariant_betting in Hinv as [Hpot Hwithin]; [|done].
    split; [done|]. by apply handleBetClear_within.
  - intros [= <-].
    repeat (apply andb_true_iff in Hoff as [Hoff ?]).
    assert (Hphase : phase s = Betting) by (by apply (bool_decide_eq_true (phase s = Betting))).
    apply moneyInvariant_betting; [done|].
    apply moneyInvariant_betting in Hinv as [Hpot Hwithin]; [|done].
    split; [done|]. by apply handleBetAllIn_within.
  - apply andb_true_iff in Hoff as [Hscreen%bool_decide_eq_true Hphase%bool_decide_eq_true].
    by apply handleDeal_money.
  - apply andb_true_iff in Hoff as [Hscreen%bool_decide_eq_true Hphase%bool_decide_eq_true].
    by apply handleHit_money.
  - apply andb_true_iff in Hoff as [Hscreen%bool_decide_eq_true Hphase%bool_decide_eq_true].
    by apply handleStand_money.
  - intros [= <-].
    apply andb_true_iff in Hoff as [Hscreen%bool_decide_eq_true Hphase%bool_decide_eq_true].
    destruct Hinv as (Hpot & Hall & _ & _).
    apply moneyInvariant_betting; [done|]. split; [done|].
    unfold betsWithinChips, handleNextRound.
    cbn [players setMessage setRound setPhase setDealer setPlayers].
    apply Forall_fmap. eapply Forall_impl; [exact Hall|].
    intros player [Hchips _]. unfold betWithinChips.
    cbn [chips bet withBet withHand withStatus withResult withDelta compose].
    split; [apply Qle_refl|done].
Qed.

Lemma dealtState_money (rand : nat → nat) (s : State) (nextDeck : list Card)
    (dealtPlayers : list Player) (nextDealer : Dealer) :
  screen s = Table → phase s = Betting → moneyInvariant s →
  existsb invalidBet (players s) = false →
  dealInitial rand (deck s) (reservePlayers (players s))
  = Return (nextDeck, dealtPlayers, nextDealer) →
  moneyInvariant (dealtState s dealtPlayers nextDealer nextDeck).
Proof.
  intros Hscreen Hphase (Hpot & Hall & _ & Hcase) Hinvalid Hdeal.
  rewrite Hphase in Hcase.
  pose proof (proj1 (valid_every_player _) Hinvalid) as Hvalid.
  apply (dealInitial_preserves (λ player, (chips player, bet player))) in Hdeal;
    [|done..].
  assert (Hres : Forall (λ player, (0 <= chips player ∧ 0 <= bet player)
                                   ∧ 0 < bet player)%Q (reservePlayers (players s))).
  { unfold reservePlayers. apply Forall_fmap.
    eapply Forall_impl; [exact Hvalid|]. intros player [Hpos Hle].
    cbn [chips bet withChips withRoundStartChips withDelta withResult withHand
         withStatus compose]. lra. }
  assert (Hdealt : Forall (λ player, (0 <= chips player ∧ 0 <= bet player)
                                      ∧ 0 < bet player)%Q dealtPlayers).
  { by apply (Forall_proj (λ player, (chips player, bet player))
                (λ stake, (0 <= stake.1 ∧ 0 <= stake.2) ∧ 0 < stake.2)%Q _ _ Hdeal). }
  apply Forall_and in Hdealt as [Hdealt Hbets].
  assert (Hsum : sumQ bet dealtPlayers = sumQ bet (players s)).
  { apply sumQ_proj. apply (f_equal (fmap snd)) in Hdeal.
    rewrite <- !list_fmap_compose in Hdeal. etrans; [exact Hdeal|].
    unfold reservePlayers. rewrite <- list_fmap_compose. by apply list_fmap_ext. }
  assert (Hincrease : (foldl (λ sum player, sum + bet player) 0 (players s)
                       == sumQ bet (players s))%Q).
  { rewrite foldl_sum_bets. ring. }
  assert (Hnonneg : (0 <= sumQ bet (players s))%Q).
  { rewrite <- Hsum. clear -Hdealt. induction Hdealt as [|p l [_ Hp] _ IH]; simpl; lra. }
  unfold moneyInvariant, dealtState, potAfterDeal.
  change (isMulti {| screen := _; phase := _; playerCount := playerCount s;
                     players := _; dealer := _; deck := _; currentIndex := _;
                     message := _; round := _; pot := _ |}) with (isMulti s).
  cbn [pot players screen phase]. rewrite Hscreen.
  destruct (isMulti s) eqn:Hmulti.
  - split; [lra|]. split; [done|]. split; [done|]. split; [done|].
    intros _. rewrite Hsum. lra.
  - split; [done|]. split; [done|]. split; [done|]. by split.
Qed.

Lemma leftByThrow_money (rand : nat → nat) (e : Event) (s s' : State) :
  moneyInvariant s → leftByThrow rand s e s' → moneyInvariant s'.
Proof.
  intros Hinv.
  destruct 1 as [| nextDeck dealtPlayers nextDealer Hscreen Hphase Hvalid Hdeal _ _
                 | | player card next _ _ Hat _ _ _ _ _ | ]; try done.
  - by eapply dealtState_money.
  - apply (moneyInvariant_same s); try done. cbn [players setPlayers].
    rewrite list_fmap_insert. apply list_insert_id.
    apply at_index_Some in Hat as [_ Hat]. by rewrite list_lookup_fmap, Hat.
  - apply (moneyInvariant_same s); try done. cbn [players setPlayers].
    by apply mapAt_preserves.
Qed.

Lemma reachable_moneyInvariant (s : State) : reachable s → moneyInvariant s.
Proof.
  induction 1 as [rand|rand e s s' _ IH Hclick|rand e s err Hreach IH Hclick].
  - unfold moneyInvariant. cbn [pot players screen phase initialState].
    split; [done|]. by repeat split.
  - by eapply click_money.
  - eapply leftByThrow_money; [exact IH|]. by eapply reachable_leftByThrow.
Qed.

(** X10. The money of every table the controls lead to is sound: the pot
    and every player's chips and bet are 0 or more; while bets are placed
    no bet exceeds its player's chips; while a round is played every bet is
    above 0 and, at a table of several seats, the pot holds at least the
    bets of the round; and the lobby is only shown in the betting phase. *)
Theorem reachable_money_is_sound (s : State) :
  reachable s →
  (0 <= pot s)%Q
  ∧ (∀ player, player ∈ players s → (0 <= chips player)%Q ∧ (0 <= bet player)%Q)
  ∧ (phase s = Betting →
     ∀ player, player ∈ players s → (bet player <= chips player)%Q)
  ∧ (phase s = Playing →
     (∀ player, player ∈ players s → (0 < bet player)%Q)
     ∧ (isMulti s = true → (sumQ bet (players s) <= pot s)%Q))
  ∧ (screen s = Lobby → phase s = Betting).
Proof.
  intros (Hpot & Hall & Hlobby & Hcase)%reachable_moneyInvariant.
  split; [done|]. split; [by apply Forall_forall|]. split; [|split; [|done]].
  - intros Hphase. rewrite Hphase in Hcase. by apply Forall_forall.
  - intros Hphase. rewrite Hphase in Hcase. destruct Hcase as [Hbets Hsum].
    split; [by apply Forall_forall|done].
Qed.

Lemma reachable_money_is_sound_witness :
  reachable tableOfTwoDealt
  ∧ phase tableOfTwoDealt = Playing
  ∧ isMulti tableOfTwoDealt = true
  ∧ (sumQ bet (players tableOfTwoDealt) <= pot tableOfTwoDealt)%Q.
Proof.
  assert (Hreach : reachable tableOfTwoDealt) by apply stateAfter_reachable.
  assert (Hphase : phase tableOfTwoDealt = Playing) by (vm_compute; reflexivity).
  assert (Hmulti : isMulti tableOfTwoDealt = true) by (vm_compute; reflexivity).
  split; [exact Hreach|]. split; [exact Hphase|]. split; [exact Hmulti|].
  exact (proj2 (proj1 (proj2 (proj2 (proj2
           (reachable_money_is_sound tableOfTwoDealt Hreach)))) Hphase) Hmulti).
Defined.

(** ** Hands, statuses and results *)

Lemma twoCards_le_21 (c1 c2 : Card) :
  c1 ∈ createDeck → c2 ∈ createDeck → calculateHand [c1; c2] <= 21.
Proof.
  intros H1%createDeck_cardOf H2%createDeck_cardOf. rewrite H1, H2.
  generalize (suit c1) (suit c2). intros s1 s2.
  by destruct (rank c1), (rank c2); vm_compute.
Qed.

Lemma dealtSeat_handStatus (player : Player) (c1 c2 : Card) :
  c1 ∈ createDeck → c2 ∈ createDeck →
  handStatus (dealtSeat player c1 c2) ∧ result (dealtSeat player c1 c2) = ResNone.
Proof.
  intros H1 H2. split; [|done]. unfold handStatus, dealtSeat. cbn [hand status].
  split; [simpl; lia|].
  destruct (isBlackjack [c1; c2]) eqn:Hbj; [done|]. split; [done|].
  pose proof (twoCards_le_21 c1 c2 H1 H2) as Hle.
  unfold isBlackjack in Hbj. rewrite bool_decide_eq_true_2 in Hbj by done.
  simpl in Hbj. apply Z.eqb_neq in Hbj. lia.
Qed.

Lemma dealPlayers_Forall2 (nextDeck deck' : list Card) (dealtPlayers dealt' : list Player) :
  dealPlayers nextDeck dealtPlayers = Return (dealt', deck') →
  Forall2 (λ player player', ∃ card, player' = withHand (hand player ++ [card]) player)
          dealtPlayers dealt'.
Proof.
  revert nextDeck dealt' deck'.
  induction dealtPlayers as [|player rest IH]; intros nextDeck dealt' deck'.
  - intros [= <- <-]. constructor.
  - cbn [dealPlayers]. destruct (drawCard nextDeck) as [[card|] next]; [|done].
    destruct (dealPlayers next rest) as [[rest' deck1]|e] eqn:Hrest; [|done].
    unfold mbind, completion_bind. intros [= <- <-].
    constructor; [by exists card|by eapply IH].
Qed.

Lemma dealPass_Forall2 (st st' : list Card * list Player * Dealer) :
  dealPass st = Return st' →
  Forall2 (λ player player', ∃ card, player' = withHand (hand player ++ [card]) player)
          st.1.2 st'.1.2
  ∧ ∃ card, st'.2 = {| dealerHand := dealerHand st.2 ++ [card]; hidden := hidden st.2 |}.
Proof.
  destruct st as [[nextDeck dealtPlayers] nextDealer]. unfold dealPass.
  destruct (dealPlayers nextDeck dealtPlayers) as [[dealt' deck1]|e] eqn:Hdeal; [|done].
  unfold mbind, completion_bind.
  destruct (drawCard deck1) as [[card|] next]; [|done].
  intros [= <-]. simpl. split; [by eapply dealPlayers_Forall2|by exists card].
Qed.

Lemma dealInitial_seats (rand : nat → nat) (preparedDeck nextDeck : list Card)
    (preparedPlayers dealtPlayers : list Player) (nextDealer : Dealer) :
  dealInitial rand preparedDeck preparedPlayers
  = Return (nextDeck, dealtPlayers, nextDealer) →
  (∃ c1 c2, nextDealer = {| dealerHand := [c1; c2]; hidden := true |})
  ∧ Forall2 (λ player player', ∃ c1 c2, player' = dealtSeat player c1 c2)
            preparedPlayers dealtPlayers.
Proof.
  unfold dealInitial.
  destruct (dealPass _) as [st1|e] eqn:Hpass1; [|done].
  unfold mbind at 1, completion_bind at 1.
  destruct (dealPass st1) as [[[deck2 dealt2] dealer2]|e] eqn:Hpass2; [|done].
  unfold mbind, completion_bind. intros [= <- <- <-].
  apply dealPass_Forall2 in Hpass1 as [Hfirst [c1 Hd1]].
  apply dealPass_Forall2 in Hpass2 as [Hsecond [c2 Hd2]].
  simpl in Hfirst, Hsecond, Hd1, Hd2. split.
  - exists c1, c2. by rewrite Hd2, Hd1.
  - apply Forall2_fmap_r. apply Forall2_fmap_l in Hfirst.
    eapply Forall2_trans; [|exact Hfirst|exact Hsecond].
    intros p p1 p2 [a ->] [b ->]. exists a, b. simpl.
    unfold dealtSeat. cbn. by destruct (isBlackjack [a; b]).
Qed.

Lemma handStatus_same (player player' : Player) :
  hand player' = hand player → status player' = status player →
  handStatus player → handStatus player'.
Proof. unfold handStatus. by intros -> ->. Qed.

Lemma resultAgainst_same (dealerCards : list Card) (player player' : Player) :
  hand player' = hand player → status player' = status player →
  resultAgainst dealerCards player' = resultAgainst dealerCards player.
Proof. unfold resultAgainst, resolveResult. by intros -> ->. Qed.

Lemma settledState_round (s : State) (currentPlayers : list Player)
    (finalHand nextDeck : list Card) (nextPot : Q) :
  (2 <= length finalHand)%nat → 17 <= calculateHand finalHand →
  Forall handStatus currentPlayers →
  roundInvariant (settledState s currentPlayers finalHand nextDeck nextPot).
Proof.
  intros Hlen Htotal Hplayers. unfold roundInvariant, settledState.
  cbn [phase dealer players hidden dealerHand].
  split; [done|]. split; [done|]. split; [done|].
  destruct (isMulti s); unfold pooledFinalPlayers, soloFinalPlayers, resolvePlayers;
    rewrite <- !list_fmap_compose; apply Forall_fmap;
    (eapply Forall_impl; [exact Hplayers|]); intros player Hst; simpl; by split.
Qed.

Lemma handleDealerTurn_round (s s' : State) (currentPlayers : list Player)
    (currentDealer : Dealer) (currentDeck : list Card) (nextPot : Q) :
  (2 <= length (dealerHand currentDealer))%nat →
  Forall handStatus currentPlayers →
  handleDealerTurn s currentPlayers currentDealer currentDeck nextPot = Return s' →
  roundInvariant s'.
Proof.
  intros Hlen Hplayers (finalHand & nextDeck & Hdraw & ->)%handleDealerTurn_inv.
  destruct (dealerDraws_Return _ _ _ _ Hdraw) as (drawn & -> & _ & Htotal & _).
  apply settledState_round; [rewrite length_app; lia|done|done].
Qed.

Lemma advanceTurn_round (s s' : State) (nextDeck : list Card) (nextPot : Q) :
  phase s = Playing → roundInvariant s →
  advanceTurn s (players s) (dealer s) nextDeck nextPot = Return s' →
  roundInvariant s'.
Proof.
  intros Hphase Hinv. unfold advanceTurn.
  destruct (nextActiveIndex (players s) (currentIndex s)) as [j|e]; [|done].
  unfold mbind, completion_bind. unfold roundInvariant in Hinv. rewrite Hphase in Hinv.
  destruct Hinv as (Hhidden & Hlen & Hplayers). destruct (j =? -1).
  - apply handleDealerTurn_round; [lia|].
    eapply Forall_impl; [exact Hplayers|]. by intros player [? _].
  - intros [= <-]. unfold roundInvariant.
    cbn [phase dealer players setCurrentIndex]. by rewrite Hphase.
Qed.

Lemma playerAfterHit_handStatus (player : Player) (card : Card) :
  handStatus player → handStatus (playerAfterHit player card).
Proof.
  intros (Hlen & _ & _). unfold handStatus, playerAfterHit, statusAfterHit.
  cbn [hand status withHand withStatus compose].
  split; [rewrite length_app; simpl; lia|]. split.
  - unfold isBlackjack. rewrite bool_decide_eq_false_2; [done|].
    rewrite length_app. simpl. lia.
  - destruct (Z.ltb_spec 21 (calculateHand (hand player ++ [card]))); [done|].
    destruct (Z.eqb_spec (calculateHand (hand player ++ [card])) 21); lia.
Qed.

Lemma roundInvariant_insert (s : State) (i : nat) (player : Player) (next : list Card) :
  phase s = Playing → roundInvariant s →
  handStatus player → result player = ResNone →
  roundInvariant (setPlayers (<[i := player]> (players s)) (setDeck next s)).
Proof.
  intros Hphase Hinv Hst Hres. unfold roundInvariant in *.
  cbn [phase dealer players setPlayers setDeck]. rewrite Hphase in *.
  destruct Hinv as (Hhidden & Hlen & Hplayers).
  split; [done|]. split; [done|].
  apply Forall_lookup. intros k q Hq.
  destruct (decide (i = k)) as [<-|Hne].
  - apply list_lookup_insert_Some in Hq as [(_ & <- & _)|[? _]]; done.
  - rewrite list_lookup_insert_ne in Hq by done.
    by apply (proj1 (Forall_lookup _ _) Hplayers k q).
Qed.

Lemma handleHit_round (s s' : State) :
  phase s = Playing → roundInvariant s →
  handleHit s = Return s' → roundInvariant s'.
Proof.
  intros Hphase Hinv.
  destruct (at_index (players s) (currentIndex s)) as [player|] eqn:Hat.
  2:{ rewrite handleHit_guard by (by left). by intros [= <-]. }
  destruct (decide (status player = StActive)) as [Hact|Hnot].
  2:{ rewrite handleHit_guard by (right; eauto). by intros [= <-]. }
  destruct (drawCard (deck s)) as [[card|] next] eqn:Hdraw.
  2:{ unfold handleHit. by rewrite Hat, Hact, Hdraw. }
  rewrite (handleHit_step s player card next Hat Hact Hdraw). cbv zeta.
  set (updatedPlayers := <[Z.to_nat (currentIndex s) := playerAfterHit player card]>
                           (players s)).
  assert (Hplayer : handStatus player ∧ result player = ResNone).
  { unfold roundInvariant in Hinv. rewrite Hphase in Hinv.
    destruct Hinv as (_ & _ & Hplayers). apply at_index_Some in Hat as [_ Hat].
    by apply (proj1 (Forall_lookup _ _) Hplayers _ _ Hat). }
  assert (Hs1 : roundInvariant (setPlayers updatedPlayers (setDeck next s))).
  { apply roundInvariant_insert; [done|done| |by destruct Hplayer].
    apply playerAfterHit_handStatus. by destruct Hplayer. }
  destruct (_ <? 21); [by intros [= <-]|].
  by apply (advanceTurn_round (setPlayers updatedPlayers (setDeck next s))).
Qed.

Lemma handleStand_round (s s' : State) :
  phase s = Playing → turnInvariant s → roundInvariant s →
  handleStand s = Return s' → roundInvariant s'.
Proof.
  intros Hphase Hturn Hinv. unfold turnInvariant in Hturn. rewrite Hphase in Hturn.
  destruct Hturn as [(player & Hat & Hact) _].
  rewrite (handleStand_step s player Hat). cbv zeta.
  assert (Hplayer : handStatus player ∧ result player = ResNone).
  { unfold roundInvariant in Hinv. rewrite Hphase in Hinv.
    destruct Hinv as (_ & _ & Hplayers). apply at_index_Some in Hat as [_ Hat].
    by apply (proj1 (Forall_lookup _ _) Hplayers _ _ Hat). }
  destruct Hplayer as [(Hlen & Hbj & Htotal) Hres]. rewrite Hact in Htotal.
  assert (Hs1 : roundInvariant
                  (setPlayers (<[Z.to_nat (currentIndex s) := withStatus StStand player]>
                                 (players s)) (setDeck (deck s) s))).
  { apply roundInvariant_insert; [done|done| |done].
    unfold handStatus. cbn [hand status withStatus]. split; [done|]. split; [|lia].
    intros Hnat%Hbj. congruence. }
  apply (advanceTurn_round
           (setPlayers (<[Z.to_nat (currentIndex s) := withStatus StStand player]>
                          (players s)) s)); [done|].
  by destruct s.
Qed.

Lemma handleDeal_round (rand : nat → nat) (s s' : State) :
  phase s = Betting → tableCards s ⊆+ createDeck → roundInvariant s →
  handleDeal rand s = Return s' → roundInvariant s'.
Proof.
  intros Hphase Hcards Hinv. unfold handleDeal.
  destruct (existsb invalidBet (players s)).
  { intros [= <-]. unfold roundInvariant in *.
    cbn [phase dealer players setMessage]. by rewrite Hphase in *. }
  destruct (dealInitial rand (deck s) (reservePlayers (players s)))
    as [[[nextDeck dealtPlayers] nextDealer]|e] eqn:Hdeal; [|done].
  pose proof (dealInitial_cards _ _ _ _ _ _ Hdeal) as Hperm.
  pose proof (ensureDeck_submseteq rand s Hcards) as Hsub. rewrite <- Hperm in Hsub.
  apply dealInitial_seats in Hdeal as [(d1 & d2 & ->) Hseats].
  assert (Hdealt : Forall (λ player, handStatus player ∧ result player = ResNone)
                          dealtPlayers).
  { apply Forall_forall. intros q Hq.
    apply list_elem_of_lookup in Hq as [i Hi].
    destruct (Forall2_lookup_r _ _ _ _ _ Hseats Hi) as (p & _ & c1 & c2 & ->).
    assert (Hin : ∀ card, card ∈ [c1; c2] → card ∈ createDeck).
    { intros card Hc. eapply elem_of_submseteq; [|exact Hsub].
      apply elem_of_app. left. apply list_elem_of_In, in_concat.
      exists [c1; c2]. split; [|by apply list_elem_of_In].
      apply list_elem_of_In, list_elem_of_fmap. eexists. split; [|by eapply list_elem_of_lookup_2].
      reflexivity. }
    apply dealtSeat_handStatus; apply Hin; [left|right; left]. }
  unfold mbind, completion_bind, nextActiveIndex.
  change (-1 + 1 <? 0) with false. cbv iota.
  destruct (scanActive _ _ =? -1).
  - apply handleDealerTurn_round; [simpl; lia|].
    eapply Forall_impl; [exact Hdealt|]. by intros player [? _].
  - intros Heq%Return_inj. subst s'. unfold roundInvariant.
    by destruct (isMulti s);
      cbn [phase dealer players hidden dealerHand setCurrentIndex setPot setMessage
           setPhase setDealer setPlayers setDeck length].
Qed.

Lemma mapAt_Forall (P : Player → Prop) (index : Z) (f : Player → Player)
    (l : list Player) :
  (∀ player, P player → P (f player)) → Forall P l → Forall P (mapAt index f l).
Proof.
  intros Hf Hl. apply Forall_lookup. intros k q Hq. rewrite mapAt_lookup in Hq.
  destruct (l !! k) as [p|] eqn:Hp; [|done]. injection Hq as <-.
  pose proof (proj1 (Forall_lookup _ _) Hl k p Hp).
  destruct (Z.of_nat k =? index); auto.
Qed.

Lemma betAdjust_round (index : Z) (f : Player → Q) (s : State) :
  phase s = Betting → roundInvariant s →
  roundInvariant
    (setPlayers (mapAt index (λ player, withBet (f player) player) (players s)) s).
Proof.
  intros Hphase Hinv. unfold roundInvariant in *.
  cbn [phase dealer players setPlayers]. rewrite Hphase in *.
  destruct Hinv as [Hdealer Hplayers]. split; [done|].
  by apply mapAt_Forall.
Qed.

Lemma click_round (rand : nat → nat) (e : Event) (s s' : State) :
  turnInvariant s → tableCards s ⊆+ createDeck → roundInvariant s →
  click rand e s = Return s' → roundInvariant s'.
Proof.
  intros Hturn Hcards Hinv. unfold click.
  destruct (offered s e) eqn:Hoff; [|by intros [= <-]].
  destruct e; cbn [handler offered] in *.
  - by intros [= <-].
  - intros [= <-]. unfold roundInvariant.
    cbn [phase dealer players handleLobbyStart setMessage setPot setRound setScreen
           setPhase setDealer setPlayers].
    split; [done|]. unfold buildPlayers. apply Forall_fmap, Forall_forall. by intros q _.
  - intros [= <-]. repeat (apply andb_true_iff in Hoff as [Hoff ?]).
    apply (betAdjust_round _ (λ player, Qmin (chips player) (bet player + value0)));
      [|done].
    by apply (bool_decide_eq_true (phase s = Betting)).
  - intros [= <-]. repeat (apply andb_true_iff in Hoff as [Hoff ?]).
    apply (betAdjust_round _ (λ _, 0%Q)); [|done].
    by apply (bool_decide_eq_true (phase s = Betting)).
  - intros [= <-]. repeat (apply andb_true_iff in Hoff as [Hoff ?]).
    apply (betAdjust_round _ (λ player, chips player)); [|done].
    by apply (bool_decide_eq_true (phase s = Betting)).
  - apply andb_true_iff in Hoff as [_ Hphase%bool_decide_eq_true].
    by apply handleDeal_round.
  - apply andb_true_iff in Hoff as [_ Hphase%bool_decide_eq_true].
    by apply handleHit_round.
  - apply andb_true_iff in Hoff as [_ Hphase%bool_decide_eq_true].
    by apply handleStand_round.
  - intros [= <-]. unfold roundInvariant, handleNextRound.
    cbn [phase dealer players setMessage setRound setPhase setDealer setPlayers].
    split; [done|]. apply Forall_fmap, Forall_forall. by intros q _.
Qed.

(** ** The invariant of the table, stalled tables included *)

Lemma dealInitial_round (rand : nat → nat) (s : State) (nextDeck : list Card)
    (dealtPlayers : list Player) (nextDealer : Dealer) :
  tableCards s ⊆+ createDeck →
  dealInitial rand (deck s) (reservePlayers (players s))
  = Return (nextDeck, dealtPlayers, nextDealer) →
  hidden nextDealer = true
  ∧ length (dealerHand nextDealer) = 2%nat
  ∧ Forall (λ player, handStatus player ∧ result player = ResNone) dealtPlayers.
Proof.
  intros Hcards Hdeal.
  pose proof (dealInitial_cards _ _ _ _ _ _ Hdeal) as Hperm.
  pose proof (ensureDeck_submseteq rand s Hcards) as Hsub. rewrite <- Hperm in Hsub.
  apply dealInitial_seats in Hdeal as [(d1 & d2 & ->) Hseats].
  split; [done|]. split; [done|].
  apply Forall_forall. intros q Hq.
  apply list_elem_of_lookup in Hq as [i Hi].
  destruct (Forall2_lookup_r _ _ _ _ _ Hseats Hi) as (p & _ & c1 & c2 & ->).
  assert (Hin : ∀ card, card ∈ [c1; c2] → card ∈ createDeck).
  { intros card Hc. eapply elem_of_submseteq; [|exact Hsub].
    apply elem_of_app. left. apply list_elem_of_In, in_concat.
    exists [c1; c2]. split; [|by apply list_elem_of_In].
    apply list_elem_of_In, list_elem_of_fmap. eexists. split; [|by eapply list_elem_of_lookup_2].
    reflexivity. }
  apply dealtSeat_handStatus; apply Hin; [left|right; left].
Qed.

Lemma stalled_not_sound (s : State) : stalled s → turnInvariant s → False.
Proof.
  intros [Hphase Hnone]. unfold turnInvariant. rewrite Hphase.
  intros [(player & [_ Hat]%at_index_Some & Hact) _].
  by apply (proj1 (noneActive_lookup _) Hnone _ _ Hat).
Qed.

(** At a stalled table a hit changes nothing and a stand throws: no click
    returns another state. *)
Lemma stalled_handleHit (s : State) : stalled s → handleHit s = Return s.
Proof.
  intros [_ Hnone]. apply handleHit_guard.
  destruct (at_index (players s) (currentIndex s)) as [player|] eqn:Hat; [|by left].
  right. exists player. split; [done|].
  apply at_index_Some in Hat as [_ Hat].
  by apply (proj1 (noneActive_lookup _) Hnone _ _ Hat).
Qed.

Lemma noneActive_stand (index : Z) (l : list Player) :
  noneActive l → noneActive (mapAt index (withStatus StStand) l).
Proof.
  intros Hnone. apply mapAt_Forall; [|done]. by intros player _.
Qed.

Lemma stalled_handleStand (s : State) :
  0 <= currentIndex s → stalled s →
  dealerDraws (dealerHand (dealer s)) (deck s) = Throw TypeError →
  handleStand s = Throw TypeError.
Proof.
  intros Hpos [_ Hnone] Hdraw. unfold handleStand.
  set (updatedPlayers := mapAt (currentIndex s) (withStatus StStand) (players s)).
  destruct (advanceTurn_spec (setPlayers updatedPlayers s) updatedPlayers (dealer s)
              (deck s) (pot s) Hpos)
    as [(j & p & _ & _ & [_ Hp]%at_index_Some & Hact & _)|[-> _]].
  - exfalso.
    by apply (proj1 (noneActive_lookup _) (noneActive_stand (currentIndex s) _ Hnone) _ _ Hp).
  - by apply handleDealerTurn_throws.
Qed.

Lemma stalled_click (rand : nat → nat) (e : Event) (s s' : State) :
  0 <= currentIndex s → stalled s → screen s = Table →
  dealerDraws (dealerHand (dealer s)) (deck s) = Throw TypeError →
  click rand e s = Return s' → s' = s.
Proof.
  intros Hpos Hstalled Hscreen Hdraw. pose proof Hstalled as [Hphase _]. unfold click.
  destruct (offered s e) eqn:Hoff; [|by intros [= <-]].
  destruct e; cbn [handler offered] in *;
    unfold onScreen, inPhase in Hoff;
    try (rewrite (bool_decide_eq_false_2 (screen s = Lobby)) in Hoff by (by rewrite Hscreen));
    try (rewrite (bool_decide_eq_false_2 (phase s = Betting)) in Hoff by (by rewrite Hphase));
    try (rewrite (bool_decide_eq_false_2 (phase s = RoundEnd)) in Hoff by (by rewrite Hphase));
    rewrite ?andb_false_r in Hoff; try done.
  - rewrite stalled_handleHit by done. by intros [= <-].
  - by rewrite stalled_handleStand.
Qed.

Lemma click_table (rand : nat → nat) (e : Event) (s s' : State) :
  tableCards s ⊆+ createDeck → tableInvariant s →
  click rand e s = Return s' → tableInvariant s'.
Proof.
  intros Hcards [Hpos [[Hturn Hround]|(Hstalled & Hscreen & Hdraw & Hrest)]] Hclick.
  - split; [by eapply click_index|]. left. split.
    + by eapply click_invariant.
    + by eapply click_round.
  - rewrite (stalled_click _ _ _ _ Hpos Hstalled Hscreen Hdraw Hclick).
    split; [done|]. by right.
Qed.

Lemma handStatus_stalledSeat (l : list Player) :
  Forall (λ player, handStatus player ∧ result player = ResNone) l →
  Forall stalledSeat l.
Proof.
  intros Hall. eapply Forall_impl; [exact Hall|].
  intros player [Hst Hres]. split; [done|by left].
Qed.

(** What every table in the [Playing] phase shows, stalled or not. *)
Lemma tableInvariant_playing (s : State) :
  tableInvariant s → phase s = Playing →
  hidden (dealer s) = true
  ∧ length (dealerHand (dealer s)) = 2%nat
  ∧ Forall stalledSeat (players s)
  ∧ noneActive (take (Z.to_nat (currentIndex s)) (players s)).
Proof.
  intros [_ [[Hturn Hround]|([_ Hnone] & _ & _ & Hhidden & Hlen & Hall)]] Hphase.
  - unfold turnInvariant in Hturn. unfold roundInvariant in Hround.
    rewrite Hphase in Hturn, Hround.
    destruct Hround as (Hhidden & Hlen & Hall). destruct Hturn as [_ Hbefore].
    split; [done|]. split; [done|]. split; [by apply handStatus_stalledSeat|done].
  - split; [done|]. split; [done|]. split; [done|].
    by apply Forall_take.
Qed.

Lemma leftByThrow_table (rand : nat → nat) (e : Event) (s s' : State) :
  tableCards s ⊆+ createDeck → tableInvariant s →
  leftByThrow rand s e s' → tableInvariant s'.
Proof.
  intros Hcards Hinv.
  destruct 1 as [| nextDeck dealtPlayers nextDealer Hscreen Hphase Hvalid Hdeal Hnone Hdraw
                 | | player card next Hscreen Hphase Hat Hact Hdeck Htotal Hafter Hdraw
                 | Hscreen Hphase Hafter Hdraw ]; try done.
  - (* a deal of naturals whose dealer turn throws *)
    destruct (dealInitial_round _ _ _ _ _ Hcards Hdeal) as (Hhidden & Hlen & Hall).
    split; [by destruct Hinv|]. right.
    split; [by split|]. split; [done|]. split; [done|]. split; [done|].
    split; [done|]. by apply handStatus_stalledSeat.
  - (* a hit that ends the last turn *)
    destruct (tableInvariant_playing s Hinv Hphase) as (Hhidden & Hlen & Hall & Hbefore).
    pose proof Hat as [Hpos Hlook]%at_index_Some.
    split; [by destruct Hinv|]. right.
    cbn [stalled phase players screen dealer deck setPlayers setDeck].
    unfold stalled. cbn [phase players setPlayers setDeck].
    assert (Hplayer : handStatus player ∧ result player = ResNone).
    { destruct (proj1 (Forall_lookup _ _) Hall _ _ Hlook) as [Hres [Hst|[_ Hst]]];
        [done|congruence]. }
    split; [split; [done|]|].
    + apply noneActive_lookup. intros k q Hq.
      destruct (decide (k = Z.to_nat (currentIndex s))) as [->|Hne].
      * rewrite list_lookup_insert_eq in Hq by (by eapply lookup_lt_Some).
        injection Hq as <-.
        unfold playerAfterHit, statusAfterHit. cbn [status withStatus].
        destruct (Z.ltb_spec 21 (calculateHand (hand player ++ [card]))); [done|].
        by destruct (Z.eqb_spec (calculateHand (hand player ++ [card])) 21); [|lia].
      * rewrite list_lookup_insert_ne in Hq by done.
        destruct (decide (k < Z.to_nat (currentIndex s))%nat) as [Hlow|Hhigh].
        -- apply (proj1 (noneActive_lookup _) Hbefore k q). by rewrite lookup_take_lt.
        -- apply (Hafter k q); [lia|done].
    + split; [done|]. split; [done|]. split; [done|]. split; [done|].
      apply Forall_insert; [done|]. split.
      * by destruct Hplayer.
      * left. apply playerAfterHit_handStatus. by destruct Hplayer.
  - (* a stand that ends the last turn *)
    destruct (tableInvariant_playing s Hinv Hphase) as (Hhidden & Hlen & Hall & Hbefore).
    destruct Hinv as [Hpos _].
    split; [done|]. right. unfold stalled. cbn [phase players screen dealer deck setPlayers].
    split; [split; [done|]|].
    + apply noneActive_lookup. intros k q Hq. rewrite mapAt_lookup in Hq.
      destruct (players s !! k) as [p|] eqn:Hp; [|done]. injection Hq as <-.
      destruct (Z.eqb_spec (Z.of_nat k) (currentIndex s)) as [Heq|Hne]; [done|].
      destruct (decide (k < Z.to_nat (currentIndex s))%nat) as [Hlow|Hhigh].
      * apply (proj1 (noneActive_lookup _) Hbefore k p). by rewrite lookup_take_lt.
      * apply (Hafter k p); [lia|done].
    + split; [done|]. split; [done|]. split; [done|]. split; [done|].
      apply Forall_lookup. intros k q Hq. rewrite mapAt_lookup in Hq.
      destruct (players s !! k) as [p|] eqn:Hp; [|done]. injection Hq as <-.
      pose proof (proj1 (Forall_lookup _ _) Hall _ _ Hp) as [Hres Hst].
      destruct (Z.of_nat k =? currentIndex s); [|by split].
      split; [done|]. right. cbn [hand status withStatus]. split; [|done].
      destruct Hst as [(Hlen2 & _)|[Hlen2 _]]; done.
Qed.

Lemma reachable_tableInvariant (s : State) : reachable s → tableInvariant s.
Proof.
  induction 1 as [rand|rand e s s' Hreach IH Hclick|rand e s err Hreach IH Hclick].
  - split; [done|]. left. split.
    + unfold turnInvariant. cbn [phase players initialState]. constructor.
    + unfold roundInvariant. cbn [phase dealer players initialState]. by split.
  - eapply click_table; [|exact IH|exact Hclick]. by apply reachable_cards.
  - eapply leftByThrow_table; [|exact IH|by eapply reachable_leftByThrow].
    by apply reachable_cards.
Qed.

(** A table the controls lead to is sound unless it is stalled. *)
Lemma reachable_sound (s : State) :
  reachable s → ¬ stalled s → turnInvariant s ∧ roundInvariant s.
Proof.
  intros [_ [Hsound|[Hstalled _]]]%reachable_tableInvariant Hnot; [done|].
  by destruct Hnot.
Qed.

Lemma reachable_stalled (s : State) :
  reachable s → stalled s →
  0 <= currentIndex s
  ∧ screen s = Table
  ∧ dealerDraws (dealerHand (dealer s)) (deck s) = Throw TypeError
  ∧ Forall stalledSeat (players s).
Proof.
  intros [Hpos [[Hturn _]|(_ & Hscreen & Hdraw & _ & _ & Hall)]]%reachable_tableInvariant
    Hstalled.
  - destruct (stalled_not_sound s Hstalled Hturn).
  - done.
Qed.

Lemma not_stalled_phase (s : State) : phase s ≠ Playing → ¬ stalled s.
Proof. by intros Hphase [? _]. Qed.

Lemma handStatus_bust (player : Player) :
  handStatus player → status player = StBust ↔ 21 < calculateHand (hand player).
Proof.
  intros (_ & _ & Hst). split.
  - intros Hb. by rewrite Hb in Hst.
  - intros Hgt. destruct (status player); try done; try lia.
    unfold isBlackjack in Hst. apply andb_true_iff in Hst as [_ Heq%Z.eqb_eq]. lia.
Qed.

Lemma handStatus_blackjack (player : Player) :
  handStatus player → status player = StBlackjack ↔ isBlackjack (hand player) = true.
Proof.
  intros (_ & Hbj & Hst). split; [|done]. intros Hb. by rewrite Hb in Hst.
Qed.

Lemma classify_decided (playerBust playerNatural dealerNatural dealerBust : bool)
    (playerTotal dealerTotal : Z) :
  classify playerBust playerNatural dealerNatural dealerBust playerTotal dealerTotal
  ≠ ResNone.
Proof.
  unfold classify.
  by destruct playerBust, playerNatural, dealerNatural, dealerBust,
       (playerTotal ?= dealerTotal).
Qed.

(** X11. The round shown by every table the controls lead to is consistent
    with the cards on it.  Between rounds nothing is dealt: the dealer and
    every player hold no card, every status is [idle] and no result is set.
    While a round is played the dealer holds two cards, the first one
    hidden, and no result is set.  During and after the round every player
    holds two cards at least; a [bust] player totals more than 21, a
    [blackjack] player holds a natural and an [active] player totals less
    than 21.  Conversely a hand above 21 is [bust] and a natural is
    [blackjack], except at a stalled table (the phase is [Playing] and no
    player is active, which a dealer turn that threw leaves behind), where a
    stand may have marked such a hand [stand]; at a stalled table the dealer
    cannot draw to 17 from the deck.  After the round the dealer shows a
    hand of 17 or more, no player is [active], and every player's result is
    decided and is the one the precedence order gives for the two hands as
    they lie on the table. *)
Theorem reachable_round_is_consistent (s : State) :
  reachable s →
  (phase s = Betting →
     dealer s = emptyDealer
     ∧ ∀ player, player ∈ players s →
         hand player = [] ∧ status player = StIdle ∧ result player = ResNone)
  ∧ (phase s = Playing →
     hidden (dealer s) = true
     ∧ length (dealerHand (dealer s)) = 2%nat
     ∧ ∀ player, player ∈ players s → result player = ResNone)
  ∧ (phase s ≠ Betting →
     ∀ player, player ∈ players s →
       (2 <= length (hand player))%nat
       ∧ status player ≠ StIdle
       ∧ (status player = StBust → 21 < calculateHand (hand player))
       ∧ (status player = StBlackjack → isBlackjack (hand player) = true)
       ∧ (status player = StActive → calculateHand (hand player) < 21)
       ∧ (21 < calculateHand (hand player) →
          status player = StBust ∨ (stalled s ∧ status player = StStand))
       ∧ (isBlackjack (hand player) = true →
          status player = StBlackjack ∨ (stalled s ∧ status player = StStand)))
  ∧ (stalled s →
     dealerDraws (dealerHand (dealer s)) (deck s) = Throw TypeError)
  ∧ (phase s = RoundEnd →
     hidden (dealer s) = false
     ∧ 17 <= calculateHand (dealerHand (dealer s))
     ∧ ∀ player, player ∈ players s →
         status player ≠ StActive
         ∧ result player ≠ ResNone
         ∧ result player
           = classify (21 <? calculateHand (hand player)) (isBlackjack (hand player))
                      (isBlackjack (dealerHand (dealer s)))
                      (21 <? calculateHand (dealerHand (dealer s)))
                      (calculateHand (hand player))
                      (calculateHand (dealerHand (dealer s)))).
Proof.
  intros Hreach.
  assert (Hseat : ∀ player,
             handStatus player →
             (2 <= length (hand player))%nat
             ∧ status player ≠ StIdle
             ∧ (status player = StBust → 21 < calculateHand (hand player))
             ∧ (status player = StBlackjack → isBlackjack (hand player) = true)
             ∧ (status player = StActive → calculateHand (hand player) < 21)
             ∧ (21 < calculateHand (hand player) →
                status player = StBust ∨ (stalled s ∧ status player = StStand))
             ∧ (isBlackjack (hand player) = true →
                status player = StBlackjack ∨ (stalled s ∧ status player = StStand))).
  { intros player Hst.
    split; [by destruct Hst|]. split; [|split; [|split; [|split; [|split]]]].
    - destruct Hst as (_ & _ & Hst). intros Hidle. by rewrite Hidle in Hst.
    - by apply handStatus_bust.
    - by apply handStatus_blackjack.
    - destruct Hst as (_ & _ & Hst). intros Hact. by rewrite Hact in Hst.
    - intros Hgt. left. by apply handStatus_bust.
    - intros Hnat. left. by apply handStatus_blackjack. }
  destruct (reachable_tableInvariant s Hreach)
    as [_ [[Hturn Hinv]|(Hstalled & _ & Hdraw & Hhidden & Hlen & Hall)]].
  - unfold roundInvariant in Hinv. unfold turnInvariant in Hturn.
    assert (Hhands : phase s ≠ Betting → Forall handStatus (players s)).
    { intros Hphase. destruct (phase s); [done| |].
      - destruct Hinv as (_ & _ & Hall). eapply Forall_impl; [exact Hall|].
        by intros player [? _].
      - destruct Hinv as (_ & _ & _ & Hall). eapply Forall_impl; [exact Hall|].
        by intros player [? _]. }
    split; [|split; [|split; [|split]]].
    + intros Hphase. rewrite Hphase in Hinv. destruct Hinv as [Hdealer Hall].
      split; [done|]. by apply Forall_forall.
    + intros Hphase. rewrite Hphase in Hinv. destruct Hinv as (Hhidden & Hlen & Hall).
      split; [done|]. split; [done|]. intros player Hin.
      by destruct (proj1 (Forall_forall _ _) Hall player Hin).
    + intros Hphase player Hin. apply Hseat.
      exact (proj1 (Forall_forall _ _) (Hhands Hphase) player Hin).
    + intros Hstalled. destruct (stalled_not_sound s Hstalled). exact Hturn.
    + intros Hphase. rewrite Hphase in Hinv, Hturn.
      destruct Hinv as (Hhidden & Hlen & Htotal & Hall).
      split; [done|]. split; [done|]. intros player Hin.
      destruct (proj1 (Forall_forall _ _) Hall player Hin) as [Hst Hres].
      split; [by apply (proj1 (Forall_forall _ _) Hturn player Hin)|].
      assert (Hclass : result player
                       = classify (21 <? calculateHand (hand player))
                                  (isBlackjack (hand player))
                                  (isBlackjack (dealerHand (dealer s)))
                                  (21 <? calculateHand (dealerHand (dealer s)))
                                  (calculateHand (hand player))
                                  (calculateHand (dealerHand (dealer s)))).
      { rewrite Hres. unfold resultAgainst. rewrite resolveResult_classify. f_equal.
        apply handStatus_bust in Hst.
        destruct (Z.ltb_spec 21 (calculateHand (hand player))) as [Hgt|Hle].
        - apply bool_decide_eq_true_2. by apply Hst.
        - apply bool_decide_eq_false_2. intros Hb%Hst. lia. }
      split; [|done]. rewrite Hclass. apply classify_decided.
  - pose proof Hstalled as [Hphase _].
    split; [by rewrite Hphase|]. split; [|split; [|split; [done|by rewrite Hphase]]].
    + intros _. split; [done|]. split; [done|]. intros player Hin.
      by destruct (proj1 (Forall_forall _ _) Hall player Hin).
    + intros _ player Hin.
      destruct (proj1 (Forall_forall _ _) Hall player Hin) as [_ [Hst|[Hlen2 Hstand]]];
        [by apply Hseat|].
      split; [done|]. rewrite Hstand.
      split; [done|]. split; [done|]. split; [done|]. split; [done|].
      split; intros _; by right.
Qed.

Lemma reachable_round_is_consistent_witness :
  reachable soloTableEnded
  ∧ phase soloTableEnded = RoundEnd
  ∧ 17 <= calculateHand (dealerHand (dealer soloTableEnded)).
Proof.
  assert (Hreach : reachable soloTableEnded) by apply stateAfter_reachable.
  assert (Hphase : phase soloTableEnded = RoundEnd) by (vm_compute; reflexivity).
  split; [exact Hreach|]. split; [exact Hphase|].
  exact (proj1 (proj2 (proj2 (proj2 (proj2 (proj2
           (reachable_round_is_consistent soloTableEnded Hreach)))) Hphase))).
Defined.

(** ** Conservation of the money at a table of several seats *)

Lemma sumQ_Forall2 (f g : Player → Q) (l l' : list Player) :
  Forall2 (λ player player', f player' == g player)%Q l l' →
  (sumQ f l' == sumQ g l)%Q.
Proof.
  induction 1 as [|p p' l l' Hp _ IH]; simpl; [reflexivity|]. by rewrite Hp, IH.
Qed.

Lemma sumQ_plus (f g : Player → Q) (l : list Player) :
  (sumQ (λ player, f player + g player) l == sumQ f l + sumQ g l)%Q.
Proof. induction l as [|p l IH]; simpl; [reflexivity|]. rewrite IH. ring. Qed.

Lemma sumQ_filter (c : Player → bool) (f : Player → Q) (l : list Player) :
  (sumQ (λ player, if c player then f player else 0) l == sumQ f (List.filter c l))%Q.
Proof.
  induction l as [|p l IH]; [reflexivity|]. cbn [List.filter sumQ foldr].
  fold (sumQ (λ player, if c player then f player else 0%Q) l).
  destruct (c p); cbn [sumQ foldr]; fold (sumQ f (List.filter c l)); rewrite IH; ring.
Qed.

Lemma sumQ_ext (f g : Player → Q) (l : list Player) :
  (∀ player, f player == g player)%Q → (sumQ f l == sumQ g l)%Q.
Proof. intros Hfg. induction l as [|p l IH]; simpl; [reflexivity|]. by rewrite Hfg, IH. Qed.

Lemma sumQ_scale (a : Q) (f : Player → Q) (l : list Player) :
  (sumQ (λ player, a * f player) l == a * sumQ f l)%Q.
Proof. induction l as [|p l IH]; simpl; [ring|]. rewrite IH. ring. Qed.

Lemma sumQ_round_bound (f : Player → Q) (l : list Player) :
  (- (inject_Z (Z.of_nat (length l)) * (1 # 2))
   <= sumQ (λ player, Math_round (f player)) l - sumQ f l
   <= inject_Z (Z.of_nat (length l)) * (1 # 2))%Q.
Proof.
  induction l as [|p l [IHlo IHhi]].
  - cbn [sumQ foldr length]. change (inject_Z (Z.of_nat 0)) with 0%Q. split; lra.
  - cbn [sumQ foldr length].
    fold (sumQ (λ player, Math_round (f player)) l). fold (sumQ f l).
    destruct (Math_round_nearest (f p)) as (n & -> & Hlo & Hhi).
    rewrite Nat2Z.inj_succ. unfold Z.succ. rewrite inject_Z_plus.
    change (inject_Z 1) with 1%Q.
    set (m := inject_Z (Z.of_nat (length l))) in *.
    set (k := inject_Z n) in *. split; lra.
Qed.

Lemma filter_isWinner_length (f : Player → Player) (l : list Player) :
  (∀ player, result (f player) = result player) →
  length (List.filter isWinner (f <$> l)) = length (List.filter isWinner l).
Proof.
  intros Hf. induction l as [|p l IH]; [done|].
  rewrite fmap_cons. cbn [List.filter].
  assert (Hw : isWinner (f p) = isWinner p) by (unfold isWinner; by rewrite Hf).
  rewrite Hw. destruct (isWinner p); cbn [length]; by rewrite IH.
Qed.

Lemma sumQ_zero (l : list Player) : (sumQ (λ _, 0) l == 0)%Q.
Proof. induction l as [|p l IH]; simpl; [reflexivity|]. rewrite IH. ring. Qed.

Lemma settledState_conserves (s : State) (currentPlayers : list Player)
    (finalHand nextDeck : list Card) (nextPot : Q) :
  isMulti s = true → NoDup (id <$> currentPlayers) →
  let s' := settledState s currentPlayers finalHand nextDeck nextPot in
  (- (inject_Z (Z.of_nat (winnersOf s')) * (1 # 2))
   <= tableMoney s' - (sumQ chips currentPlayers + nextPot)
   <= inject_Z (Z.of_nat (winnersOf s')) * (1 # 2))%Q.
Proof.
  intros Hmulti Hnd. cbv zeta. unfold tableMoney, winnersOf, settledState.
  cbn [players pot]. rewrite Hmulti.
  set (resolved := resolvePlayers finalHand currentPlayers).
  assert (Hnd' : NoDup (id <$> resolved)).
  { unfold resolved. by rewrite resolvePlayers_ids. }
  set (remainingPot := (nextPot - sumQ bet (List.filter isPush resolved))%Q).
  set (totalWeight := sumQ weightOf (List.filter isWinner resolved)).
  set (share := λ player : Player,
         (if Qgt_bool totalWeight 0
          then remainingPot * (weightOf player / totalWeight) else 0)%Q).
  set (finalPlayers :=
         pooledFinalPlayers
           (pooledPayoutMap (pooledPotPool nextPot resolved)
                            (pooledTotalWeight resolved) resolved) resolved).
  assert (Hwinners : length (List.filter isWinner finalPlayers)
                     = length (List.filter isWinner resolved)).
  { unfold finalPlayers, pooledFinalPlayers. by apply filter_isWinner_length. }
  rewrite Hwinners.
  assert (Hchips : (sumQ chips finalPlayers
                    == sumQ chips currentPlayers
                       + sumQ bet (List.filter isPush resolved)
                       + sumQ (λ player, Math_round (share player))
                              (List.filter isWinner resolved))%Q).
  { transitivity
      (sumQ (λ player,
               chips player
               + (if isPush player then bet player else 0)
               + (if isWinner player then Math_round (share player) else 0))%Q resolved).
    - apply sumQ_Forall2. apply Forall2_same_length_lookup_2.
      + unfold finalPlayers, pooledFinalPlayers. by rewrite length_fmap.
      + intros i player player' Hi Hi'.
        destruct (pooledFinalPlayers_lookup nextPot resolved i player Hnd' Hi)
          as (q & Hq & _ & _ & Hqchips & _).
        fold finalPlayers in Hq. rewrite Hi' in Hq. injection Hq as <-.
        rewrite Hqchips. fold remainingPot totalWeight. unfold share, isPush.
        destruct (decide (result player = ResPush)) as [Hp|Hp].
        * by rewrite bool_decide_eq_true_2.
        * by rewrite bool_decide_eq_false_2.
    - rewrite !sumQ_plus.
      rewrite (sumQ_filter isPush bet), (sumQ_filter isWinner (λ player, Math_round (share player))).
      replace (sumQ chips resolved) with (sumQ chips currentPlayers); [reflexivity|].
      apply sumQ_proj. unfold resolved, resolvePlayers.
      rewrite <- list_fmap_compose. by apply list_fmap_ext. }
  rewrite Hchips.
  rewrite (Qgt_bool_proper _ totalWeight (pooledTotalWeight_sum resolved) 0%Q 0%Q
             (Qeq_refl 0)).
  pose proof (pooledPotPool_sum nextPot resolved) as Hpool. fold remainingPot in Hpool.
  set (pool := pooledPotPool nextPot resolved) in *.
  pose proof (sumQ_round_bound share (List.filter isWinner resolved)) as [Hlo Hhi].
  set (winners := List.filter isWinner resolved) in *.
  assert (Hshares : (sumQ share winners
                     == if Qgt_bool totalWeight 0 then remainingPot else 0)%Q).
  { unfold share. destruct (Qgt_bool totalWeight 0) eqn:Hpos.
    - apply Qgt_bool_iff in Hpos.
      rewrite (sumQ_ext _ (λ player, (remainingPot / totalWeight) * weightOf player)%Q).
      + rewrite sumQ_scale. fold totalWeight. field. intros Hz. rewrite Hz in Hpos.
        by apply Qlt_irrefl in Hpos.
      + intros player. field. intros Hz. rewrite Hz in Hpos. by apply Qlt_irrefl in Hpos.
    - apply sumQ_zero. }
  set (rounded := sumQ (λ player, Math_round (share player)) winners) in *.
  set (count := inject_Z (Z.of_nat (length winners))) in *.
  set (pushes := sumQ bet (List.filter isPush resolved)) in *.
  set (before := sumQ chips currentPlayers) in *.
  assert (Hrp : (remainingPot == nextPot - pushes)%Q) by reflexivity.
  destruct (Qgt_bool totalWeight 0) eqn:Hpos.
  - split; lra.
  - assert (Hzero : (rounded == 0)%Q).
    { unfold rounded, share. rewrite ?Hpos.
      rewrite (sumQ_ext _ (λ _, 0%Q)); [apply sumQ_zero|]. by intros player. }
    assert (0 <= count)%Q.
    { unfold count. change 0%Q with (inject_Z 0). rewrite <- Zle_Qle. lia. }
    split; lra.
Qed.

Lemma conservesMoney_equal (s s' : State) :
  (tableMoney s' == tableMoney s)%Q → conservesMoney s s'.
Proof.
  intros Heq. split; [|done].
  assert (0 <= inject_Z (Z.of_nat (winnersOf s')))%Q.
  { change 0%Q with (inject_Z 0). rewrite <- Zle_Qle. lia. }
  split; lra.
Qed.

Lemma settlement_conserves (s0 s s' : State) (currentPlayers : list Player)
    (currentDealer : Dealer) (currentDeck : list Card) (nextPot : Q) :
  isMulti s = true → NoDup (id <$> currentPlayers) → phase s0 ≠ RoundEnd →
  (sumQ chips currentPlayers + nextPot == tableMoney s0)%Q →
  handleDealerTurn s currentPlayers currentDealer currentDeck nextPot = Return s' →
  conservesMoney s0 s'.
Proof.
  intros Hmulti Hnd Hphase Hmoney (finalHand & nextDeck & _ & ->)%handleDealerTurn_inv.
  pose proof (settledState_conserves s currentPlayers finalHand nextDeck nextPot
                Hmulti Hnd) as Hbound. cbv zeta in Hbound.
  split.
  - by rewrite <- Hmoney.
  - intros Hnot. exfalso. apply Hnot. by split.
Qed.

Lemma advanceTurn_conserves (s0 s s' : State) (nextDealer : Dealer)
    (nextDeck : list Card) :
  isMulti s = true → NoDup (id <$> players s) → phase s0 ≠ RoundEnd →
  (tableMoney s == tableMoney s0)%Q →
  advanceTurn s (players s) nextDealer nextDeck (pot s) = Return s' →
  conservesMoney s0 s'.
Proof.
  intros Hmulti Hnd Hphase Hmoney. unfold advanceTurn.
  destruct (nextActiveIndex (players s) (currentIndex s)) as [j|e]; [|done].
  unfold mbind, completion_bind. destruct (j =? -1).
  - by apply settlement_conserves.
  - intros [= <-]. by apply conservesMoney_equal.
Qed.

Lemma handleHit_conserves (s s' : State) :
  isMulti s = true → NoDup (id <$> players s) → phase s ≠ RoundEnd →
  handleHit s = Return s' → conservesMoney s s'.
Proof.
  intros Hmulti Hnd Hphase.
  destruct (at_index (players s) (currentIndex s)) as [player|] eqn:Hat.
  2:{ rewrite handleHit_guard by (by left). intros [= <-].
      by apply conservesMoney_equal. }
  destruct (decide (status player = StActive)) as [Hact|Hnot].
  2:{ rewrite handleHit_guard by (right; eauto). intros [= <-].
      by apply conservesMoney_equal. }
  destruct (drawCard (deck s)) as [[card|] next] eqn:Hdraw.
  2:{ unfold handleHit. by rewrite Hat, Hact, Hdraw. }
  rewrite (handleHit_step s player card next Hat Hact Hdraw). cbv zeta.
  set (updatedPlayers := <[Z.to_nat (currentIndex s) := playerAfterHit player card]>
                           (players s)).
  assert (Hproj : ∀ {B} (proj : Player → B),
             (∀ q v, proj (withHand v q) = proj q) →
             (∀ q v, proj (withStatus v q) = proj q) →
             proj <$> updatedPlayers = proj <$> players s).
  { intros B proj Hh Hs. unfold updatedPlayers.
    rewrite list_fmap_insert. apply list_insert_id.
    apply at_index_Some in Hat as [_ Hat]. rewrite list_lookup_fmap, Hat. simpl.
    unfold playerAfterHit. by rewrite Hs, Hh. }
  assert (Hmoney : (tableMoney (setPlayers updatedPlayers (setDeck next s))
                    == tableMoney s)%Q).
  { unfold tableMoney. cbn [players pot setPlayers setDeck].
    by rewrite (sumQ_proj chips _ _ (Hproj _ chips ltac:(done) ltac:(done))). }
  destruct (_ <? 21).
  - intros [= <-]. by apply conservesMoney_equal.
  - apply (advanceTurn_conserves s (setPlayers updatedPlayers (setDeck next s)));
      try done.
    cbn [players setPlayers setDeck]. by rewrite (Hproj _ id).
Qed.

Lemma handleStand_conserves (s s' : State) :
  isMulti s = true → NoDup (id <$> players s) → phase s ≠ RoundEnd →
  handleStand s = Return s' → conservesMoney s s'.
Proof.
  intros Hmulti Hnd Hphase. unfold handleStand.
  set (updatedPlayers := mapAt (currentIndex s) (withStatus StStand) (players s)).
  apply (advanceTurn_conserves s (setPlayers updatedPlayers s)); try done.
  - cbn [players setPlayers]. unfold updatedPlayers. by rewrite mapAt_ids.
  - unfold tableMoney. cbn [players pot setPlayers].
    apply Qplus_comp; [|reflexivity]. unfold updatedPlayers.
    by rewrite (sumQ_proj chips _ _
                  (mapAt_preserves chips (currentIndex s) (withStatus StStand)
                     (players s) (λ _, eq_refl))).
Qed.

Lemma sumQ_minus (f g : Player → Q) (l : list Player) :
  (sumQ (λ player, f player - g player) l == sumQ f l - sumQ g l)%Q.
Proof. induction l as [|p l IH]; simpl; [reflexivity|]. rewrite IH. ring. Qed.

Lemma sumQ_fmap (f : Player → Q) (g : Player → Player) (l : list Player) :
  sumQ f (g <$> l) = sumQ (λ player, f (g player)) l.
Proof. induction l as [|p l IH]; [done|]. rewrite fmap_cons. simpl. by rewrite <- IH. Qed.

Lemma handleDeal_conserves (rand : nat → nat) (s s' : State) :
  isMulti s = true → NoDup (id <$> players s) → phase s ≠ RoundEnd →
  handleDeal rand s = Return s' → conservesMoney s s'.
Proof.
  intros Hmulti Hnd Hphase. unfold handleDeal.
  destruct (existsb invalidBet (players s)).
  { intros [= <-]. by apply conservesMoney_equal. }
  destruct (dealInitial rand (deck s) (reservePlayers (players s)))
    as [[[nextDeck dealtPlayers] nextDealer]|e] eqn:Hdeal; [|done].
  pose proof (dealInitial_ids _ _ _ _ _ _ Hdeal) as Hids.
  apply (dealInitial_preserves chips) in Hdeal; [|done..].
  assert (Hres : id <$> reservePlayers (players s) = id <$> players s).
  { unfold reservePlayers. rewrite <- list_fmap_compose. by apply list_fmap_ext. }
  assert (Hchips : (sumQ chips dealtPlayers
                    + (pot s + foldl (λ sum player, sum + bet player) 0 (players s))
                    == tableMoney s)%Q).
  { rewrite (sumQ_proj chips _ _ Hdeal). unfold reservePlayers.
    rewrite sumQ_fmap. cbn [chips withChips withRoundStartChips withDelta withResult
                               withHand withStatus compose].
    rewrite sumQ_minus, foldl_sum_bets. unfold tableMoney. ring. }
  rewrite Hmulti.
  unfold mbind, completion_bind, nextActiveIndex.
  change (-1 + 1 <? 0) with false. cbv iota.
  destruct (scanActive _ _ =? -1).
  - apply settlement_conserves; try done. by rewrite Hids, Hres.
  - intros Heq%Return_inj. subst s'. apply conservesMoney_equal.
    unfold tableMoney at 1.
    cbn [pot players setCurrentIndex setPot setMessage setPhase setDealer setPlayers
           setDeck]. exact Hchips.
Qed.

Lemma betAdjust_conserves (index : Z) (f : Player → Q) (s : State) :
  conservesMoney s
    (setPlayers (mapAt index (λ player, withBet (f player) player) (players s)) s).
Proof.
  apply conservesMoney_equal. unfold tableMoney. cbn [players pot setPlayers].
  apply Qplus_comp; [|reflexivity].
  by rewrite (sumQ_proj chips _ _
                (mapAt_preserves chips index (λ player, withBet (f player) player)
                   (players s) (λ _, eq_refl))).
Qed.

(** X12. At a table of several seats the money (the chips of the players
    plus the pot) is conserved by every click: betting, dealing, hitting,
    standing and starting the next round move money between the chips and
    the pot but neither create nor destroy any.  The one exception is the
    rounding of the winners' shares when a click ends the round: then the
    money changes by at most half a chip for every winner. *)
Theorem multi_table_conserves_money (rand : nat → nat) (e : Event) (s s' : State) :
  reachable s → screen s = Table → isMulti s = true →
  click rand e s = Return s' →
  (- (inject_Z (Z.of_nat (winnersOf s')) * (1 # 2))
   <= tableMoney s' - tableMoney s
   <= inject_Z (Z.of_nat (winnersOf s')) * (1 # 2))%Q
  ∧ (¬ (phase s ≠ RoundEnd ∧ phase s' = RoundEnd) →
     (tableMoney s' == tableMoney s)%Q).
Proof.
  intros Hreach Hscreen Hmulti.
  pose proof (reachable_ids_NoDup s Hreach) as Hnd.
  change (click rand e s = Return s' → conservesMoney s s'). unfold click.
  destruct (offered s e) eqn:Hoff;
    [|intros [= <-]; by apply conservesMoney_equal].
  destruct e; cbn [handler offered] in *.
  - apply andb_true_iff in Hoff as [Hlobby%bool_decide_eq_true _]. congruence.
  - apply bool_decide_eq_true in Hoff. congruence.
  - intros [= <-].
    apply (betAdjust_conserves _ (λ player, Qmin (chips player) (bet player + value0))).
  - intros [= <-]. apply (betAdjust_conserves _ (λ _, 0%Q)).
  - intros [= <-]. apply (betAdjust_conserves _ (λ player, chips player)).
  - apply andb_true_iff in Hoff as [_ Hphase%bool_decide_eq_true].
    apply handleDeal_conserves; try done. by rewrite Hphase.
  - apply andb_true_iff in Hoff as [_ Hphase%bool_decide_eq_true].
    apply handleHit_conserves; try done. by rewrite Hphase.
  - apply andb_true_iff in Hoff as [_ Hphase%bool_decide_eq_true].
    apply handleStand_conserves; try done. by rewrite Hphase.
  - intros [= <-]. apply conservesMoney_equal. unfold tableMoney, handleNextRound.
    cbn [players pot setMessage setRound setPhase setDealer setPlayers].
    apply Qplus_comp; [|reflexivity]. by rewrite sumQ_fmap.
Qed.

Lemma multi_table_conserves_money_witness :
  ∃ s',
    reachable tableOfTwoDealt
    ∧ click keepOrder Stand tableOfTwoDealt = Return s'
    ∧ (tableMoney s' == tableMoney tableOfTwoDealt)%Q.
Proof.
  assert (Hreach : reachable tableOfTwoDealt) by apply stateAfter_reachable.
  assert (Hscreen : screen tableOfTwoDealt = Table) by (vm_compute; reflexivity).
  assert (Hmulti : isMulti tableOfTwoDealt = true) by (vm_compute; reflexivity).
  destruct (click keepOrder Stand tableOfTwoDealt) as [s'|err] eqn:Hclick.
  - exists s'. split; [exact Hreach|]. split; [reflexivity|].
    apply (proj2 (multi_table_conserves_money keepOrder Stand tableOfTwoDealt s'
                    Hreach Hscreen Hmulti Hclick)).
    intros [_ Hend]. vm_compute in Hclick. injection Hclick as <-. discriminate Hend.
  - vm_compute in Hclick. discriminate Hclick.
Defined.

(** ** The order of the turns *)

Lemma advanceTurn_progress (s s' : State) (nextPlayers : list Player)
    (nextDealer : Dealer) (nextDeck : list Card) (nextPot : Q) :
  0 <= currentIndex s → phase s = Playing →
  advanceTurn s nextPlayers nextDealer nextDeck nextPot = Return s' →
  (phase s' = Playing ∧ currentIndex s < currentIndex s') ∨ phase s' = RoundEnd.
Proof.
  intros Hpos Hphase.
  destruct (advanceTurn_spec s nextPlayers nextDealer nextDeck nextPot Hpos)
    as [(j & p & -> & Hlt & _)|[-> _]].
  - intros [= <-]. left. by split.
  - intros (finalHand & deck' & _ & ->)%handleDealerTurn_inv. by right.
Qed.

Lemma lastSeatBust_reachable : reachable lastSeatBust.
Proof.
  apply (reachable_throw keepOrder Hit lastSeatToHit TypeError);
    [apply stateAfter_reachable|]. vm_compute. reflexivity.
Qed.

Lemma lastSeatBust_stalled : reachable lastSeatBust ∧ stalled lastSeatBust.
Proof.
  split; [apply lastSeatBust_reachable|]. split; [vm_compute; reflexivity|].
  assert (Hcheck : forallb (λ player, negb (bool_decide (status player = StActive)))
                           (players lastSeatBust) = true)
    by (vm_compute; reflexivity).
  apply Forall_forall. intros player Hin%list_elem_of_In.
  apply (proj1 (forallb_forall _ _) Hcheck) in Hin.
  apply negb_true_iff in Hin. by apply bool_decide_eq_false in Hin.
Qed.

(** X13. The turns of every table the controls lead to go in seat order.
    While a round is played, either the acting index is a seat of the table
    whose player is [active], no player before it is [active], and it is the
    one seat the table highlights; or the table is stalled (no player is
    active, which a dealer turn that threw leaves behind): then no seat is
    highlighted, a hit changes nothing and a stand throws.  In the other
    phases no player is [active] and no seat is highlighted.  A stand that
    returns moves the acting index strictly forward or ends the round; a hit
    that returns leaves it in place or does the same: the index never moves
    back within a round.  A stalled table can be reached: the table of
    [lastSeatBust] is one. *)
Theorem reachable_turns_in_seat_order (s : State) :
  reachable s →
  (phase s = Playing →
     (∃ (seat : nat) (player : Player),
        currentIndex s = Z.of_nat seat
        ∧ players s !! seat = Some player
        ∧ status player = StActive
        ∧ (∀ (k : nat) (q : Player),
             (k < seat)%nat → players s !! k = Some q → status q ≠ StActive)
        ∧ (∀ (k : nat) (q : Player),
             players s !! k = Some q → isCurrent s k q = true ↔ k = seat))
     ∨ (stalled s
        ∧ (∀ (k : nat) (q : Player),
             players s !! k = Some q → isCurrent s k q = false)
        ∧ handleHit s = Return s
        ∧ handleStand s = Throw TypeError))
  ∧ (phase s ≠ Playing →
     ∀ (k : nat) (q : Player),
       players s !! k = Some q → status q ≠ StActive ∧ isCurrent s k q = false)
  ∧ (phase s = Playing →
     ∀ s', handleStand s = Return s' →
       (phase s' = Playing ∧ currentIndex s < currentIndex s') ∨ phase s' = RoundEnd)
  ∧ (phase s = Playing →
     ∀ s', handleHit s = Return s' →
       (phase s' = Playing ∧ currentIndex s <= currentIndex s') ∨ phase s' = RoundEnd)
  ∧ (reachable lastSeatBust ∧ stalled lastSeatBust).
Proof.
  intros Hreach.
  destruct (reachable_tableInvariant s Hreach)
    as [Hpos [[Hinv _]|(Hstalled & _ & Hdraw & _)]].
  - unfold turnInvariant in Hinv.
    split; [|split; [|split; [|split]]].
    + intros Hphase. left. rewrite Hphase in Hinv.
      destruct Hinv as [(player & Hat & Hact) Hbefore].
      apply at_index_Some in Hat as [_ Hat].
      exists (Z.to_nat (currentIndex s)), player.
      split; [lia|]. split; [done|]. split; [done|]. split.
      * intros k q Hk Hq. apply (proj1 (noneActive_lookup _) Hbefore k q).
        by rewrite lookup_take_lt.
      * intros k q Hq. unfold isCurrent.
        rewrite (bool_decide_eq_true_2 (phase s = Playing)) by done.
        rewrite andb_true_r. split.
        -- intros [Hk%bool_decide_eq_true _]%andb_true_iff. lia.
        -- intros ->. rewrite Hat in Hq. injection Hq as <-.
           rewrite (bool_decide_eq_true_2 (status player = StActive)) by done.
           rewrite bool_decide_eq_true_2; [done|lia].
    + intros Hphase k q Hq.
      assert (Hnone : noneActive (players s)) by (by destruct (phase s)).
      split; [by apply (proj1 (noneActive_lookup _) Hnone k q)|].
      unfold isCurrent. rewrite (bool_decide_eq_false_2 (phase s = Playing)) by done.
      by rewrite andb_false_r.
    + intros Hphase s'. rewrite Hphase in Hinv.
      destruct Hinv as [(player & Hat & Hact) _].
      rewrite (handleStand_step s player Hat). cbv zeta.
      intros Hadv. by apply advanceTurn_progress in Hadv.
    + intros Hphase s'. rewrite Hphase in Hinv.
      destruct Hinv as [(player & Hat & Hact) _].
      destruct (drawCard (deck s)) as [[card|] next] eqn:Hdraw.
      2:{ unfold handleHit. by rewrite Hat, Hact, Hdraw. }
      rewrite (handleHit_step s player card next Hat Hact Hdraw). cbv zeta.
      destruct (_ <? 21).
      * intros [= <-]. left. split; [done|]. cbn [currentIndex setPlayers setDeck]. lia.
      * intros Hadv. apply advanceTurn_progress in Hadv; [|done..].
        cbn [currentIndex setPlayers setDeck] in Hadv.
        destruct Hadv as [[Hplaying Hlt]|Hended]; [left; split; [done|lia]|by right].
    + apply lastSeatBust_stalled.
  - pose proof Hstalled as [Hphase Hnone].
    split; [|split; [|split; [|split]]].
    + intros _. right. split; [done|]. split.
      * intros k q Hq. unfold isCurrent.
        rewrite (bool_decide_eq_false_2 (status q = StActive));
          [by rewrite andb_false_r|].
        by apply (proj1 (noneActive_lookup _) Hnone k q).
      * split; [by apply stalled_handleHit|by apply stalled_handleStand].
    + by rewrite Hphase.
    + intros _ s'. by rewrite stalled_handleStand.
    + intros _ s'. rewrite stalled_handleHit by done. intros [= <-].
      left. split; [done|lia].
    + apply lastSeatBust_stalled.
Qed.

Lemma reachable_turns_in_seat_order_witness :
  reachable tableOfTwoDealt
  ∧ phase tableOfTwoDealt = Playing
  ∧ ∀ s', handleStand tableOfTwoDealt = Return s' →
      (phase s' = Playing ∧ currentIndex tableOfTwoDealt < currentIndex s')
      ∨ phase s' = RoundEnd.
Proof.
  assert (Hreach : reachable tableOfTwoDealt) by apply stateAfter_reachable.
  assert (Hphase : phase tableOfTwoDealt = Playing) by (vm_compute; reflexivity).
  split; [exact Hreach|]. split; [exact Hphase|].
  exact (proj1 (proj2 (proj2 (reachable_turns_in_seat_order tableOfTwoDealt Hreach)))
           Hphase).
Defined.

(** ** The seats of the table *)

Lemma advanceTurn_frame (s s' : State) (nextPlayers : list Player)
    (nextDealer : Dealer) (nextDeck : list Card) (nextPot : Q) :
  advanceTurn s nextPlayers nextDealer nextDeck nextPot = Return s' →
  screen s' = screen s ∧ playerCount s' = playerCount s ∧ round s' = round s.
Proof.
  unfold advanceTurn.
  destruct (nextActiveIndex nextPlayers (currentIndex s)) as [j|e]; [|done].
  unfold mbind, completion_bind. destruct (j =? -1).
  - by intros (finalHand & deck' & _ & ->)%handleDealerTurn_inv.
  - by intros [= <-].
Qed.

Lemma handleHit_frame (s s' : State) :
  handleHit s = Return s' →
  screen s' = screen s ∧ playerCount s' = playerCount s ∧ round s' = round s.
Proof.
  destruct (at_index (players s) (currentIndex s)) as [player|] eqn:Hat.
  2:{ rewrite handleHit_guard by (by left). by intros [= <-]. }
  destruct (decide (status player = StActive)) as [Hact|Hnot].
  2:{ rewrite handleHit_guard by (right; eauto). by intros [= <-]. }
  destruct (drawCard (deck s)) as [[card|] next] eqn:Hdraw.
  2:{ unfold handleHit. by rewrite Hat, Hact, Hdraw. }
  rewrite (handleHit_step s player card next Hat Hact Hdraw). cbv zeta.
  destruct (_ <? 21); [by intros [= <-]|]. by intros Hadv%advanceTurn_frame.
Qed.

Lemma handleStand_frame (s s' : State) :
  handleStand s = Return s' →
  screen s' = screen s ∧ playerCount s' = playerCount s ∧ round s' = round s.
Proof. unfold handleStand. by intros Hadv%advanceTurn_frame. Qed.

Lemma handleDeal_frame (rand : nat → nat) (s s' : State) :
  handleDeal rand s = Return s' →
  screen s' = screen s ∧ playerCount s' = playerCount s ∧ round s' = round s.
Proof.
  unfold handleDeal.
  destruct (existsb invalidBet (players s)); [by intros [= <-]|].
  destruct (dealInitial rand (deck s) (reservePlayers (players s)))
    as [[[nextDeck dealtPlayers] nextDealer]|e]; [|done].
  unfold mbind, completion_bind, nextActiveIndex.
  change (-1 + 1 <? 0) with false. cbv iota.
  destruct (scanActive _ _ =? -1).
  - intros (finalHand & deck' & _ & ->)%handleDealerTurn_inv. by destruct (isMulti s).
  - intros Heq%Return_inj. subst s'. by destruct (isMulti s).
Qed.

Lemma seatsInvariant_frame (s s' : State) :
  screen s' = screen s → playerCount s' = playerCount s → round s' = round s →
  screen s = Table → id <$> players s' = id <$> players s →
  seatsInvariant s → seatsInvariant s'.
Proof.
  unfold seatsInvariant. intros -> -> -> -> ->. done.
Qed.

Lemma click_seats (rand : nat → nat) (e : Event) (s s' : State) :
  seatsInvariant s → click rand e s = Return s' → seatsInvariant s'.
Proof.
  intros Hinv. unfold click.
  destruct (offered s e) eqn:Hoff; [|by intros [= <-]].
  destruct e; cbn [handler offered] in *.
  - intros [= <-].
    apply andb_true_iff in Hoff as [Hlobby%bool_decide_eq_true Hcount%bool_decide_eq_true].
    destruct Hinv as (_ & Hround & Hseats). unfold seatsInvariant.
    cbn [screen playerCount round players setPlayerCount]. rewrite Hlobby in *.
    split; [|done].
    repeat (apply elem_of_cons in Hcount as [->|Hcount]; [lia|]).
    by apply elem_of_nil in Hcount.
  - intros [= <-]. destruct Hinv as (Hcount & _ & _). unfold seatsInvariant.
    cbn [screen playerCount round players handleLobbyStart setMessage setPot setRound
           setScreen setPhase setDealer setPlayers].
    split; [done|]. split; [done|]. apply buildPlayers_ids.
  - intros [= <-]. repeat (apply andb_true_iff in Hoff as [Hoff ?]).
    apply bool_decide_eq_true in Hoff.
    apply (seatsInvariant_frame s); try done. by apply mapAt_ids.
  - intros [= <-]. repeat (apply andb_true_iff in Hoff as [Hoff ?]).
    apply bool_decide_eq_true in Hoff.
    apply (seatsInvariant_frame s); try done. by apply mapAt_ids.
  - intros [= <-]. repeat (apply andb_true_iff in Hoff as [Hoff ?]).
    apply bool_decide_eq_true in Hoff.
    apply (seatsInvariant_frame s); try done. by apply mapAt_ids.
  - apply andb_true_iff in Hoff as [Hscreen%bool_decide_eq_true _]. intros Hdeal.
    destruct (handleDeal_frame _ _ _ Hdeal) as (? & ? & ?).
    apply (seatsInvariant_frame s); try done. by eapply handleDeal_ids.
  - apply andb_true_iff in Hoff as [Hscreen%bool_decide_eq_true _]. intros Hhit.
    destruct (handleHit_frame _ _ Hhit) as (? & ? & ?).
    apply (seatsInvariant_frame s); try done. by eapply handleHit_ids.
  - apply andb_true_iff in Hoff as [Hscreen%bool_decide_eq_true _]. intros Hstand.
    destruct (handleStand_frame _ _ Hstand) as (? & ? & ?).
    apply (seatsInvariant_frame s); try done. by eapply handleStand_ids.
  - intros [= <-].
    apply andb_true_iff in Hoff as [Hscreen%bool_decide_eq_true _].
    destruct Hinv as (Hcount & Hround & Hseats). unfold seatsInvariant, handleNextRound.
    cbn [screen playerCount round players setMessage setRound setPhase setDealer
           setPlayers].
    rewrite Hscreen in *. split; [done|]. split; [lia|].
    rewrite <- Hseats, <- list_fmap_compose. by apply list_fmap_ext.
Qed.

Lemma leftByThrow_seats (rand : nat → nat) (e : Event) (s s' : State) :
  seatsInvariant s → leftByThrow rand s e s' → seatsInvariant s'.
Proof.
  intros Hinv Hthrow. pose proof (leftByThrow_ids _ _ _ _ Hthrow) as Hids.
  destruct Hthrow; try done; by apply (seatsInvariant_frame s).
Qed.

Lemma reachable_seatsInvariant (s : State) : reachable s → seatsInvariant s.
Proof.
  induction 1 as [rand|rand e s s' _ IH Hclick|rand e s err Hreach IH Hclick].
  - unfold seatsInvariant. cbn [screen playerCount round players initialState].
    split; [lia|]. by split.
  - by eapply click_seats.
  - eapply leftByThrow_seats; [exact IH|]. by eapply reachable_leftByThrow.
Qed.

Lemma dealInitial_enough (rand : nat → nat) (preparedDeck : list Card)
    (preparedPlayers : list Player) :
  (length preparedPlayers <= 6)%nat →
  ∃ r, dealInitial rand preparedDeck preparedPlayers = Return r.
Proof.
  intros Hseats.
  assert (Hlen : (2 * length preparedPlayers + 2
                  <= length (ensureDeck rand preparedDeck))%nat).
  { pose proof (ensureDeck_length rand preparedDeck). lia. }
  destruct (deck_top_cards _ _ Hlen)
    as (rest & first & d1 & second & d2 & Hf & Hs & Hdeck).
  eexists. by apply (dealInitial_deals rand preparedDeck preparedPlayers
                       rest first second d1 d2).
Qed.

(** X14. Every table the controls lead to has one to four seats and a
    round number of 1 or more.  In the lobby no player is seated and the
    round is the first.  At the table there are as many players as seats,
    their ids number the seats from 1 in seat order, the pooled mode is on
    exactly when more than one player is seated, and the deal of the cards
    never runs out of cards whatever the deck left over from earlier
    rounds. *)
Theorem reachable_seats_are_numbered (s : State) :
  reachable s →
  1 <= playerCount s <= 4
  ∧ 1 <= round s
  ∧ (screen s = Lobby → players s = [] ∧ round s = 1)
  ∧ (screen s = Table →
     Z.of_nat (length (players s)) = playerCount s
     ∧ (∀ (seat : nat) (player : Player),
          players s !! seat = Some player → id player = Z.of_nat seat + 1)
     ∧ (isMulti s = true ↔ (1 < length (players s))%nat)
     ∧ ∀ rand : nat → nat,
         ∃ r, dealInitial rand (deck s) (reservePlayers (players s)) = Return r).
Proof.
  intros (Hcount & Hround & Hseats)%reachable_seatsInvariant.
  split; [done|]. split; [done|]. split.
  - intros Hlobby. by rewrite Hlobby in Hseats.
  - intros Htable. rewrite Htable in Hseats.
    assert (Hlen : Z.of_nat (length (players s)) = playerCount s).
    { apply (f_equal length) in Hseats. rewrite !length_fmap, length_seq in Hseats. lia. }
    split; [done|]. split; [|split].
    + intros seat player Hp.
      apply (f_equal (λ l, l !! seat)) in Hseats.
      rewrite !list_lookup_fmap, Hp in Hseats. simpl in Hseats.
      destruct (seq 0 (Z.to_nat (playerCount s)) !! seat) as [n|] eqn:Hn; [|done].
      apply lookup_seq in Hn as [-> _]. simpl in Hseats. by injection Hseats.
    + unfold isMulti. rewrite Z.ltb_lt. lia.
    + intros rand. apply dealInitial_enough.
      unfold reservePlayers. rewrite length_fmap. lia.
Qed.

Lemma reachable_seats_are_numbered_witness :
  reachable tableOfTwoDealt
  ∧ screen tableOfTwoDealt = Table
  ∧ Z.of_nat (length (players tableOfTwoDealt)) = playerCount tableOfTwoDealt.
Proof.
  assert (Hreach : reachable tableOfTwoDealt) by apply stateAfter_reachable.
  assert (Hscreen : screen tableOfTwoDealt = Table) by (vm_compute; reflexivity).
  split; [exact Hreach|]. split; [exact Hscreen|].
  exact (proj1 (proj2 (proj2 (proj2
           (reachable_seats_are_numbered tableOfTwoDealt Hreach))) Hscreen)).
Defined.

(** ** A player without chips *)

Lemma broke_player_invalid (l : list Player) (player : Player) :
  Forall betWithinChips l → player ∈ l → (chips player == 0)%Q →
  existsb invalidBet l = true.
Proof.
  intros Hwithin Hin Hbroke. apply existsb_exists. exists player.
  split; [by apply list_elem_of_In|].
  destruct (proj1 (Forall_forall _ _) Hwithin player Hin) as [Hpos Hle].
  unfold invalidBet. apply orb_true_iff. left. apply Qle_bool_iff. lra.
Qed.

Lemma broke_player_stays (index : Z) (f : Player → Q) (l : list Player) :
  (∃ player, player ∈ l ∧ (chips player == 0)%Q) →
  ∃ player, player ∈ mapAt index (λ player, withBet (f player) player) l
            ∧ (chips player == 0)%Q.
Proof.
  intros (player & [i Hi]%list_elem_of_lookup & Hbroke).
  exists (if Z.of_nat i =? index then withBet (f player) player else player). split.
  - apply list_elem_of_lookup. exists i. by rewrite betAdjust_lookup, Hi.
  - by destruct (Z.of_nat i =? index).
Qed.

(** X15. A player without chips stops the table.  At a table in the betting
    phase where the bets are within the chips and some player has no chips
    left, no sequence of clicks ever deals again: every click returns, the
    phase stays [Betting], the round number and the chips of all players
    stay as they are, and every deal is refused as an invalid bet.  (The
    engine has no control that removes a player or hands out new chips.) *)
Theorem broke_player_stops_the_table (es : list ((nat → nat) * Event)) (s : State) :
  screen s = Table → phase s = Betting → betsWithinChips s →
  (∃ player, player ∈ players s ∧ (chips player == 0)%Q) →
  (∀ rand, handleDeal rand s = Return (setMessage MsgInvalidBet s))
  ∧ ∃ s',
      clicks es s = Return s'
      ∧ screen s' = Table ∧ phase s' = Betting ∧ round s' = round s
      ∧ chips <$> players s' = chips <$> players s
      ∧ ∀ rand, handleDeal rand s' = Return (setMessage MsgInvalidBet s').
Proof.
  intros Hscreen Hphase Hwithin Hbroke.
  assert (Hrejects : ∀ s0 : State,
             betsWithinChips s0 →
             (∃ player, player ∈ players s0 ∧ (chips player == 0)%Q) →
             ∀ rand, handleDeal rand s0 = Return (setMessage MsgInvalidBet s0)).
  { intros s0 Hw (player & Hin & Hzero) rand. apply handleDeal_rejects.
    by eapply broke_player_invalid. }
  split; [by apply Hrejects|].
  revert s Hscreen Hphase Hwithin Hbroke.
  induction es as [|[rand e] es IH]; intros s Hscreen Hphase Hwithin Hbroke.
  - exists s. repeat split; try done. by apply Hrejects.
  - assert (Hstep : ∃ s1,
               click rand e s = Return s1
               ∧ screen s1 = Table ∧ phase s1 = Betting ∧ round s1 = round s
               ∧ chips <$> players s1 = chips <$> players s
               ∧ betsWithinChips s1
               ∧ ∃ player, player ∈ players s1 ∧ (chips player == 0)%Q).
    { unfold click. destruct (offered s e) eqn:Hoff; [|by exists s].
      destruct e; cbn [handler offered] in *;
        unfold onScreen, inPhase in Hoff; rewrite ?Hscreen, ?Hphase in Hoff;
        try discriminate Hoff.
      - eexists. split; [reflexivity|].
        unfold handleBetAdd. cbn [screen phase round players setPlayers].
        split; [done|]. split; [done|]. split; [done|]. split; [|split].
        + by apply mapAt_preserves.
        + apply handleBetAdd_within; [|done]. apply offered_chip_nonneg.
          by apply andb_true_iff in Hoff as [_ ?].
        + by apply (broke_player_stays _ (λ player, Qmin (chips player) (bet player + value0))).
      - eexists. split; [reflexivity|].
        unfold handleBetClear. cbn [screen phase round players setPlayers].
        split; [done|]. split; [done|]. split; [done|]. split; [|split].
        + by apply mapAt_preserves.
        + by apply handleBetClear_within.
        + by apply (broke_player_stays _ (λ _, 0%Q)).
      - eexists. split; [reflexivity|].
        unfold handleBetAllIn. cbn [screen phase round players setPlayers].
        split; [done|]. split; [done|]. split; [done|]. split; [|split].
        + by apply mapAt_preserves.
        + by apply handleBetAllIn_within.
        + by apply (broke_player_stays _ (λ player, chips player)).
      - exists (setMessage MsgInvalidBet s). split; [by apply Hrejects|].
        by cbn [screen phase round players setMessage]. }
    destruct Hstep as (s1 & Hclick & Hscreen1 & Hphase1 & Hround1 & Hchips1 & Hwithin1
                       & Hbroke1).
    destruct (IH s1 Hscreen1 Hphase1 Hwithin1 Hbroke1)
      as (s' & Hclicks & Hscreen' & Hphase' & Hround' & Hchips' & Hdeal').
    exists s'. cbn [clicks]. rewrite Hclick. unfold mbind, completion_bind.
    split; [done|]. split; [done|]. split; [done|]. split; [congruence|].
    split; [congruence|done].
Qed.

Lemma broke_player_stops_the_table_witness :
  reachable tableWithBrokePlayer
  ∧ ∃ s',
      clicks [(keepOrder, AllIn 1); (keepOrder, Deal)] tableWithBrokePlayer = Return s'
      ∧ phase s' = Betting ∧ round s' = 2.
Proof.
  split; [apply stateAfter_reachable|].
  assert (Hscreen : screen tableWithBrokePlayer = Table) by (vm_compute; reflexivity).
  assert (Hphase : phase tableWithBrokePlayer = Betting) by (vm_compute; reflexivity).
  assert (Hwithin : betsWithinChips tableWithBrokePlayer).
  { assert (Hcheck : forallb (λ player, Qle_bool 0 (bet player)
                                        && Qle_bool (bet player) (chips player))
                             (players tableWithBrokePlayer) = true)
      by (vm_compute; reflexivity).
    apply Forall_forall. intros player Hin%list_elem_of_In.
    apply (proj1 (forallb_forall _ _) Hcheck) in Hin.
    apply andb_true_iff in Hin as [Hpos%Qle_bool_iff Hle%Qle_bool_iff].
    split; [exact Hpos|exact Hle]. }
  assert (Hbroke : ∃ player, player ∈ players tableWithBrokePlayer
                             ∧ (chips player == 0)%Q).
  { assert (Hcheck : existsb (λ player, Qeq_bool (chips player) 0)
                             (players tableWithBrokePlayer) = true)
      by (vm_compute; reflexivity).
    apply existsb_exists in Hcheck as (player & Hin%list_elem_of_In & Hzero%Qeq_bool_iff).
    exists player. split; [exact Hin|exact Hzero]. }
  destruct (proj2 (broke_player_stops_the_table
                     [(keepOrder, AllIn 1); (keepOrder, Deal)] tableWithBrokePlayer
                     Hscreen Hphase Hwithin Hbroke))
    as (s' & Hclicks & _ & Hphase' & Hround' & _).
  exists s'. split; [exact Hclicks|]. split; [exact Hphase'|].
  rewrite Hround'. vm_compute. reflexivity.
Defined.

(** ** The end of the round *)

Lemma stands_after_the_round (rands : list (nat → nat)) (s : State) :
  phase s = RoundEnd →
  clicks ((λ rand, (rand, Stand)) <$> rands) s = Return s.
Proof.
  intros Hphase. induction rands as [|rand rands IH]; [done|].
  rewrite fmap_cons. cbn [clicks]. unfold click, offered, inPhase.
  rewrite (bool_decide_eq_false_2 (phase s = Playing)) by (by rewrite Hphase).
  rewrite andb_false_r. exact IH.
Qed.

(** A table in the [Playing] phase whose dealer can draw to 17 is not
    stalled: its acting index holds an active player. *)
Lemma reachable_playing_draws (s : State) (finalHand nextDeck : list Card) :
  reachable s → phase s = Playing →
  dealerDraws (dealerHand (dealer s)) (deck s) = Return (finalHand, nextDeck) →
  ∃ player, at_index (players s) (currentIndex s) = Some player
            ∧ status player = StActive.
Proof.
  intros Hreach Hphase Hdraw.
  destruct (reachable_tableInvariant s Hreach) as [_ [[Hinv _]|(_ & _ & Hthrow & _)]].
  - unfold turnInvariant in Hinv. rewrite Hphase in Hinv. by destruct Hinv.
  - congruence.
Qed.

Lemma stands_end_the_round (finalHand nextDeck : list Card) (m : nat) :
  ∀ (rands : list (nat → nat)) (s : State),
    reachable s → phase s = Playing →
    (length (players s) - Z.to_nat (currentIndex s) <= m)%nat →
    dealerDraws (dealerHand (dealer s)) (deck s) = Return (finalHand, nextDeck) →
    (m <= length rands)%nat →
    ∃ s',
      clicks ((λ rand, (rand, Stand)) <$> rands) s = Return s'
      ∧ phase s' = RoundEnd
      ∧ dealerHand (dealer s') = finalHand ∧ deck s' = nextDeck.
Proof.
  induction m as [|m IH]; intros rands s Hreach Hphase Hmeasure Hdraw Hrands.
  - destruct (reachable_playing_draws s finalHand nextDeck Hreach Hphase Hdraw)
      as (player & Hat & _).
    apply at_index_Some in Hat as [_ Hat%lookup_lt_Some]. lia.
  - destruct rands as [|rand rands]; [simpl in Hrands; lia|].
    simpl in Hrands. rewrite fmap_cons. cbn [clicks].
    destruct (reachable_playing_draws s finalHand nextDeck Hreach Hphase Hdraw)
      as (player & Hat & Hact).
    pose proof (reachable_moneyInvariant s Hreach) as (_ & _ & Hlobby & _).
    assert (Hscreen : screen s = Table).
    { destruct (screen s); [|done]. specialize (Hlobby eq_refl). congruence. }
    assert (Hclick : click rand Stand s = handleStand s).
    { unfold click, offered, onScreen, inPhase.
      by rewrite !bool_decide_eq_true_2. }
    pose proof (handleStand_step s player Hat) as Hstep. cbv zeta in Hstep.
    set (updatedPlayers := <[Z.to_nat (currentIndex s) := withStatus StStand player]>
                             (players s)) in *.
    pose proof Hat as [Hpos Hlookup]%at_index_Some.
    destruct (advanceTurn_spec (setPlayers updatedPlayers s) updatedPlayers (dealer s)
                (deck s) (pot s) Hpos)
      as [(j & p & Hadv & Hlt & Hp & _)|[Hadv _]].
    + set (s1 := setCurrentIndex j (setPlayers updatedPlayers s)) in *.
      assert (Hs1 : click rand Stand s = Return s1) by (by rewrite Hclick, Hstep).
      rewrite Hs1. unfold mbind, completion_bind.
      apply IH; [by eapply reachable_click|done| |done|lia].
      cbn [players currentIndex s1 setCurrentIndex setPlayers] in *.
      unfold updatedPlayers. rewrite length_insert. lia.
    + rewrite (handleDealerTurn_settled _ _ _ _ _ finalHand nextDeck Hdraw) in Hadv.
      rewrite Hclick, Hstep, Hadv. unfold mbind, completion_bind.
      eexists. split; [by apply stands_after_the_round|]. by repeat split.
Qed.

(** X16. Every round can be brought to its end.  From a table the controls
    lead to, in the playing phase, whose deck lets the dealer draw to 17,
    one stand for every seat (whatever the random sources) returns without
    throwing and ends the round: the phase is [RoundEnd], the dealer holds
    the hand the draw to 17 gives and the deck is what that draw leaves.
    Once the round has ended further stands change nothing. *)
Theorem stands_bring_the_round_to_its_end (rands : list (nat → nat)) (s : State)
    (finalHand nextDeck : list Card) :
  reachable s → phase s = Playing →
  dealerDraws (dealerHand (dealer s)) (deck s) = Return (finalHand, nextDeck) →
  (length (players s) <= length rands)%nat →
  ∃ s',
    clicks ((λ rand, (rand, Stand)) <$> rands) s = Return s'
    ∧ phase s' = RoundEnd
    ∧ dealerHand (dealer s') = finalHand ∧ deck s' = nextDeck
    ∧ ∀ more : list (nat → nat),
        clicks ((λ rand, (rand, Stand)) <$> more) s' = Return s'.
Proof.
  intros Hreach Hphase Hdraw Hrands.
  destruct (stands_end_the_round finalHand nextDeck (length (players s)) rands s
              Hreach Hphase ltac:(lia) Hdraw Hrands)
    as (s' & Hclicks & Hended & Hdealer & Hdeck).
  exists s'. repeat split; try done.
  intros more. by apply stands_after_the_round.
Qed.

Lemma stands_bring_the_round_to_its_end_witness :
  reachable tableOfTwoDealt
  ∧ phase tableOfTwoDealt = Playing
  ∧ ∃ s',
      clicks [(keepOrder, Stand); (keepOrder, Stand)] tableOfTwoDealt = Return s'
      ∧ phase s' = RoundEnd.
Proof.
  assert (Hreach : reachable tableOfTwoDealt) by apply stateAfter_reachable.
  assert (Hphase : phase tableOfTwoDealt = Playing) by (vm_compute; reflexivity).
  assert (Hdraw : dealerDraws (dealerHand (dealer tableOfTwoDealt)) (deck tableOfTwoDealt)
                  = Return (dealerHand (dealer tableOfTwoDealt), deck tableOfTwoDealt))
    by (vm_compute; reflexivity).
  assert (Hseats : (length (players tableOfTwoDealt) <= length [keepOrder; keepOrder])%nat).
  { apply Nat.leb_le. vm_compute. reflexivity. }
  split; [exact Hreach|]. split; [exact Hphase|].
  destruct (stands_bring_the_round_to_its_end [keepOrder; keepOrder] tableOfTwoDealt
              _ _ Hreach Hphase Hdraw Hseats) as (s' & Hclicks & Hended & _).
  exists s'. split; [exact Hclicks|exact Hended].
Defined.

(** ** The accounts of the round *)

Lemma settledState_account (s : State) (currentPlayers : list Player)
    (finalHand nextDeck : list Card) (nextPot : Q) :
  NoDup (id <$> currentPlayers) →
  Forall (λ player, chips player == roundStartChips player - bet player)%Q
         currentPlayers →
  Forall (settledAccount (isMulti s))
         (players (settledState s currentPlayers finalHand nextDeck nextPot)).
Proof.
  intros Hnd Hstart. apply Forall_lookup. intros i player' Hi.
  pose proof (settledState_preserves roundStartChips s currentPlayers finalHand nextDeck
                nextPot ltac:(done) ltac:(done) ltac:(done)) as Hrsc.
  apply (f_equal (λ l, l !! i)) in Hrsc. rewrite !list_lookup_fmap, Hi in Hrsc.
  destruct (currentPlayers !! i) as [player|] eqn:Hp; [|done].
  simpl in Hrsc. injection Hrsc as Hrsc.
  pose proof (proj1 (Forall_lookup _ _) Hstart i player Hp) as Hchips. cbv beta in Hchips.
  set (resolved := resolvePlayers finalHand currentPlayers).
  assert (Hq : ∃ q, resolved !! i = Some q ∧ chips q = chips player
                    ∧ bet q = bet player ∧ roundStartChips q = roundStartChips player).
  { unfold resolved. rewrite resolvePlayers_lookup, Hp. simpl. by eexists. }
  destruct Hq as (q & Hq & Hqc & Hqb & Hqr).
  unfold settledState in Hi. cbn [players] in Hi. fold resolved in Hi.
  unfold settledAccount. destruct (isMulti s).
  - assert (Hnd' : NoDup (id <$> resolved)).
    { unfold resolved. by rewrite resolvePlayers_ids. }
    destruct (pooledFinalPlayers_lookup nextPot resolved i q Hnd' Hq)
      as (p' & Hp' & Hbet & Hres & Hch & Hdelta).
    rewrite Hi in Hp'. injection Hp' as <-.
    rewrite Hrsc, Hbet, Hqb. rewrite Hqr in Hdelta. rewrite Hqc, Hqb in Hch.
    split; [exact Hdelta|]. rewrite Hres. split.
    + intros Hlose. rewrite Hlose in Hch. unfold isWinner in Hch. rewrite Hlose in Hch.
      simpl in Hch. lra.
    + intros Hpush. rewrite Hpush in Hch. unfold isWinner in Hch. rewrite Hpush in Hch.
      simpl in Hch. lra.
  - destruct (soloFinalPlayers_lookup resolved i q Hq)
      as (p' & Hp' & _ & Hbet & _ & _ & Hres & Hch & Hdelta).
    rewrite Hi in Hp'. injection Hp' as <-.
    rewrite Hrsc, Hbet, Hqb, Hres. rewrite Hqr in Hdelta. rewrite Hqc, Hqb in Hch.
    split; [exact Hdelta|]. rewrite Hdelta, Hch, Hchips. ring.
Qed.

Lemma handleDealerTurn_account (s s' : State) (currentPlayers : list Player)
    (currentDealer : Dealer) (currentDeck : list Card) (nextPot : Q) :
  NoDup (id <$> currentPlayers) →
  Forall (λ player, chips player == roundStartChips player - bet player)%Q
         currentPlayers →
  handleDealerTurn s currentPlayers currentDealer currentDeck nextPot = Return s' →
  accountInvariant s'.
Proof.
  intros Hnd Hstart (finalHand & nextDeck & _ & ->)%handleDealerTurn_inv.
  unfold accountInvariant. cbn [phase settledState].
  change (isMulti (settledState s currentPlayers finalHand nextDeck nextPot))
    with (isMulti s).
  change (players _) with (players (settledState s currentPlayers finalHand nextDeck nextPot)).
  by apply settledState_account.
Qed.

Lemma advanceTurn_account (s s' : State) (nextDealer : Dealer) (nextDeck : list Card)
    (nextPot : Q) :
  phase s = Playing → NoDup (id <$> players s) → accountInvariant s →
  advanceTurn s (players s) nextDealer nextDeck nextPot = Return s' →
  accountInvariant s'.
Proof.
  intros Hphase Hnd Hinv. unfold advanceTurn.
  destruct (nextActiveIndex (players s) (currentIndex s)) as [j|e]; [|done].
  unfold mbind, completion_bind. destruct (j =? -1).
  - apply handleDealerTurn_account; [done|].
    unfold accountInvariant in Hinv. rewrite Hphase in Hinv.
    eapply Forall_impl; [exact Hinv|]. by intros player [? _].
  - intros [= <-]. unfold accountInvariant in *.
    cbn [phase players setCurrentIndex]. by rewrite Hphase in *.
Qed.

Lemma accountInvariant_playing (s s1 : State) :
  phase s = Playing → phase s1 = Playing →
  (λ player, (chips player, roundStartChips player, bet player, delta player))
    <$> players s1
  = (λ player, (chips player, roundStartChips player, bet player, delta player))
    <$> players s →
  accountInvariant s → accountInvariant s1.
Proof.
  intros Hphase Hphase1 Hproj. unfold accountInvariant. rewrite Hphase, Hphase1.
  apply (Forall_proj
           (λ player, (chips player, roundStartChips player, bet player, delta player))
           (λ a, (a.1.1.1 == a.1.1.2 - a.1.2)%Q ∧ (a.2 == 0)%Q) _ _ Hproj).
Qed.

Lemma handleHit_account (s s' : State) :
  phase s = Playing → NoDup (id <$> players s) → accountInvariant s →
  handleHit s = Return s' → accountInvariant s'.
Proof.
  intros Hphase Hnd Hinv.
  destruct (at_index (players s) (currentIndex s)) as [player|] eqn:Hat.
  2:{ rewrite handleHit_guard by (by left). by intros [= <-]. }
  destruct (decide (status player = StActive)) as [Hact|Hnot].
  2:{ rewrite handleHit_guard by (right; eauto). by intros [= <-]. }
  destruct (drawCard (deck s)) as [[card|] next] eqn:Hdraw.
  2:{ unfold handleHit. by rewrite Hat, Hact, Hdraw. }
  rewrite (handleHit_step s player card next Hat Hact Hdraw). cbv zeta.
  set (updatedPlayers := <[Z.to_nat (currentIndex s) := playerAfterHit player card]>
                           (players s)).
  assert (Hproj : ∀ {B} (proj : Player → B),
             (∀ q v, proj (withHand v q) = proj q) →
             (∀ q v, proj (withStatus v q) = proj q) →
             proj <$> updatedPlayers = proj <$> players s).
  { intros B proj Hh Hs. unfold updatedPlayers.
    rewrite list_fmap_insert. apply list_insert_id.
    apply at_index_Some in Hat as [_ Hat]. rewrite list_lookup_fmap, Hat. simpl.
    unfold playerAfterHit. by rewrite Hs, Hh. }
  assert (Hs1 : accountInvariant (setPlayers updatedPlayers (setDeck next s))).
  { apply (accountInvariant_playing s); try done. cbn [players setPlayers].
    by apply Hproj. }
  destruct (_ <? 21); [by intros [= <-]|].
  apply (advanceTurn_account (setPlayers updatedPlayers (setDeck next s))); try done.
  cbn [players setPlayers]. by rewrite (Hproj _ id).
Qed.

Lemma handleStand_account (s s' : State) :
  phase s = Playing → NoDup (id <$> players s) → accountInvariant s →
  handleStand s = Return s' → accountInvariant s'.
Proof.
  intros Hphase Hnd Hinv. unfold handleStand.
  set (updatedPlayers := mapAt (currentIndex s) (withStatus StStand) (players s)).
  apply (advanceTurn_account (setPlayers updatedPlayers s)); try done.
  - cbn [players setPlayers]. unfold updatedPlayers. by rewrite mapAt_ids.
  - apply (accountInvariant_playing s); try done. cbn [players setPlayers].
    by apply mapAt_preserves.
Qed.

Lemma handleDeal_account (rand : nat → nat) (s s' : State) :
  phase s = Betting → NoDup (id <$> players s) → accountInvariant s →
  handleDeal rand s = Return s' → accountInvariant s'.
Proof.
  intros Hphase Hnd Hinv. unfold handleDeal.
  destruct (existsb invalidBet (players s)).
  { intros [= <-]. unfold accountInvariant in *.
    cbn [phase players setMessage]. by rewrite Hphase in *. }
  destruct (dealInitial rand (deck s) (reservePlayers (players s)))
    as [[[nextDeck dealtPlayers] nextDealer]|e] eqn:Hdeal; [|done].
  pose proof (dealInitial_ids _ _ _ _ _ _ Hdeal) as Hids.
  apply (dealInitial_preserves
           (λ player, (chips player, roundStartChips player, bet player, delta player)))
    in Hdeal; [|done..].
  assert (Hres : id <$> reservePlayers (players s) = id <$> players s).
  { unfold reservePlayers. rewrite <- list_fmap_compose. by apply list_fmap_ext. }
  assert (Hdealt : Forall (λ player, (chips player == roundStartChips player - bet player)%Q
                                     ∧ (delta player == 0)%Q) dealtPlayers).
  { apply (Forall_proj
             (λ player, (chips player, roundStartChips player, bet player, delta player))
             (λ a, (a.1.1.1 == a.1.1.2 - a.1.2)%Q ∧ (a.2 == 0)%Q) _ _ Hdeal).
    unfold reservePlayers. apply Forall_fmap, Forall_forall. intros player _.
    cbn [chips roundStartChips bet delta withChips withRoundStartChips withDelta
           withResult withHand withStatus compose]. split; reflexivity. }
  unfold mbind, completion_bind, nextActiveIndex.
  change (-1 + 1 <? 0) with false. cbv iota.
  destruct (scanActive _ _ =? -1).
  - apply handleDealerTurn_account; [by rewrite Hids, Hres|].
    eapply Forall_impl; [exact Hdealt|]. by intros player [? _].
  - intros Heq%Return_inj. subst s'. unfold accountInvariant.
    by destruct (isMulti s);
      cbn [phase players setCurrentIndex setPot setMessage setPhase setDealer
           setPlayers setDeck].
Qed.

Lemma click_account (rand : nat → nat) (e : Event) (s s' : State) :
  NoDup (id <$> players s) → (screen s = Lobby → phase s = Betting) →
  accountInvariant s → click rand e s = Return s' → accountInvariant s'.
Proof.
  intros Hnd Hlobby Hinv. unfold click.
  destruct (offered s e) eqn:Hoff; [|by intros [= <-]].
  destruct e; cbn [handler offered] in *.
  - intros [= <-].
    apply andb_true_iff in Hoff as [Hscreen%bool_decide_eq_true _].
    specialize (Hlobby Hscreen). unfold accountInvariant in *.
    cbn [phase players setPlayerCount]. by rewrite Hlobby in *.
  - intros [= <-]. unfold accountInvariant.
    cbn [phase players handleLobbyStart setMessage setPot setRound setScreen setPhase
           setDealer setPlayers].
    unfold buildPlayers. apply Forall_fmap, Forall_forall. by intros q _.
  - intros [= <-]. repeat (apply andb_true_iff in Hoff as [Hoff ?]).
    assert (Hphase : phase s = Betting)
      by (by apply (bool_decide_eq_true (phase s = Betting))).
    unfold accountInvariant, handleBetAdd in *. cbn [phase players setPlayers].
    rewrite Hphase in *. by apply mapAt_Forall.
  - intros [= <-]. repeat (apply andb_true_iff in Hoff as [Hoff ?]).
    assert (Hphase : phase s = Betting)
      by (by apply (bool_decide_eq_true (phase s = Betting))).
    unfold accountInvariant, handleBetClear in *. cbn [phase players setPlayers].
    rewrite Hphase in *. by apply mapAt_Forall.
  - intros [= <-]. repeat (apply andb_true_iff in Hoff as [Hoff ?]).
    assert (Hphase : phase s = Betting)
      by (by apply (bool_decide_eq_true (phase s = Betting))).
    unfold accountInvariant, handleBetAllIn in *. cbn [phase players setPlayers].
    rewrite Hphase in *. by apply mapAt_Forall.
  - apply andb_true_iff in Hoff as [_ Hphase%bool_decide_eq_true].
    by apply handleDeal_account.
  - apply andb_true_iff in Hoff as [_ Hphase%bool_decide_eq_true].
    by apply handleHit_account.
  - apply andb_true_iff in Hoff as [_ Hphase%bool_decide_eq_true].
    by apply handleStand_account.
  - intros [= <-]. unfold accountInvariant, handleNextRound.
    cbn [phase players setMessage setRound setPhase setDealer setPlayers].
    apply Forall_fmap, Forall_forall. by intros q _.
Qed.

Lemma leftByThrow_account (rand : nat → nat) (e : Event) (s s' : State) :
  accountInvariant s → leftByThrow rand s e s' → accountInvariant s'.
Proof.
  intros Hinv.
  destruct 1 as [| nextDeck dealtPlayers nextDealer _ _ _ Hdeal _ _
                 | | player card next _ Hphase Hat _ _ _ _ _ | _ Hphase _ _]; try done.
  - apply (dealInitial_preserves
             (λ player, (chips player, roundStartChips player, bet player, delta player)))
      in Hdeal; [|done..].
    unfold accountInvariant. cbn [phase players dealtState].
    apply (Forall_proj
             (λ player, (chips player, roundStartChips player, bet player, delta player))
             (λ a, (a.1.1.1 == a.1.1.2 - a.1.2)%Q ∧ (a.2 == 0)%Q) _ _ Hdeal).
    unfold reservePlayers. apply Forall_fmap, Forall_forall. intros player _.
    cbn [chips roundStartChips bet delta withChips withRoundStartChips withDelta
           withResult withHand withStatus compose]. split; reflexivity.
  - apply (accountInvariant_playing s); try done. cbn [players setPlayers].
    rewrite list_fmap_insert. apply list_insert_id.
    apply at_index_Some in Hat as [_ Hat]. by rewrite list_lookup_fmap, Hat.
  - apply (accountInvariant_playing s); try done. cbn [players setPlayers].
    by apply mapAt_preserves.
Qed.

Lemma reachable_accountInvariant (s : State) : reachable s → accountInvariant s.
Proof.
  induction 1 as [rand|rand e s s' Hreach IH Hclick|rand e s err Hreach IH Hclick].
  - unfold accountInvariant. cbn [phase players initialState]. constructor.
  - eapply click_account; [| |exact IH|exact Hclick].
    + by apply reachable_ids_NoDup.
    + by apply reachable_moneyInvariant.
  - eapply leftByThrow_account; [exact IH|]. by eapply reachable_leftByThrow.
Qed.

(** X17. The chip change shown for a player is the account of the round.
    In every table the controls lead to: until the round ends [delta] is 0,
    and while the round is played the chips are those of the round's start
    less the bet.  After the round, at a table of several seats, [delta] is
    the change of the chips since the round's start, a loser loses the bet
    and a push changes nothing.  At a solo table, where the amounts of the
    round (the balance after the bet, the payout, the balance after the
    payout and the change) are numbers that JavaScript holds exactly,
    [delta] is the change of the chips since the round's start and is the
    bet times the multiplier of the result less one (minus the bet for a
    loss, nothing for a push, the bet for a win, one and a half times the
    bet for a blackjack).  At a table of several seats a winner can end the
    round with fewer chips than at its start: with bets of 100 each, seat
    one winning with 19 against the dealer's 18 beside a blackjack at seat
    two ends on 980 chips, 20 fewer. *)
Theorem reachable_delta_is_round_account (s : State) :
  reachable s →
  (phase s ≠ RoundEnd → ∀ player, player ∈ players s → (delta player == 0)%Q)
  ∧ (phase s = Playing →
     ∀ player, player ∈ players s →
       (chips player == roundStartChips player - bet player)%Q)
  ∧ (phase s = RoundEnd →
     ∀ player, player ∈ players s →
       (isMulti s = true →
          (delta player == chips player - roundStartChips player)%Q
          ∧ (result player = ResLose → (delta player == - bet player)%Q)
          ∧ (result player = ResPush → (delta player == 0)%Q))
       ∧ (isMulti s = false → soloRoundExact player →
          (delta player == chips player - roundStartChips player)%Q
          ∧ (delta player == bet player * (payoutMultiplier (result player) - 1))%Q))
  ∧ (reachable winnerBesideNatural
     ∧ isMulti winnerBesideNatural = true
     ∧ phase winnerBesideNatural = RoundEnd
     ∧ ∃ winner other,
         players winnerBesideNatural = [winner; other]
         ∧ result winner = ResWin ∧ result other = ResBlackjack
         ∧ (bet winner == 100)%Q ∧ (roundStartChips winner == 1000)%Q
         ∧ (chips winner == 980)%Q ∧ (delta winner == -20)%Q
         ∧ (delta other == 20)%Q).
Proof.
  intros Hreach. pose proof (reachable_accountInvariant s Hreach) as Hinv.
  unfold accountInvariant in Hinv.
  split; [|split; [|split]].
  - intros Hphase player Hin. destruct (phase s); [| |done].
    + by apply (proj1 (Forall_forall _ _) Hinv player Hin).
    + by apply (proj1 (Forall_forall _ _) Hinv player Hin).
  - intros Hphase player Hin. rewrite Hphase in Hinv.
    by apply (proj1 (Forall_forall _ _) Hinv player Hin).
  - intros Hphase player Hin. rewrite Hphase in Hinv.
    destruct (proj1 (Forall_forall _ _) Hinv player Hin) as [Hdelta Hmode].
    destruct (isMulti s).
    + split; [|done]. intros _. split; [done|]. by destruct Hmode.
    + split; [done|]. intros _ _. by split.
  - split; [apply stateAfter_reachable|].
    split; [vm_compute; reflexivity|]. split; [vm_compute; reflexivity|].
    eexists _, _. split; [vm_compute; reflexivity|].
    repeat split; reflexivity.
Qed.

Lemma reachable_delta_is_round_account_witness :
  reachable soloTableEnded
  ∧ phase soloTableEnded = RoundEnd
  ∧ isMulti soloTableEnded = false
  ∧ ∃ player,
      players soloTableEnded !! 0%nat = Some player
      ∧ soloRoundExact player
      ∧ (delta player == bet player * (payoutMultiplier (result player) - 1))%Q.
Proof.
  assert (Hreach : reachable soloTableEnded) by apply stateAfter_reachable.
  assert (Hphase : phase soloTableEnded = RoundEnd) by (vm_compute; reflexivity).
  assert (Hsolo : isMulti soloTableEnded = false) by (vm_compute; reflexivity).
  split; [exact Hreach|]. split; [exact Hphase|]. split; [exact Hsolo|].
  destruct (players soloTableEnded !! 0%nat) as [player|] eqn:Hplayer;
    [|vm_compute in Hplayer; discriminate].
  assert (Hin : player ∈ players soloTableEnded)
    by (eapply list_elem_of_lookup_2; exact Hplayer).
  assert (Hexact : soloRoundExact player).
  { vm_compute in Hplayer. injection Hplayer as <-.
    unfold soloRoundExact, soloAmountsExact.
    cbn [chips bet roundStartChips result withChips].
    split; [|split; [|split]]; apply representable_floor; vm_compute; reflexivity. }
  exists player. split; [reflexivity|]. split; [exact Hexact|].
  exact (proj2 (proj2 (proj1 (proj2 (proj2
           (reachable_delta_is_round_account soloTableEnded Hreach))) Hphase player Hin)
           Hsolo Hexact)).
Defined.

(** ** Clicks that cannot throw *)

Lemma submseteq_deckCards (l : list Card) :
  l ⊆+ createDeck → Forall (λ card, card ∈ createDeck) l.
Proof.
  intros Hsub. apply Forall_forall. intros card Hin.
  by eapply elem_of_submseteq.
Qed.

Lemma dealerDraws_enough (dealerCards currentDeck : list Card) :
  dealerCards ++ currentDeck ⊆+ createDeck →
  (17 <= length dealerCards + length currentDeck)%nat →
  ∃ r, dealerDraws dealerCards currentDeck = Return r.
Proof.
  intros Hsub Hlen.
  destruct (dealerDraws dealerCards currentDeck) as [r|[]] eqn:Hdraw; [by exists r|].
  pose proof (proj1 (dealerDraws_Throw dealerCards currentDeck) Hdraw
                (length currentDeck) ltac:(lia)) as Hlow. clear Hdraw.
  rename Hlow into Hdraw.
  rewrite take_ge in Hdraw by (rewrite length_rev; lia).
  assert (Hcards : Forall (λ card, card ∈ createDeck) (dealerCards ++ rev currentDeck)).
  { apply submseteq_deckCards. by rewrite <- Permutation_rev. }
  pose proof (deckCards_hardTotal _ Hcards) as Hhard.
  pose proof (hardTotal_le (dealerCards ++ rev currentDeck)) as Hle.
  rewrite length_app, length_rev in Hhard. lia.
Qed.

Lemma advanceTurn_returns (s : State) (nextPlayers : list Player) (nextDealer : Dealer)
    (nextDeck : list Card) (nextPot : Q) :
  0 <= currentIndex s →
  dealerHand nextDealer ++ nextDeck ⊆+ createDeck →
  (17 <= length (dealerHand nextDealer) + length nextDeck)%nat →
  ∃ s', advanceTurn s nextPlayers nextDealer nextDeck nextPot = Return s'.
Proof.
  intros Hpos Hsub Hlen.
  destruct (advanceTurn_spec s nextPlayers nextDealer nextDeck nextPot Hpos)
    as [(j & p & -> & _)|[-> _]]; [by eexists|].
  destruct (dealerDraws_enough _ _ Hsub Hlen) as [[finalHand deck'] Hdraw].
  rewrite (handleDealerTurn_settled _ _ _ _ _ _ _ Hdraw). by eexists.
Qed.

(** X18. A click cannot throw while the deck is deep enough.  At every
    table the controls lead to, a click returns a next state (no
    [TypeError]) whenever the deck holds 16 cards for a hit, 15 for a stand,
    and for a deal either fewer than 15 cards (the deck is then replaced)
    or 25; the clicks of all other controls, and clicks on controls that
    are not rendered, always return. *)
Theorem clicks_return_on_a_deep_deck (rand : nat → nat) (e : Event) (s : State) :
  reachable s → deepDeck s e → ∃ s', click rand e s = Return s'.
Proof.
  intros Hreach Hdeep. unfold click.
  destruct (offered s e) eqn:Hoff; [|by exists s].
  pose proof (reachable_cards s Hreach) as Hcards.
  pose proof (reachable_tableInvariant s Hreach) as Htable.
  assert (Hdealer : dealerHand (dealer s) ++ deck s ⊆+ createDeck).
  { etrans; [|exact Hcards]. unfold tableCards. by apply submseteq_inserts_l. }
  destruct e; cbn [handler offered deepDeck] in *; try (by eexists).
  - (* Deal *)
    apply andb_true_iff in Hoff as [Hscreen%bool_decide_eq_true Hphase%bool_decide_eq_true].
    destruct (reachable_seatsInvariant s Hreach) as (Hcount & _ & Hseats).
    rewrite Hscreen in Hseats.
    assert (Hn : (length (players s) <= 4)%nat).
    { apply (f_equal length) in Hseats. rewrite !length_fmap, length_seq in Hseats. lia. }
    unfold handleDeal. destruct (existsb invalidBet (players s)); [by eexists|].
    destruct (dealInitial_enough rand (deck s) (reservePlayers (players s)))
      as [[[nextDeck dealtPlayers] nextDealer] Hdeal].
    { unfold reservePlayers. rewrite length_fmap. lia. }
    rewrite Hdeal. unfold mbind, completion_bind, nextActiveIndex.
    change (-1 + 1 <? 0) with false. cbv iota.
    destruct (scanActive _ _ =? -1); [|by eexists].
    pose proof (dealInitial_lengths _ _ _ _ _ _ Hdeal) as (Hlen & _ & Hdealer2).
    pose proof (dealInitial_cards _ _ _ _ _ _ Hdeal) as Hperm.
    pose proof (ensureDeck_submseteq rand s Hcards) as Hsub. rewrite <- Hperm in Hsub.
    assert (Hensured : (25 <= length (ensureDeck rand (deck s)))%nat).
    { unfold ensureDeck. destruct (Nat.ltb_spec (length (deck s)) 15).
      - rewrite shuffle_length. change (length createDeck) with 52%nat. lia.
      - lia. }
    unfold reservePlayers in Hlen. rewrite length_fmap in Hlen.
    destruct (dealerDraws_enough (dealerHand nextDealer) nextDeck) as [[fh nd] Hdraw].
    { etrans; [|exact Hsub]. by apply submseteq_inserts_l. }
    { lia. }
    rewrite (handleDealerTurn_settled _ _ _ _ _ _ _ Hdraw). by eexists.
  - (* Hit *)
    apply andb_true_iff in Hoff as [_ Hphase%bool_decide_eq_true].
    destruct (tableInvariant_playing s Htable Hphase) as (_ & Hlen2 & _).
    destruct Htable as [_ [[Hturn _]|(Hstalled & _)]].
    2:{ exists s. by apply stalled_handleHit. }
    unfold turnInvariant in Hturn. rewrite Hphase in Hturn.
    destruct Hturn as [(player & Hat & Hact) _].
    destruct (drawCard (deck s)) as [[card|] next] eqn:Hdraw.
    2:{ apply drawCard_None in Hdraw as [Hempty _]. rewrite Hempty in Hdeep.
        simpl in Hdeep. lia. }
    rewrite (handleHit_step s player card next Hat Hact Hdraw). cbv zeta.
    destruct (_ <? 21); [by eexists|].
    apply drawCard_Some in Hdraw. rewrite Hdraw in Hdeep, Hdealer.
    rewrite length_app in Hdeep. simpl in Hdeep.
    apply at_index_Some in Hat as [Hpos _].
    apply advanceTurn_returns; [done| |lia].
    etrans; [|exact Hdealer]. apply submseteq_app; [done|].
    by apply submseteq_inserts_r.
  - (* Stand *)
    apply andb_true_iff in Hoff as [_ Hphase%bool_decide_eq_true].
    destruct (tableInvariant_playing s Htable Hphase) as (_ & Hlen2 & _).
    destruct Htable as [Hpos _]. unfold handleStand.
    apply advanceTurn_returns; [done|done|lia].
Qed.

Lemma clicks_return_on_a_deep_deck_witness :
  reachable tableOfTwoDealt
  ∧ deepDeck tableOfTwoDealt Hit
  ∧ ∃ s', click keepOrder Hit tableOfTwoDealt = Return s'.
Proof.
  assert (Hreach : reachable tableOfTwoDealt) by apply stateAfter_reachable.
  assert (Hdeep : deepDeck tableOfTwoDealt Hit).
  { apply Nat.leb_le. vm_compute. reflexivity. }
  split; [exact Hreach|]. split; [exact Hdeep|].
  exact (clicks_return_on_a_deep_deck keepOrder Hit tableOfTwoDealt Hreach Hdeep).
Defined.

(** ** The totals on the table *)

Lemma calculateHand_snoc_le (hand : list Card) (card : Card) :
  card ∈ createDeck →
  calculateHand (hand ++ [card]) <= Z.max 21 (calculateHand hand + 10).
Proof.
  intros Hc.
  assert (Hcard : sumValues [card] - 10 * countAces [card] <= 10).
  { apply createDeck_cardOf in Hc. rewrite Hc.
    by destruct (suit card), (rank card); vm_compute. }
  destruct (calculateHand_reductions hand) as (k & Hk & Hcalc & _ & _).
  destruct (calculateHand_reductions (hand ++ [card])) as (k' & Hk' & Hcalc' & Hstop' & _).
  rewrite sumValues_app, countAces_app in *. lia.
Qed.

Lemma dealerDraws_total_le (dealerCards currentDeck finalHand nextDeck : list Card) :
  currentDeck ⊆+ createDeck → calculateHand dealerCards <= 26 →
  dealerDraws dealerCards currentDeck = Return (finalHand, nextDeck) →
  calculateHand finalHand <= 26.
Proof.
  intros Hsub Hle Hdraw.
  destruct (dealerDraws_Return _ _ _ _ Hdraw) as (drawn & -> & -> & _ & Hbefore).
  destruct drawn as [|card drawn _] using rev_ind; [by rewrite app_nil_r|].
  specialize (Hbefore (length drawn)). rewrite length_app in Hbefore. simpl in Hbefore.
  specialize (Hbefore ltac:(lia)). rewrite take_app_length in Hbefore.
  assert (Hc : card ∈ createDeck).
  { eapply elem_of_submseteq; [|exact Hsub].
    rewrite rev_app_distr. simpl. apply elem_of_app. right. left. }
  pose proof (calculateHand_snoc_le (dealerCards ++ drawn) card Hc) as Hsnoc.
  rewrite <- app_assoc in Hsnoc. lia.
Qed.

Lemma handleDealerTurn_totals (s s' : State) (currentPlayers : list Player)
    (currentDealer : Dealer) (currentDeck : list Card) (nextPot : Q) :
  Forall (λ player, calculateHand (hand player) <= 30) currentPlayers →
  calculateHand (dealerHand currentDealer) <= 26 →
  currentDeck ⊆+ createDeck →
  handleDealerTurn s currentPlayers currentDealer currentDeck nextPot = Return s' →
  totalsInvariant s'.
Proof.
  intros Hplayers Hdealer Hsub (finalHand & nextDeck & Hdraw & ->)%handleDealerTurn_inv.
  split.
  - apply (Forall_proj hand (λ cards, calculateHand cards <= 30) _ currentPlayers);
      [|done].
    by apply settledState_preserves.
  - cbn [dealer dealerHand settledState]. by eapply dealerDraws_total_le.
Qed.

Lemma advanceTurn_totals (s s' : State) (nextDeck : list Card) (nextPot : Q) :
  totalsInvariant s → nextDeck ⊆+ createDeck →
  advanceTurn s (players s) (dealer s) nextDeck nextPot = Return s' →
  totalsInvariant s'.
Proof.
  intros [Hplayers Hdealer] Hsub. unfold advanceTurn.
  destruct (nextActiveIndex (players s) (currentIndex s)) as [j|e]; [|done].
  unfold mbind, completion_bind. destruct (j =? -1).
  - by apply handleDealerTurn_totals.
  - by intros [= <-].
Qed.

Lemma handleHit_totals (s s' : State) :
  phase s = Playing → roundInvariant s → deck s ⊆+ createDeck → totalsInvariant s →
  handleHit s = Return s' → totalsInvariant s'.
Proof.
  intros Hphase Hround Hsub [Hplayers Hdealer].
  destruct (at_index (players s) (currentIndex s)) as [player|] eqn:Hat.
  2:{ rewrite handleHit_guard by (by left). by intros [= <-]. }
  destruct (decide (status player = StActive)) as [Hact|Hnot].
  2:{ rewrite handleHit_guard by (right; eauto). by intros [= <-]. }
  destruct (drawCard (deck s)) as [[card|] next] eqn:Hdraw.
  2:{ unfold handleHit. by rewrite Hat, Hact, Hdraw. }
  rewrite (handleHit_step s player card next Hat Hact Hdraw). cbv zeta.
  set (updatedPlayers := <[Z.to_nat (currentIndex s) := playerAfterHit player card]>
                           (players s)).
  apply drawCard_Some in Hdraw. rewrite Hdraw in Hsub.
  assert (Hnext : next ⊆+ createDeck).
  { etrans; [|exact Hsub]. by apply submseteq_inserts_r. }
  assert (Hcard : card ∈ createDeck).
  { eapply elem_of_submseteq; [|exact Hsub]. apply elem_of_app. right. left. }
  assert (Hlow : calculateHand (hand player) < 21).
  { unfold roundInvariant in Hround. rewrite Hphase in Hround.
    destruct Hround as (_ & _ & Hall). apply at_index_Some in Hat as [_ Hat].
    destruct (proj1 (Forall_lookup _ _) Hall _ _ Hat) as [(_ & _ & Hst) _].
    by rewrite Hact in Hst. }
  assert (Hs1 : totalsInvariant (setPlayers updatedPlayers (setDeck next s))).
  { split; [|done]. cbn [players setPlayers]. unfold updatedPlayers.
    apply Forall_insert; [done|].
    unfold playerAfterHit. cbn [hand withHand withStatus compose].
    pose proof (calculateHand_snoc_le (hand player) card Hcard). lia. }
  destruct (_ <? 21); [by intros [= <-]|].
  by apply (advanceTurn_totals (setPlayers updatedPlayers (setDeck next s))).
Qed.

Lemma handleStand_totals (s s' : State) :
  deck s ⊆+ createDeck → totalsInvariant s →
  handleStand s = Return s' → totalsInvariant s'.
Proof.
  intros Hsub [Hplayers Hdealer]. unfold handleStand.
  set (updatedPlayers := mapAt (currentIndex s) (withStatus StStand) (players s)).
  apply (advanceTurn_totals (setPlayers updatedPlayers s)); [|done].
  split; [|done]. cbn [players setPlayers]. unfold updatedPlayers.
  by apply mapAt_Forall.
Qed.

Lemma handleDeal_totals (rand : nat → nat) (s s' : State) :
  tableCards s ⊆+ createDeck → totalsInvariant s →
  handleDeal rand s = Return s' → totalsInvariant s'.
Proof.
  intros Hcards Hinv. unfold handleDeal.
  destruct (existsb invalidBet (players s)); [by intros [= <-]|].
  destruct (dealInitial rand (deck s) (reservePlayers (players s)))
    as [[[nextDeck dealtPlayers] nextDealer]|e] eqn:Hdeal; [|done].
  pose proof (dealInitial_cards _ _ _ _ _ _ Hdeal) as Hperm.
  pose proof (ensureDeck_submseteq rand s Hcards) as Hsub. rewrite <- Hperm in Hsub.
  apply dealInitial_seats in Hdeal as [(d1 & d2 & ->) Hseats].
  cbn [dealerHand] in Hsub.
  assert (Hin : ∀ card, card ∈ concat (hand <$> dealtPlayers) ++ [d1; d2] →
                        card ∈ createDeck).
  { intros card Hc. eapply elem_of_submseteq; [|exact Hsub].
    rewrite app_assoc. apply elem_of_app. by left. }
  assert (Hdealt : Forall (λ player, calculateHand (hand player) <= 30) dealtPlayers).
  { apply Forall_forall. intros q Hq.
    apply list_elem_of_lookup in Hq as [i Hi].
    destruct (Forall2_lookup_r _ _ _ _ _ Hseats Hi) as (p & _ & c1 & c2 & ->).
    assert (Hq : ∀ card, card ∈ [c1; c2] → card ∈ createDeck).
    { intros card Hc. apply Hin. apply elem_of_app. left.
      apply list_elem_of_In, in_concat.
      exists [c1; c2]. split; [|by apply list_elem_of_In].
      apply list_elem_of_In, list_elem_of_fmap. eexists.
      split; [|by eapply list_elem_of_lookup_2]. reflexivity. }
    cbn [hand dealtSeat].
    assert (c1 ∈ createDeck) by (apply Hq; left).
    assert (c2 ∈ createDeck) by (apply Hq; right; left).
    pose proof (twoCards_le_21 c1 c2 ltac:(done) ltac:(done)).
    lia. }
  assert (Hdealer : calculateHand [d1; d2] <= 26).
  { pose proof (twoCards_le_21 d1 d2) as Hle.
    assert (d1 ∈ createDeck) by (apply Hin, elem_of_app; right; left).
    assert (d2 ∈ createDeck) by (apply Hin, elem_of_app; right; right; left).
    specialize (Hle ltac:(done) ltac:(done)). lia. }
  assert (Hnext : nextDeck ⊆+ createDeck).
  { etrans; [|exact Hsub]. apply submseteq_inserts_l, submseteq_inserts_l. done. }
  unfold mbind, completion_bind, nextActiveIndex.
  change (-1 + 1 <? 0) with false. cbv iota.
  destruct (scanActive _ _ =? -1).
  - by apply handleDealerTurn_totals.
  - intros Heq%Return_inj. subst s'. unfold totalsInvariant.
    by destruct (isMulti s);
      cbn [players dealer dealerHand setCurrentIndex setPot setMessage setPhase
           setDealer setPlayers setDeck].
Qed.

Lemma click_totals (rand : nat → nat) (e : Event) (s s' : State) :
  roundInvariant s → tableCards s ⊆+ createDeck → totalsInvariant s →
  click rand e s = Return s' → totalsInvariant s'.
Proof.
  intros Hround Hcards Hinv. unfold click.
  destruct (offered s e) eqn:Hoff; [|by intros [= <-]].
  assert (Hdeck : deck s ⊆+ createDeck).
  { etrans; [apply deck_submseteq_table|done]. }
  destruct e; cbn [handler offered] in *.
  - by intros [= <-].
  - intros [= <-]. split; [|by vm_compute].
    cbn [players handleLobbyStart setMessage setPot setRound setScreen setPhase
           setDealer setPlayers].
    unfold buildPlayers. apply Forall_fmap, Forall_forall. by intros q _.
  - intros [= <-]. destruct Hinv as [Hplayers Hdealer]. split; [|done].
    unfold handleBetAdd. cbn [players setPlayers]. by apply mapAt_Forall.
  - intros [= <-]. destruct Hinv as [Hplayers Hdealer]. split; [|done].
    unfold handleBetClear. cbn [players setPlayers]. by apply mapAt_Forall.
  - intros [= <-]. destruct Hinv as [Hplayers Hdealer]. split; [|done].
    unfold handleBetAllIn. cbn [players setPlayers]. by apply mapAt_Forall.
  - by apply handleDeal_totals.
  - apply andb_true_iff in Hoff as [_ Hphase%bool_decide_eq_true].
    by apply handleHit_totals.
  - by apply handleStand_totals.
  - intros [= <-]. split; [|by vm_compute].
    unfold handleNextRound.
    cbn [players setMessage setRound setPhase setDealer setPlayers].
    apply Forall_fmap, Forall_forall. by intros q _.
Qed.

Lemma dealInitial_totals (rand : nat → nat) (s : State) (nextDeck : list Card)
    (dealtPlayers : list Player) (nextDealer : Dealer) :
  tableCards s ⊆+ createDeck →
  dealInitial rand (deck s) (reservePlayers (players s))
  = Return (nextDeck, dealtPlayers, nextDealer) →
  Forall (λ player, calculateHand (hand player) <= 30) dealtPlayers
  ∧ calculateHand (dealerHand nextDealer) <= 26.
Proof.
  intros Hcards Hdeal.
  pose proof (dealInitial_cards _ _ _ _ _ _ Hdeal) as Hperm.
  pose proof (ensureDeck_submseteq rand s Hcards) as Hsub. rewrite <- Hperm in Hsub.
  apply dealInitial_seats in Hdeal as [(d1 & d2 & ->) Hseats].
  cbn [dealerHand] in *.
  assert (Hin : ∀ card, card ∈ concat (hand <$> dealtPlayers) ++ [d1; d2] →
                        card ∈ createDeck).
  { intros card Hc. eapply elem_of_submseteq; [|exact Hsub].
    rewrite app_assoc. apply elem_of_app. by left. }
  split.
  - apply Forall_forall. intros q Hq.
    apply list_elem_of_lookup in Hq as [i Hi].
    destruct (Forall2_lookup_r _ _ _ _ _ Hseats Hi) as (p & _ & c1 & c2 & ->).
    assert (Hq : ∀ card, card ∈ [c1; c2] → card ∈ createDeck).
    { intros card Hc. apply Hin. apply elem_of_app. left.
      apply list_elem_of_In, in_concat.
      exists [c1; c2]. split; [|by apply list_elem_of_In].
      apply list_elem_of_In, list_elem_of_fmap. eexists.
      split; [|by eapply list_elem_of_lookup_2]. reflexivity. }
    cbn [hand dealtSeat].
    assert (c1 ∈ createDeck) by (apply Hq; left).
    assert (c2 ∈ createDeck) by (apply Hq; right; left).
    pose proof (twoCards_le_21 c1 c2 ltac:(done) ltac:(done)).
    lia.
  - pose proof (twoCards_le_21 d1 d2) as Hle.
    assert (d1 ∈ createDeck) by (apply Hin, elem_of_app; right; left).
    assert (d2 ∈ createDeck) by (apply Hin, elem_of_app; right; right; left).
    specialize (Hle ltac:(done) ltac:(done)). lia.
Qed.

Lemma leftByThrow_totals (rand : nat → nat) (e : Event) (s s' : State) :
  tableInvariant s → tableCards s ⊆+ createDeck → totalsInvariant s →
  leftByThrow rand s e s' → totalsInvariant s'.
Proof.
  intros Htable Hcards [Hplayers Hdealer].
  destruct 1 as [| nextDeck dealtPlayers nextDealer _ _ _ Hdeal _ _
                 | | player card next _ Hphase Hat Hact Hdeck _ _ _ | ]; try done.
  - by eapply dealInitial_totals.
  - split; [|done]. cbn [players setPlayers].
    destruct (tableInvariant_playing s Htable Hphase) as (_ & _ & Hall & _).
    apply at_index_Some in Hat as [_ Hat].
    assert (Hlow : calculateHand (hand player) < 21).
    { destruct (proj1 (Forall_lookup _ _) Hall _ _ Hat) as [_ [(_ & _ & Hst)|[_ Hst]]];
        [by rewrite Hact in Hst|congruence]. }
    assert (Hcard : card ∈ createDeck).
    { eapply elem_of_submseteq; [|exact Hcards]. unfold tableCards. rewrite Hdeck.
      rewrite !elem_of_app. right. right. right. left. }
    apply Forall_insert; [done|].
    unfold playerAfterHit. cbn [hand withHand withStatus compose].
    pose proof (calculateHand_snoc_le (hand player) card Hcard). lia.
  - split; [|done]. cbn [players setPlayers]. by apply mapAt_Forall.
Qed.

Lemma reachable_totalsInvariant (s : State) : reachable s → totalsInvariant s.
Proof.
  induction 1 as [rand|rand e s s' Hreach IH Hclick|rand e s err Hreach IH Hclick].
  - split; [constructor|by vm_compute].
  - destruct (reachable_tableInvariant s Hreach)
      as [Hpos [[_ Hround]|(Hstalled & Hscreen & Hdraw & _)]].
    + eapply click_totals; [exact Hround| |exact IH|exact Hclick].
      by apply reachable_cards.
    + by rewrite (stalled_click _ _ _ _ Hpos Hstalled Hscreen Hdraw Hclick).
  - eapply leftByThrow_totals; [| |exact IH|by eapply reachable_leftByThrow].
    + by apply reachable_tableInvariant.
    + by apply reachable_cards.
Qed.

(** X19. The totals of every table the controls lead to are bounded.  A
    card of the deck added to a hand raises its total by at most 10 unless
    the new total is 21 or less.  Hence every player's total lies between 0
    and 30; it is at most 21 unless the player is bust, or stands at a
    stalled table (the phase is [Playing] and no player is active, which a
    dealer turn that threw leaves behind: there a stand may have marked a
    bust hand [stand]).  The dealer's total never exceeds 26 and, once the
    round has ended, lies between 17 and 26. *)
Theorem reachable_totals_are_bounded (s : State) :
  reachable s →
  (∀ (cards : list Card) (card : Card),
     card ∈ createDeck →
     calculateHand (cards ++ [card]) <= Z.max 21 (calculateHand cards + 10))
  ∧ (∀ player, player ∈ players s →
       0 <= calculateHand (hand player) <= 30
       ∧ (status player ≠ StBust →
          calculateHand (hand player) <= 21
          ∨ (stalled s ∧ status player = StStand)))
  ∧ 0 <= calculateHand (dealerHand (dealer s)) <= 26
  ∧ (phase s = RoundEnd → 17 <= calculateHand (dealerHand (dealer s)) <= 26).
Proof.
  intros Hreach.
  destruct (reachable_totalsInvariant s Hreach) as [Hplayers Hdealer].
  pose proof (reachable_tableInvariant s Hreach) as [_ Htable].
  pose proof (submseteq_deckCards _ (reachable_cards s Hreach)) as Hcards.
  unfold tableCards in Hcards. apply Forall_app in Hcards as [Hhands Hrest].
  apply Forall_app in Hrest as [Hdealt _].
  assert (Hpos : ∀ cards, Forall (λ card, card ∈ createDeck) cards →
                          0 <= calculateHand cards).
  { intros cards Hc. pose proof (deckCards_hardTotal cards Hc).
    pose proof (hardTotal_le cards). lia. }
  assert (Hsound : ∀ player, handStatus player → status player ≠ StBust →
                             calculateHand (hand player) <= 21).
  { intros player Hst%handStatus_bust Hnot.
    destruct (Z.le_gt_cases (calculateHand (hand player)) 21); [done|].
    exfalso. apply Hnot, Hst. lia. }
  split; [exact calculateHand_snoc_le|]. split; [|split].
  - intros player Hin.
    pose proof (proj1 (Forall_forall _ _) Hplayers player Hin) as Hle. cbv beta in Hle.
    assert (Hhand : Forall (λ card, card ∈ createDeck) (hand player)).
    { apply Forall_forall. intros card Hc.
      apply (proj1 (Forall_forall _ _) Hhands card).
      apply list_elem_of_In, in_concat. exists (hand player).
      split; [|by apply list_elem_of_In].
      apply list_elem_of_In, list_elem_of_fmap. by exists player. }
    split; [split; [by apply Hpos|done]|].
    intros Hnot.
    destruct Htable as [[_ Hround]|(Hstalled & _ & _ & _ & _ & Hall)].
    + left. unfold roundInvariant in Hround. destruct (phase s).
      * destruct Hround as [_ Hall].
        destruct (proj1 (Forall_forall _ _) Hall player Hin) as [-> _]. by vm_compute.
      * destruct Hround as (_ & _ & Hall).
        destruct (proj1 (Forall_forall _ _) Hall player Hin) as [Hst _].
        by apply Hsound.
      * destruct Hround as (_ & _ & _ & Hall).
        destruct (proj1 (Forall_forall _ _) Hall player Hin) as [Hst _].
        by apply Hsound.
    + destruct (proj1 (Forall_forall _ _) Hall player Hin) as [_ [Hst|[_ Hstand]]].
      * left. by apply Hsound.
      * by right.
  - split; [by apply Hpos|done].
  - intros Hphase.
    destruct Htable as [[_ Hround]|([Hplaying _] & _)]; [|congruence].
    unfold roundInvariant in Hround. rewrite Hphase in Hround.
    destruct Hround as (_ & _ & Hge & _). lia.
Qed.

Lemma reachable_totals_are_bounded_witness :
  reachable fourSeatsDeckEmpty
  ∧ ∀ player, player ∈ players fourSeatsDeckEmpty →
      0 <= calculateHand (hand player) <= 30.
Proof.
  assert (Hreach : reachable fourSeatsDeckEmpty) by apply stateAfter_reachable.
  split; [exact Hreach|]. intros player Hin.
  exact (proj1 (proj1 (proj2 (reachable_totals_are_bounded fourSeatsDeckEmpty Hreach))
                  player Hin)).
Defined.

(** ** Whole chips *)

Lemma whole_proper (x y : Q) : (x == y)%Q → whole x → whole y.
Proof. intros Hxy [n Hn]. exists n. by rewrite <- Hxy. Qed.

Lemma whole_inject (n : Z) : whole (inject_Z n).
Proof. by exists n. Qed.

Lemma whole_plus (x y : Q) : whole x → whole y → whole (x + y).
Proof.
  intros [n Hn] [m Hm]. exists (n + m). rewrite inject_Z_plus. by rewrite Hn, Hm.
Qed.

Lemma whole_minus (x y : Q) : whole x → whole y → whole (x - y).
Proof.
  intros [n Hn] [m Hm]. exists (n - m).
  unfold Z.sub. rewrite inject_Z_plus, inject_Z_opp. rewrite Hn, Hm. reflexivity.
Qed.

Lemma whole_min (x y : Q) : whole x → whole y → whole (Qmin x y).
Proof.
  intros Hx Hy. destruct (Q.min_spec x y) as [[_ Heq]|[_ Heq]];
    eapply whole_proper; [symmetry; exact Heq|done|symmetry; exact Heq|done].
Qed.

Lemma whole_round (x : Q) : whole (Math_round x).
Proof. apply whole_inject. Qed.

Lemma whole_sumQ (f : Player → Q) (l : list Player) :
  Forall (λ player, whole (f player)) l → whole (sumQ f l).
Proof.
  induction 1 as [|p l Hp _ IH]; simpl; [apply (whole_inject 0)|].
  by apply whole_plus.
Qed.

Lemma whole_chip_value (value : Q) :
  existsb (Qeq_bool value) CHIP_VALUES = true → whole value.
Proof.
  intros (amount & Hin & Heq%Qeq_bool_iff)%existsb_exists.
  apply (whole_proper amount); [by symmetry|].
  unfold CHIP_VALUES in Hin. simpl in Hin.
  destruct Hin as [<-|[<-|[<-|[<-|[<-|[<-|[]]]]]]];
    [exists 10|exists 25|exists 50|exists 100|exists 250|exists 500]; reflexivity.
Qed.

Lemma pooledPayoutMap_whole (potPool totalWeight : Q) (resolvedPlayers : list Player)
    (k : Z) :
  whole (default 0%Q (pooledPayoutMap potPool totalWeight resolvedPlayers !! k)).
Proof.
  unfold pooledPayoutMap.
  generalize (List.filter isWinner resolvedPlayers). intros winners.
  assert (Hgen : ∀ m0 : gmap Z Q,
             whole (default 0%Q (m0 !! k)) →
             whole (default 0%Q
                      (foldl (λ (payoutMap : gmap Z Q) player,
                                <[id player :=
                                    Math_round
                                      (if Qgt_bool totalWeight 0
                                       then potPool * weightOf player / totalWeight
                                       else 0)]> payoutMap) m0 winners !! k))).
  { induction winners as [|q winners IH]; intros m0 Hm0; [done|].
    simpl. apply IH. destruct (decide (id q = k)) as [<-|Hne].
    - rewrite lookup_insert_eq. simpl. apply whole_round.
    - by rewrite lookup_insert_ne. }
  apply Hgen. rewrite lookup_empty. apply (whole_inject 0).
Qed.

Lemma settledState_whole (s : State) (currentPlayers : list Player)
    (finalHand nextDeck : list Card) (nextPot : Q) :
  isMulti s = true → whole nextPot →
  Forall (λ player, whole (chips player) ∧ whole (bet player)) currentPlayers →
  let s' := settledState s currentPlayers finalHand nextDeck nextPot in
  whole (pot s')
  ∧ Forall (λ player, whole (chips player) ∧ whole (bet player)) (players s').
Proof.
  intros Hmulti Hpot Hplayers. cbv zeta. unfold settledState. cbn [pot players].
  rewrite Hmulti.
  set (resolved := resolvePlayers finalHand currentPlayers).
  assert (Hres : Forall (λ player, whole (chips player) ∧ whole (bet player)) resolved).
  { unfold resolved, resolvePlayers. apply Forall_fmap.
    eapply Forall_impl; [exact Hplayers|]. by intros player. }
  split.
  - destruct (Qgt_bool _ 0); [apply (whole_inject 0)|].
    eapply whole_proper; [symmetry; apply pooledPotPool_sum|].
    apply whole_minus; [done|]. apply whole_sumQ.
    apply Forall_forall. intros q Hq%list_elem_of_In%filter_In.
    destruct Hq as [Hq%list_elem_of_In _].
    by destruct (proj1 (Forall_forall _ _) Hres q Hq).
  - unfold pooledFinalPlayers. apply Forall_fmap.
    eapply Forall_impl; [exact Hres|]. intros player [Hchips Hbet].
    cbn [chips bet withChips withDelta compose]. split; [|done].
    apply whole_plus; [apply whole_plus; [done|]|apply pooledPayoutMap_whole].
    destruct (decide (result player = ResPush)); [done|apply (whole_inject 0)].
Qed.

Lemma handleDealerTurn_whole (s s' : State) (currentPlayers : list Player)
    (currentDealer : Dealer) (currentDeck : list Card) (nextPot : Q) :
  screen s = Table → isMulti s = true → whole nextPot →
  Forall (λ player, whole (chips player) ∧ whole (bet player)) currentPlayers →
  handleDealerTurn s currentPlayers currentDealer currentDeck nextPot = Return s' →
  wholeInvariant s'.
Proof.
  intros Hscreen Hmulti Hpot Hplayers (finalHand & nextDeck & _ & ->)%handleDealerTurn_inv.
  split.
  - cbn [screen settledState]. by rewrite Hscreen.
  - intros _. by apply settledState_whole.
Qed.

Lemma wholeInvariant_same (s s1 : State) :
  screen s = Table → screen s1 = Table → playerCount s1 = playerCount s →
  pot s1 = pot s →
  (λ player, (chips player, bet player)) <$> players s1
  = (λ player, (chips player, bet player)) <$> players s →
  wholeInvariant s → wholeInvariant s1.
Proof.
  intros Hscreen Hscreen1 Hcount Hpot Hproj [_ Hinv]. split; [by rewrite Hscreen1|].
  unfold isMulti in *. rewrite Hcount, Hpot. intros Hmulti.
  destruct (Hinv Hmulti) as [Hp Hall]. split; [done|].
  by apply (Forall_proj (λ player, (chips player, bet player))
              (λ stake, whole stake.1 ∧ whole stake.2) _ _ Hproj).
Qed.

Lemma advanceTurn_whole (s s' : State) (nextDealer : Dealer) (nextDeck : list Card) :
  screen s = Table → wholeInvariant s →
  advanceTurn s (players s) nextDealer nextDeck (pot s) = Return s' →
  wholeInvariant s'.
Proof.
  intros Hscreen Hinv. unfold advanceTurn.
  destruct (nextActiveIndex (players s) (currentIndex s)) as [j|e]; [|done].
  unfold mbind, completion_bind. destruct (j =? -1).
  - destruct (isMulti s) eqn:Hmulti.
    + destruct Hinv as [_ Hinv]. destruct (Hinv Hmulti) as [Hpot Hall].
      by apply handleDealerTurn_whole.
    + intros (finalHand & deck' & _ & ->)%handleDealerTurn_inv. split.
      * cbn [screen settledState]. by rewrite Hscreen.
      * change (isMulti (settledState s (players s) finalHand deck' (pot s)))
          with (isMulti s). by rewrite Hmulti.
  - intros [= <-]. by apply (wholeInvariant_same s).
Qed.

Lemma handleHit_whole (s s' : State) :
  screen s = Table → wholeInvariant s → handleHit s = Return s' → wholeInvariant s'.
Proof.
  intros Hscreen Hinv.
  destruct (at_index (players s) (currentIndex s)) as [player|] eqn:Hat.
  2:{ rewrite handleHit_guard by (by left). by intros [= <-]. }
  destruct (decide (status player = StActive)) as [Hact|Hnot].
  2:{ rewrite handleHit_guard by (right; eauto). by intros [= <-]. }
  destruct (drawCard (deck s)) as [[card|] next] eqn:Hdraw.
  2:{ unfold handleHit. by rewrite Hat, Hact, Hdraw. }
  rewrite (handleHit_step s player card next Hat Hact Hdraw). cbv zeta.
  set (updatedPlayers := <[Z.to_nat (currentIndex s) := playerAfterHit player card]>
                           (players s)).
  assert (Hs1 : wholeInvariant (setPlayers updatedPlayers (setDeck next s))).
  { apply (wholeInvariant_same s); try done. cbn [players setPlayers].
    unfold updatedPlayers. rewrite list_fmap_insert. apply list_insert_id.
    apply at_index_Some in Hat as [_ Hat]. by rewrite list_lookup_fmap, Hat. }
  destruct (_ <? 21); [by intros [= <-]|].
  by apply (advanceTurn_whole (setPlayers updatedPlayers (setDeck next s))).
Qed.

Lemma handleStand_whole (s s' : State) :
  screen s = Table → wholeInvariant s → handleStand s = Return s' → wholeInvariant s'.
Proof.
  intros Hscreen Hinv. unfold handleStand.
  set (updatedPlayers := mapAt (currentIndex s) (withStatus StStand) (players s)).
  apply (advanceTurn_whole (setPlayers updatedPlayers s)); [done|].
  apply (wholeInvariant_same s); try done. cbn [players setPlayers].
  by apply mapAt_preserves.
Qed.

Lemma handleDeal_whole (rand : nat → nat) (s s' : State) :
  screen s = Table → wholeInvariant s → handleDeal rand s = Return s' →
  wholeInvariant s'.
Proof.
  intros Hscreen Hinv. unfold handleDeal.
  destruct (existsb invalidBet (players s)).
  { intros [= <-]. by apply (wholeInvariant_same s). }
  destruct (dealInitial rand (deck s) (reservePlayers (players s)))
    as [[[nextDeck dealtPlayers] nextDealer]|e] eqn:Hdeal; [|done].
  apply (dealInitial_preserves (λ player, (chips player, bet player))) in Hdeal;
    [|done..].
  unfold mbind, completion_bind, nextActiveIndex.
  change (-1 + 1 <? 0) with false. cbv iota.
  destruct (isMulti s) eqn:Hmulti.
  - destruct Hinv as [_ Hinv]. destruct (Hinv Hmulti) as [Hpot Hall].
    assert (Hdealt : Forall (λ player, whole (chips player) ∧ whole (bet player))
                            dealtPlayers).
    { apply (Forall_proj (λ player, (chips player, bet player))
               (λ stake, whole stake.1 ∧ whole stake.2) _ _ Hdeal).
      unfold reservePlayers. apply Forall_fmap.
      eapply Forall_impl; [exact Hall|]. intros player [Hc Hb].
      cbn [chips bet withChips withRoundStartChips withDelta withResult withHand
             withStatus compose].
      split; [by apply whole_minus|done]. }
    assert (Hpot' : whole (pot s + foldl (λ sum player, sum + bet player) 0 (players s))%Q).
    { apply whole_plus; [done|].
      eapply whole_proper; [symmetry; apply foldl_sum_bets|].
      apply whole_plus; [apply (whole_inject 0)|]. apply whole_sumQ.
      eapply Forall_impl; [exact Hall|]. by intros player [_ ?]. }
    destruct (scanActive _ _ =? -1).
    + by apply handleDealerTurn_whole.
    + intros Heq%Return_inj. subst s'. split.
      * cbn [screen setCurrentIndex setPot setMessage setPhase setDealer setPlayers
               setDeck]. by rewrite Hscreen.
      * intros _.
        cbn [pot players setCurrentIndex setPot setMessage setPhase setDealer
               setPlayers setDeck]. by split.
  - assert (Hsolo : ∀ s0 : State, screen s0 = Table → isMulti s0 = false →
                                  wholeInvariant s0).
    { intros s0 Hs0 Hm0. split; [by rewrite Hs0|by rewrite Hm0]. }
    destruct (scanActive _ _ =? -1).
    + intros (finalHand & deck' & _ & ->)%handleDealerTurn_inv.
      apply Hsolo; [done|]. unfold isMulti in *. exact Hmulti.
    + intros Heq%Return_inj. subst s'.
      apply Hsolo; [done|]. unfold isMulti in *. exact Hmulti.
Qed.

Lemma betAdjust_whole (index : Z) (f : Player → Q) (s : State) :
  screen s = Table →
  (∀ player, whole (chips player) → whole (bet player) → whole (f player)) →
  wholeInvariant s →
  wholeInvariant
    (setPlayers (mapAt index (λ player, withBet (f player) player) (players s)) s).
Proof.
  intros Hscreen Hf [_ Hinv]. split; [cbn [screen setPlayers]; by rewrite Hscreen|].
  intros Hmulti. destruct (Hinv Hmulti) as [Hpot Hall]. split; [done|].
  cbn [players setPlayers]. apply mapAt_Forall; [|done].
  intros player [Hc Hb]. cbn [chips bet withBet]. split; [done|by apply Hf].
Qed.

Lemma click_whole (rand : nat → nat) (e : Event) (s s' : State) :
  wholeInvariant s → click rand e s = Return s' → wholeInvariant s'.
Proof.
  intros Hinv. unfold click.
  destruct (offered s e) eqn:Hoff; [|by intros [= <-]].
  destruct e; cbn [handler offered] in *.
  - intros [= <-].
    apply andb_true_iff in Hoff as [Hscreen%bool_decide_eq_true _].
    destruct Hinv as [Hlobby _]. destruct (Hlobby Hscreen) as [Hnone Hpot].
    split; [done|]. intros _. cbn [pot players setPlayerCount].
    rewrite Hnone, Hpot. split; [apply (whole_inject 0)|constructor].
  - intros [= <-]. split; [done|]. intros _.
    cbn [pot players handleLobbyStart setMessage setPot setRound setScreen setPhase
           setDealer setPlayers].
    split; [apply (whole_inject 0)|].
    unfold buildPlayers. apply Forall_fmap, Forall_forall. intros index _.
    cbn [chips bet compose]. rewrite lookup_nil.
    split; [apply (whole_inject 1000)|apply (whole_inject 0)].
  - intros [= <-]. repeat (apply andb_true_iff in Hoff as [Hoff ?]).
    apply bool_decide_eq_true in Hoff.
    apply (betAdjust_whole _ (λ player, Qmin (chips player) (bet player + value0)));
      [done| |done].
    intros player Hc Hb. apply whole_min; [done|]. apply whole_plus; [done|].
    by apply whole_chip_value.
  - intros [= <-]. repeat (apply andb_true_iff in Hoff as [Hoff ?]).
    apply bool_decide_eq_true in Hoff.
    apply (betAdjust_whole _ (λ _, 0%Q)); [done| |done].
    intros. apply (whole_inject 0).
  - intros [= <-]. repeat (apply andb_true_iff in Hoff as [Hoff ?]).
    apply bool_decide_eq_true in Hoff.
    by apply (betAdjust_whole _ (λ player, chips player)).
  - apply andb_true_iff in Hoff as [Hscreen%bool_decide_eq_true _].
    by apply handleDeal_whole.
  - apply andb_true_iff in Hoff as [Hscreen%bool_decide_eq_true _].
    by apply handleHit_whole.
  - apply andb_true_iff in Hoff as [Hscreen%bool_decide_eq_true _].
    by apply handleStand_whole.
  - intros [= <-].
    apply andb_true_iff in Hoff as [Hscreen%bool_decide_eq_true _].
    destruct Hinv as [_ Hinv]. unfold handleNextRound. split.
    { cbn [screen setMessage setRound setPhase setDealer setPlayers].
      by rewrite Hscreen. }
    intros Hmulti.
    destruct (Hinv Hmulti) as [Hpot Hall]. split; [done|].
    cbn [players setMessage setRound setPhase setDealer setPlayers].
    apply Forall_fmap. eapply Forall_impl; [exact Hall|]. intros player [Hc _].
    cbn [chips bet withBet withHand withStatus withResult withDelta compose].
    split; [done|apply (whole_inject 0)].
Qed.

Lemma leftByThrow_whole (rand : nat → nat) (e : Event) (s s' : State) :
  wholeInvariant s → leftByThrow rand s e s' → wholeInvariant s'.
Proof.
  intros Hinv.
  destruct 1 as [| nextDeck dealtPlayers nextDealer Hscreen _ _ Hdeal _ _
                 | | player card next Hscreen _ Hat _ _ _ _ _ | Hscreen _ _ _]; try done.
  - apply (dealInitial_preserves (λ player, (chips player, bet player))) in Hdeal;
      [|done..].
    split; [cbn [screen dealtState]; by rewrite Hscreen|].
    change (isMulti (dealtState s dealtPlayers nextDealer nextDeck)) with (isMulti s).
    intros Hmulti. destruct Hinv as [_ Hinv]. destruct (Hinv Hmulti) as [Hpot Hall].
    cbn [pot players dealtState]. unfold potAfterDeal. rewrite Hmulti. split.
    + apply whole_plus; [done|].
      eapply whole_proper; [symmetry; apply foldl_sum_bets|].
      apply whole_plus; [apply (whole_inject 0)|]. apply whole_sumQ.
      eapply Forall_impl; [exact Hall|]. by intros player [_ ?].
    + apply (Forall_proj (λ player, (chips player, bet player))
               (λ stake, whole stake.1 ∧ whole stake.2) _ _ Hdeal).
      unfold reservePlayers. apply Forall_fmap.
      eapply Forall_impl; [exact Hall|]. intros player [Hc Hb].
      cbn [chips bet withChips withRoundStartChips withDelta withResult withHand
             withStatus compose].
      split; [by apply whole_minus|done].
  - apply (wholeInvariant_same s); try done. cbn [players setPlayers].
    rewrite list_fmap_insert. apply list_insert_id.
    apply at_index_Some in Hat as [_ Hat]. by rewrite list_lookup_fmap, Hat.
  - apply (wholeInvariant_same s); try done. cbn [players setPlayers].
    by apply mapAt_preserves.
Qed.

Lemma reachable_wholeInvariant (s : State) : reachable s → wholeInvariant s.
Proof.
  induction 1 as [rand|rand e s s' _ IH Hclick|rand e s err Hreach IH Hclick].
  - split; [done|]. intros _. split; [apply (whole_inject 0)|constructor].
  - by eapply click_whole.
  - eapply leftByThrow_whole; [exact IH|]. by eapply reachable_leftByThrow.
Qed.

(** X20. At a table of several seats the chips are whole.  In every table
    of several seats the controls lead to, the pot and every player's chips
    and bet are whole amounts (the shares of the pot go through
    [Math.round]).  At a solo table they need not be: a bet of 25 that ends
    in a blackjack is paid 62.5 and leaves 1037.5 chips. *)
Theorem multi_table_chips_are_whole (s : State) :
  reachable s →
  (isMulti s = true →
     whole (pot s)
     ∧ ∀ player, player ∈ players s → whole (chips player) ∧ whole (bet player))
  ∧ (reachable soloNaturalOnOddBet
     ∧ isMulti soloNaturalOnOddBet = false
     ∧ ∃ player,
         players soloNaturalOnOddBet = [player]
         ∧ result player = ResBlackjack
         ∧ (bet player == 25)%Q
         ∧ (chips player == 2075 # 2)%Q
         ∧ ¬ whole (chips player)).
Proof.
  intros [_ Hinv]%reachable_wholeInvariant. split.
  - intros Hmulti. destruct (Hinv Hmulti) as [Hpot Hall].
    split; [done|]. by apply Forall_forall.
  - split; [apply stateAfter_reachable|]. split; [vm_compute; reflexivity|].
    eexists. split; [vm_compute; reflexivity|].
    split; [reflexivity|]. split; [reflexivity|]. split; [reflexivity|].
    intros [n Hn]. cbn [chips] in Hn. unfold Qeq in Hn. simpl in Hn. lia.
Qed.

Lemma multi_table_chips_are_whole_witness :
  reachable tableOfTwoDealt
  ∧ isMulti tableOfTwoDealt = true
  ∧ whole (pot tableOfTwoDealt).
Proof.
  assert (Hreach : reachable tableOfTwoDealt) by apply stateAfter_reachable.
  assert (Hmulti : isMulti tableOfTwoDealt = true) by (vm_compute; reflexivity).
  split; [exact Hreach|]. split; [exact Hmulti|].
  exact (proj1 (proj1 (multi_table_chips_are_whole tableOfTwoDealt Hreach) Hmulti)).
Defined.
